(** * Random PPSSP instance generation: a shallow embedding and its properties

    This development embeds the instance generator of the project-based
    PPSSP benchmark ([datagen.py], [project.py], [synergy.py],
    [instance_parameters.py], [project_problem_instance.py]) and proves
    properties of the generated instances.

    Modelling conventions.
    - Python [int]s and numpy integers are [Z]; array positions are [nat].
    - Python and numpy floats are rationals ([Q]): every finite double is a
      rational, and [floor], [int()], [round()] and comparisons are exact on
      it.  The arithmetic [+ - * /] is the exact one: rounding of the
      double-precision operations is not modelled.  Equality of floats is
      [Qeq] ([==]).
    - [math.exp] and the float power [**] are library functions: they are the
      two operations of the class [Libm]; what the proofs need from them
      (monotonicity, [exp x < 1] for [x < 0], positivity of powers) is the
      class [LibmLaws].
    - numpy's process-wide generator is an explicit state of type [rng],
      threaded through every sampling call by the monad [M]; the sampling
      routines are the operations of the class [NumpyRandom], their
      documented contracts the class [NumpyRandomLaws].
    - Python exceptions are the [Raise] results of [result]; the two [while]
      loops of the source take a fuel argument and give [OutOfFuel] when it
      runs out.
    - numpy arrays are lists; an array of objects mutated in place is passed
      and returned explicitly. *)

From Stdlib Require Import ZArith QArith Qround Lia Lqa.
From stdpp Require Import base list strings pretty sorting.

Local Open Scope Q_scope.

(** ** Results and exceptions *)

Inductive exn : Type :=
  | IndexError
  | ValueError
  | ZeroDivisionError.

Inductive result (A : Type) : Type :=
  | Ok (a : A)
  | Raise (e : exn)
  | OutOfFuel.

Arguments Ok {A} a.
Arguments Raise {A} e.
Arguments OutOfFuel {A}.

Definition result_bind {A B : Type} (m : result A) (k : A → result B) : result B :=
  match m with
  | Ok a => k a
  | Raise e => Raise e
  | OutOfFuel => OutOfFuel
  end.

Declare Scope result_scope.
Delimit Scope result_scope with result.
Notation "'try' x <- m ; k" := (result_bind m (λ x, k))
  (at level 100, x pattern, m at next level, k at level 200,
   right associativity) : result_scope.
Local Open Scope result_scope.

(** A [for] loop over a list, with an accumulator and exceptions. *)
Fixpoint for_each {S A : Type} (f : S → A → result S) (l : list A) (s : S) : result S :=
  match l with
  | [] => Ok s
  | x :: l' => try s' <- f s x; for_each f l' s'
  end.

(** [range(n)] and [range(a, n)] for a Python integer [n]. *)
Definition range (n : Z) : list nat := seq 0 (Z.to_nat n).
Definition range_from (a : nat) (n : Z) : list nat := seq a (Z.to_nat n - a).

(** ** Numbers *)

Definition Qltb (x y : Q) : bool := negb (Qle_bool y x).

(** [int(x)]: truncation towards zero. *)
Definition Qtrunc (x : Q) : Z :=
  if Qle_bool 0 x then Qfloor x else Qceiling x.

(** [np.rint] and [ndarray.round]: round to the nearest integer, ties to
    the even one. *)
Definition rint (x : Q) : Z :=
  let f := Qfloor x in
  let r := x - inject_Z f in
  if Qltb r (1 # 2) then f
  else if Qltb (1 # 2) r then (f + 1)%Z
  else if Z.even f then f else (f + 1)%Z.

(** [max(x, y)] of Python: the first argument unless the second is larger. *)
Definition pymax (x y : Q) : Q := if Qltb x y then y else x.

Definition Qsum (l : list Q) : Q := foldr Qplus 0 l.

(** [np.zeros(n)] *)
Definition np_zeros (n : Z) : result (list Q) :=
  if (n <? 0)%Z then Raise ValueError else Ok (replicate (Z.to_nat n) 0).

(** [a[i] = v] for a Python index [i]: negative indices count from the end,
    anything outside raises [IndexError]. *)
Definition setitem {A : Type} (a : list A) (i : Z) (v : A) : result (list A) :=
  let n := Z.of_nat (length a) in
  if ((0 <=? i) && (i <? n))%Z then Ok (<[Z.to_nat i := v]> a)
  else if ((- n <=? i) && (i <? 0))%Z then Ok (<[Z.to_nat (n + i) := v]> a)
  else Raise IndexError.

(** [a[i]] for a position [i] (a non-negative index). *)
Definition getitem {A : Type} (a : list A) (i : nat) : result A :=
  match a !! i with
  | Some x => Ok x
  | None => Raise IndexError
  end.

(** ** The libraries the generator calls *)

(** [math.exp] and [**] on floats. *)
Class Libm : Type := {
  math_exp : Q → Q;
  float_pow : Q → Q → Q
}.

Class LibmLaws (L : Libm) : Prop := {
  exp_mono : ∀ x y, x <= y → math_exp x <= math_exp y;
  exp_neg : ∀ x, x < 0 → math_exp x < 1;
  pow_mono : ∀ x y s, 0 <= x → x <= y → 0 < s → float_pow x s <= float_pow y s;
  pow_pos : ∀ x s, 0 < x → 0 < float_pow x s
}.

(** numpy's global generator: [rng] is its state.  Each routine takes the
    state and gives the draw with the next state.
    - [random_seed s] is the state after [np.random.seed(s)];
    - [random_multivariate_normal mean cov n] is
      [np.random.multivariate_normal(mean, cov, n)] for a 2x2 covariance;
    - [random_normal mu sigma] is [np.random.normal(mu, sigma)];
    - [random_random] is [np.random.random()];
    - [random_choice a k] is [np.random.choice(a, size=k, replace=False)]
      for [k] draws in all (the caller reshapes them);
    - [random_randint low high] is [np.random.randint(low, high)];
    - [randint_rvs low high n] is [scipy.stats.randint(low, high).rvs(n)],
      which draws from the same global generator. *)
Class NumpyRandom : Type := {
  rng : Type;
  random_seed : Z → result rng;
  random_multivariate_normal :
    Q * Q → (Q * Q) * (Q * Q) → Z → rng → result (list (Q * Q) * rng);
  random_normal : Q → Q → rng → Q * rng;
  random_random : rng → Q * rng;
  random_choice : list nat → nat → rng → result (list nat * rng);
  random_randint : Z → Z → rng → result (Z * rng);
  randint_rvs : Z → Z → Z → rng → result (list Z * rng)
}.

(** The contracts of numpy the proofs rely on: a sample without replacement
    has the size asked for and is a rearrangement of part of the population;
    [randint] draws from the half-open interval [[low, high)] and raises
    [ValueError] when that interval is empty. *)
Class NumpyRandomLaws (R : NumpyRandom) : Prop := {
  choice_ok : ∀ a k g l g',
    random_choice a k g = Ok (l, g') → length l = k ∧ l ⊆+ a;
  randint_ok : ∀ low high g, (low < high)%Z →
    ∃ r g', random_randint low high g = Ok (r, g') ∧ (low ≤ r < high)%Z;
  randint_empty : ∀ low high g, (high ≤ low)%Z →
    random_randint low high g = Raise ValueError
}.

(** ** The sampling monad *)

Section Sampling.
Context {R : NumpyRandom}.

Definition M (A : Type) : Type := rng → result (A * rng).

Definition ret {A : Type} (a : A) : M A := λ g, Ok (a, g).

Definition bind {A B : Type} (m : M A) (k : A → M B) : M B :=
  λ g, match m g with
       | Ok (a, g') => k a g'
       | Raise e => Raise e
       | OutOfFuel => OutOfFuel
       end.

(** A computation that does not sample. *)
Definition lift {A : Type} (r : result A) : M A :=
  λ g, match r with
       | Ok a => Ok (a, g)
       | Raise e => Raise e
       | OutOfFuel => OutOfFuel
       end.

(** A draw that cannot fail. *)
Definition draw {A : Type} (f : rng → A * rng) : M A := λ g, Ok (f g).
End Sampling.

Declare Scope sampling_scope.
Delimit Scope sampling_scope with M.
Notation "x <- m ; k" := (bind m (λ x, k))
  (at level 100, m at next level, k at level 200, right associativity)
  : sampling_scope.

Section Loops.
Context {R : NumpyRandom}.
Local Open Scope sampling_scope.

(** A [for] loop whose body samples. *)
Fixpoint for_eachM {S A : Type} (f : S → A → M S) (l : list A) (s : S) : M S :=
  match l with
  | [] => ret s
  | x :: l' => s' <- f s x; for_eachM f l' s'
  end.
End Loops.

(** ** datagen.py *)

Section Datagen.
Context {L : Libm} {R : NumpyRandom}.
Local Open Scope sampling_scope.

Definition mvlnorm_generate_costdur (num_samples : Z)
    (log_mean_dur log_var_dur log_mean_cost log_var_cost cov : Q) : M (list (Z * Z)) :=
  let cov_mat := ((log_var_dur, cov), (cov, log_var_cost)) in
  data <- random_multivariate_normal (log_mean_dur, log_mean_cost) cov_mat num_samples;
  let data := map (λ row : Q * Q, (rint (math_exp row.1), rint (math_exp row.2))) data in
  ret data.

(** The two divisions of the source raise [ZeroDivisionError] on a zero
    divisor: [1 / scale] for a zero scale, [num / denom] for a zero
    denominator. *)
Definition _weibull_estimate (cdf_value shape scale : Q) : result Q :=
  if Qltb cdf_value 0 then Ok 0
  else if Qle_bool 1 cdf_value then Ok 1
  else
    if Qeq_bool scale 0 then Raise ZeroDivisionError else
    let num := 1 - math_exp (- float_pow (cdf_value / scale) shape) in
    let denom := 1 - math_exp (- float_pow (1 / scale) shape) in
    if Qeq_bool denom 0 then Raise ZeroDivisionError else Ok (num / denom).

(** [while fuzzy_shape < 0.01: fuzzy_shape = np.random.normal(shape, std_shape)] *)
Fixpoint redraw_shape (fuel : nat) (shape std_shape fuzzy_shape : Q) : M Q :=
  if Qltb fuzzy_shape 0.01 then
    match fuel with
    | O => λ _, OutOfFuel
    | S fuel' =>
        fuzzy_shape <- draw (random_normal shape std_shape);
        redraw_shape fuel' shape std_shape fuzzy_shape
    end
  else ret fuzzy_shape.

(** The body of [for t in range(duration - 1)]; the loop state is
    [(costs, cumulative_cost, prev_sample)]. *)
Definition weibull_period (total_cost : Q) (duration : Z) (fuzzy_shape fuzzy_scale : Q)
    (st : list Q * Z * Q) (t : nat) : result (list Q * Z * Q) :=
  let '(costs, cumulative_cost, prev_sample) := st in
  try sample <- _weibull_estimate (inject_Z (Z.of_nat t + 1) / inject_Z duration)
                                  fuzzy_shape fuzzy_scale;
  let cost := Qfloor ((sample - prev_sample) * total_cost) in
  try costs <- setitem costs (Z.of_nat t) (inject_Z cost);
  Ok (costs, (cumulative_cost + cost)%Z, sample).

Definition fuzzy_weibull_cost_distribution (fuel : nat) (total_cost : Q) (duration : Z)
    (shape scale std_shape std_scale : Q) : M (list Q) :=
  fuzzy_shape <- draw (random_normal shape std_shape);
  fuzzy_shape <- redraw_shape fuel shape std_shape fuzzy_shape;
  fuzzy_scale <- draw (random_normal scale std_scale);
  let fuzzy_scale := pymax fuzzy_scale 0.1 in
  costs <- lift (np_zeros duration);
  st <- lift (for_each (weibull_period total_cost duration fuzzy_shape fuzzy_scale)
                       (range (duration - 1)) (costs, 0%Z, 0));
  let '(costs, cumulative_cost, prev_sample) := st in
  costs <- lift (setitem costs (duration - 1) (total_cost - inject_Z cumulative_cost));
  ret costs.

(** The [n]-th value [np.random.normal(shape, std_shape)] gives from the
    state [g] on (the first one is number 0). *)
Fixpoint shape_draw (n : nat) (shape std_shape : Q) (g : rng) : Q :=
  match n with
  | O => (random_normal shape std_shape g).1
  | S n' => shape_draw n' shape std_shape (random_normal shape std_shape g).2
  end.
End Datagen.

(** ** synergy.py *)

(** [project_ids] is the array [group] the synergy pass passes to the
    constructor: positions in the array of projects. *)

Module Synergy.
Record t : Type := mk {
  project_ids : list nat;
  value : Z
}.
End Synergy.

(** ** project.py *)

(** The attributes of a [Project], in the order [__init__] assigns them.
    The attribute [id] is [project_id] here ([id] is the identity function);
    the relation lists hold project ids. *)
Record Project : Type := mkProject {
  project_id : nat;
  project_name : string;
  cost : list Q;
  value : list Q;
  duration : Z;
  prerequisite_list : list nat;
  successor_list : list nat;
  exclusion_list : list nat;
  total_cost : Z
}.

(** The three attribute assignments of the constraint passes. *)
Definition set_prerequisite_list (p : Project) (l : list nat) : Project :=
  mkProject (project_id p) (project_name p) (cost p) (value p) (duration p)
            l (successor_list p) (exclusion_list p) (total_cost p).

Definition set_successor_list (p : Project) (l : list nat) : Project :=
  mkProject (project_id p) (project_name p) (cost p) (value p) (duration p)
            (prerequisite_list p) l (exclusion_list p) (total_cost p).

Definition set_exclusion_list (p : Project) (l : list nat) : Project :=
  mkProject (project_id p) (project_name p) (cost p) (value p) (duration p)
            (prerequisite_list p) (successor_list p) l (total_cost p).

(** A list of [(group_size, proportion)] directives. *)
Definition directives : Type := list (Z * Q).

(** [np.setdiff1d(a, b)]: the sorted, unique values of [a] that are not in [b]. *)
Definition setdiff1d (a b : list nat) : list nat :=
  merge_sort (≤)%nat (remove_dups (list_difference a b)).

(** An array of [rows * cols] values seen as [rows] rows. *)
Fixpoint reshape {A : Type} (rows cols : nat) (l : list A) : list (list A) :=
  match rows with
  | O => []
  | S rows' => take cols l :: reshape rows' cols (drop cols l)
  end.

(** [int(prop * num_projects / size)] *)
Definition num_groups_of (prop : Q) (num_projects : nat) (size : Z) : result Z :=
  if (size =? 0)%Z then Raise ZeroDivisionError
  else Ok (Qtrunc (prop * inject_Z (Z.of_nat num_projects) / inject_Z size)).

(** [projects[prereq].successor_list = np.append(.., successor + 1)] and
    [projects[successor].prerequisite_list = np.append(.., prereq + 1)]. *)
Definition add_successor (projects : list Project) (prereq successor : nat)
    : result (list Project) :=
  try p <- getitem projects prereq;
  let projects :=
    <[prereq := set_successor_list p (successor_list p ++ [successor + 1]%nat)]> projects in
  try s <- getitem projects successor;
  Ok (<[successor := set_prerequisite_list s (prerequisite_list s ++ [prereq + 1]%nat)]> projects).

(** The body of [for group in groups] of the prerequisite pass. *)
Definition link_prerequisite_group (size : Z) (projects : list Project) (group : list nat)
    : result (list Project) :=
  let sorted_group := merge_sort (≤)%nat group in
  try prereq <- getitem sorted_group 0;
  for_each (λ projects i,
              try successor <- getitem sorted_group i;
              add_successor projects prereq successor)
           (range_from 1 size) projects.

(** [projects[ind1].exclusion_list = np.append(.., ind2 + 1)] *)
Definition add_exclusion (projects : list Project) (ind1 ind2 : nat) : result (list Project) :=
  try p <- getitem projects ind1;
  Ok (<[ind1 := set_exclusion_list p (exclusion_list p ++ [ind2 + 1]%nat)]> projects).

(** The body of [for group in groups] of the exclusion pass. *)
Definition exclude_group (size : Z) (projects : list Project) (group : list nat)
    : result (list Project) :=
  for_each (λ projects i,
              try ind1 <- getitem group i;
              for_each (λ projects j,
                          if decide (i = j) then Ok projects
                          else try ind2 <- getitem group j;
                               add_exclusion projects ind1 ind2)
                       (range size) projects)
           (range size) projects.

(** The exclusion test of one candidate synergy group: the final value of
    [repeat].  A [break] is an iteration that leaves the state as it is. *)
Definition group_repeat (size : Z) (projects : list Project) (group : list nat) : result bool :=
  for_each (λ (repeat : bool) (index : nat),
              if repeat then Ok repeat
              else
                try p_index <- getitem group index;
                try p_check <- getitem projects p_index;
                for_each (λ (repeat : bool) (check_index : nat),
                            if repeat then Ok repeat
                            else
                              try p2_index <- getitem group check_index;
                              Ok (bool_decide (p2_index ∈ exclusion_list p_check)))
                         (range_from (index + 1) size) repeat)
           (seq 0 (length group)) false.

(** [total_group_value], the sum of [np.sum(projects[p_index].value)]. *)
Definition total_group_value (projects : list Project) (group : list nat) : result Q :=
  for_each (λ total p_index,
              try p <- getitem projects p_index;
              Ok (total + Qsum (value p)))
           group 0.

(** The keyword arguments [value_dist] (an object with a method [rvs], which
    samples from a generator of state [state]) and [factor]; [None] is an
    absent key. *)
Record Kwargs (state : Type) : Type := mkKwargs {
  value_dist : option (Z → state → result (list Q * state));
  factor : option Q
}.

Arguments mkKwargs {state} value_dist factor.
Arguments value_dist {state} k.
Arguments factor {state} k.

(** No keyword argument given. *)
Definition no_kwargs {state : Type} : Kwargs state := mkKwargs None None.

Section ProjectGeneration.
Context {L : Libm} {R : NumpyRandom}.
Local Open Scope sampling_scope.

(** [dists.randint(1, 5)] *)
Definition default_value_dist (n : Z) : M (list Q) :=
  l <- randint_rvs 1 5 n; ret (map inject_Z l).

Definition random_cost_dur_value (total_cost duration : Z) (kwargs : Kwargs rng) : M Q :=
  let value_dist := default default_value_dist (value_dist kwargs) in
  let factor := default 2 (factor kwargs) in
  u <- draw random_random;
  draws <- value_dist (duration - 1)%Z;
  ret (u * inject_Z total_cost * factor + Qsum draws).

(** [fuzzy_weibull_cost_distribution(total, duration)] with the defaults
    of its other arguments. *)
Definition cost_distribution (fuel : nat) (total : Q) (duration : Z) : M (list Q) :=
  fuzzy_weibull_cost_distribution fuel total duration 1.589 0.71 2 0.3.

(** The body of [for i in range(num_projects)]; [projects[i] = Project(..)]
    fills the array from left to right. *)
Definition create_project (fuel : nat) (kwargs : Kwargs rng) (cost_dur : list (Z * Z))
    (projects : list Project) (i : nat) : M (list Project) :=
  row <- lift (getitem cost_dur i);
  let duration := row.1 in
  let total_cost := row.2 in
  cost <- cost_distribution fuel (inject_Z total_cost) duration;
  total_value <- random_cost_dur_value total_cost duration kwargs;
  value <- cost_distribution fuel total_value duration;
  let value := map (λ v, inject_Z (rint v)) value in
  let exclusions := [] in
  let prerequisites := [] in
  let successors := [] in
  ret (projects ++ [mkProject (i + 1) ("Project " +:+ pretty (i + 1)%nat) cost value
                              duration prerequisites successors exclusions total_cost]).

(** [np.random.choice(indices, size=(num_groups, size), replace=False)] *)
Definition choice_groups (indices : list nat) (num_groups size : Z) : M (list (list nat)) :=
  if ((num_groups <? 0) || (size <? 0))%Z then λ _, Raise ValueError
  else
    flat <- random_choice indices (Z.to_nat (num_groups * size));
    ret (reshape (Z.to_nat num_groups) (Z.to_nat size) flat).

(** [np.random.choice(indices, size=size, replace=False)] *)
Definition choice_group (indices : list nat) (size : Z) : M (list nat) :=
  if (size <? 0)%Z then λ _, Raise ValueError
  else random_choice indices (Z.to_nat size).

(** One directive of the prerequisite pass; the loop state is
    [(indices, projects)]. *)
Definition prerequisites_round (num_projects : nat) (st : list nat * list Project)
    (directive : Z * Q) : M (list nat * list Project) :=
  let '(indices, projects) := st in
  let '(size, prop) := directive in
  num_groups <- lift (num_groups_of prop num_projects size);
  groups <- choice_groups indices num_groups size;
  let indices := setdiff1d indices (concat groups) in
  projects <- lift (for_each (link_prerequisite_group size) groups projects);
  ret (indices, projects).

Definition _generate_prerequisites_post (projects : list Project) (group_sizes : directives)
    : M (list Project) :=
  let num_projects := length projects in
  let indices := seq 0 num_projects in
  st <- for_eachM (prerequisites_round num_projects) group_sizes (indices, projects);
  ret st.2.

Definition exclusions_round (num_projects : nat) (st : list nat * list Project)
    (directive : Z * Q) : M (list nat * list Project) :=
  let '(indices, projects) := st in
  let '(size, prop) := directive in
  num_groups <- lift (num_groups_of prop num_projects size);
  groups <- choice_groups indices num_groups size;
  let indices := setdiff1d indices (concat groups) in
  projects <- lift (for_each (exclude_group size) groups projects);
  ret (indices, projects).

Definition _generate_exclusions_post (projects : list Project) (group_sizes : directives)
    : M (list Project) :=
  let num_projects := length projects in
  let indices := seq 0 num_projects in
  st <- for_eachM (exclusions_round num_projects) group_sizes (indices, projects);
  ret st.2.

(** The groups a prerequisite or exclusion pass draws, in order: the
    sampling of the pass without the updates of the projects. *)
Fixpoint drawn_groups (num_projects : nat) (group_sizes : directives)
    (indices : list nat) : M (list (list nat)) :=
  match group_sizes with
  | [] => ret []
  | (size, prop) :: group_sizes' =>
      num_groups <- lift (num_groups_of prop num_projects size);
      groups <- choice_groups indices num_groups size;
      later <- drawn_groups num_projects group_sizes'
                 (setdiff1d indices (concat groups));
      ret (groups ++ later)
  end.

Definition pass_groups (tuples : option directives) (num_projects : nat)
    : M (list (list nat)) :=
  match tuples with
  | Some t => drawn_groups num_projects t (seq 0 num_projects)
  | None => ret []
  end.

(** The rejection loop [while repeat]: one unit of fuel per candidate. *)
Fixpoint draw_synergy_group (fuel : nat) (projects : list Project) (indices : list nat)
    (size : Z) : M (list nat) :=
  match fuel with
  | O => λ _, OutOfFuel
  | S fuel' =>
      group <- choice_group indices size;
      repeat <- lift (group_repeat size projects group);
      if repeat : bool then draw_synergy_group fuel' projects indices size
      else ret group
  end.

(** The body of [for i in range(num_groups)] of the synergy pass.  The upper
    bound of [np.random.randint] is the float [total_group_value], which
    numpy converts with [int()]. *)
Definition synergy_round (fuel : nat) (projects : list Project) (indices : list nat)
    (size : Z) (synergies : list Synergy.t) (i : nat) : M (list Synergy.t) :=
  group <- draw_synergy_group fuel projects indices size;
  total_group_value <- lift (total_group_value projects group);
  synergy_value <- random_randint 1 (Qtrunc total_group_value);
  ret (synergies ++ [Synergy.mk group synergy_value]).

Definition synergies_round (fuel : nat) (projects : list Project) (indices : list nat)
    (synergies : list Synergy.t) (directive : Z * Q) : M (list Synergy.t) :=
  let '(size, prop) := directive in
  num_groups <- lift (num_groups_of prop (length projects) size);
  for_eachM (synergy_round fuel projects indices size) (range num_groups) synergies.

Definition _generate_synergies_post (fuel : nat) (projects : list Project)
    (group_sizes : directives) : M (list Synergy.t) :=
  let num_projects := length projects in
  let indices := seq 0 num_projects in
  for_eachM (synergies_round fuel projects indices) group_sizes [].

(** Lines 113-137 of [create_random_projects]: the array of projects
    before the constraint passes. *)
Definition generate_projects (fuel : nat) (num_projects : Z) (kwargs : Kwargs rng)
    : M (list Project) :=
  if (num_projects <? 0)%Z then λ _, Raise ValueError
  else
    cost_dur <- mvlnorm_generate_costdur num_projects
                  2.191054 0.246245 6.642006 1.555780 0.374572;
    for_eachM (create_project fuel kwargs cost_dur) (range num_projects) [].

(** The three passes, in the order of the source. *)
Definition exclusion_pass (exclusion_tuples : option directives) (projects : list Project)
    : M (list Project) :=
  match exclusion_tuples with
  | Some t => _generate_exclusions_post projects t
  | None => ret projects
  end.

Definition prerequisite_pass (prerequisite_tuples : option directives)
    (projects : list Project) : M (list Project) :=
  match prerequisite_tuples with
  | Some t => _generate_prerequisites_post projects t
  | None => ret projects
  end.

Definition synergy_pass (fuel : nat) (synergy_tuples : option directives)
    (projects : list Project) : M (list Synergy.t) :=
  match synergy_tuples with
  | Some t => _generate_synergies_post fuel projects t
  | None => ret []
  end.

(** [np.random.seed(seed)] replaces the state of the global generator:
    the state the call starts in is not used. *)
Definition create_random_projects (fuel : nat) (num_projects : Z)
    (prerequisite_tuples exclusion_tuples synergy_tuples : option directives)
    (seed : Z) (kwargs : Kwargs rng) : M (list Project * list Synergy.t) :=
  λ _,
    try g <- random_seed seed;
    (projects <- generate_projects fuel num_projects kwargs;
     projects <- exclusion_pass exclusion_tuples projects;
     projects <- prerequisite_pass prerequisite_tuples projects;
     synergy_groups <- synergy_pass fuel synergy_tuples projects;
     ret (projects, synergy_groups)) g.
End ProjectGeneration.

(** ** instance_parameters.py and project_problem_instance.py *)

(** The attributes of an [InstanceParameters] object.  [max_proj_length] is
    not set by [__init__]: it is [None] until [generate_instance] assigns
    it. *)
Record InstanceParameters (state : Type) : Type := mkInstanceParameters {
  num_projects : Z;
  planning_window : Z;
  base_budget : Q;
  yearly_budget_increase : Q;
  initiation_max_proportion : Q;
  ongoing_max_proportion : Q;
  prerequisite_tuples : option directives;
  exclusion_tuples : option directives;
  synergy_tuples : option directives;
  discount_rate : Q;
  kwargs : Kwargs state;
  max_proj_length : option Z
}.

Arguments mkInstanceParameters {state}.
Arguments num_projects {state} i.
Arguments planning_window {state} i.
Arguments base_budget {state} i.
Arguments yearly_budget_increase {state} i.
Arguments initiation_max_proportion {state} i.
Arguments ongoing_max_proportion {state} i.
Arguments prerequisite_tuples {state} i.
Arguments exclusion_tuples {state} i.
Arguments synergy_tuples {state} i.
Arguments discount_rate {state} i.
Arguments kwargs {state} i.
Arguments max_proj_length {state} i.

(** [param.max_proj_length = v] *)
Definition set_max_proj_length {state : Type} (param : InstanceParameters state) (v : Z)
    : InstanceParameters state :=
  mkInstanceParameters (num_projects param) (planning_window param) (base_budget param)
    (yearly_budget_increase param) (initiation_max_proportion param)
    (ongoing_max_proportion param) (prerequisite_tuples param) (exclusion_tuples param)
    (synergy_tuples param) (discount_rate param) (kwargs param) (Some v).

(** [parameters] is the caller's object itself: the instance sees the
    assignment to [max_proj_length]. *)
Record ProjectProblemInstance (state : Type) : Type := mkProjectProblemInstance {
  projects : list Project;
  budget : list Q;
  initiation_budget : list Q;
  ongoing_budget : list Q;
  synergies : list Synergy.t;
  instance_planning_window : Z;
  identifier : string;
  instance_num_projects : nat;
  budget_window : nat;
  instance_discount_rate : Q;
  parameters : InstanceParameters state
}.

Arguments mkProjectProblemInstance {state}.
Arguments projects {state} p.
Arguments budget {state} p.
Arguments initiation_budget {state} p.
Arguments ongoing_budget {state} p.
Arguments synergies {state} p.
Arguments instance_planning_window {state} p.
Arguments identifier {state} p.
Arguments instance_num_projects {state} p.
Arguments budget_window {state} p.
Arguments instance_discount_rate {state} p.
Arguments parameters {state} p.

Section Instances.
Context {L : Libm} {R : NumpyRandom}.
Local Open Scope sampling_scope.

Definition create_random_projects_from_param (fuel : nat) (params : InstanceParameters rng)
    (seed : Z) : M (list Project * list Synergy.t) :=
  create_random_projects fuel (num_projects params) (prerequisite_tuples params)
    (exclusion_tuples params) (synergy_tuples params) seed (kwargs params).

(** The loop that finds the maximum project length. *)
Definition max_project_length (random_project_list : list Project) : Z :=
  foldl (λ max_length p, if (max_length <? duration p)%Z then duration p else max_length)
        0%Z random_project_list.

(** [budget = np.zeros(budget_period)] and the loop that fills it. *)
Definition linear_budget (param : InstanceParameters rng) (budget_period : Z) : result (list Q) :=
  try budget <- np_zeros budget_period;
  for_each (λ budget y,
              setitem budget (Z.of_nat y)
                (base_budget param + inject_Z (Z.of_nat y) * yearly_budget_increase param))
           (range budget_period) budget.

(** [generate_instance]: the result is the instance together with the
    caller's parameter object as the call leaves it. *)
Definition generate_instance (fuel : nat) (param : InstanceParameters rng) (random_seed : Z)
    (identifier : string) : M (ProjectProblemInstance rng * InstanceParameters rng) :=
  res <- create_random_projects_from_param fuel param random_seed;
  let '(random_project_list, synergies) := res in
  let max_length := max_project_length random_project_list in
  let param := set_max_proj_length param max_length in
  let budget_period := (planning_window param + max_length)%Z in
  budget <- lift (linear_budget param budget_period);
  let initiation_budget := map (λ b, b * initiation_max_proportion param) budget in
  let ongoing_budget := map (λ b, b * ongoing_max_proportion param) budget in
  ret (mkProjectProblemInstance random_project_list budget initiation_budget ongoing_budget
         synergies (planning_window param) identifier (length random_project_list)
         (length budget) (discount_rate param) param,
       param).
End Instances.

(** ** A scripted generator and a toy [libm]

    Concrete instances of the two library interfaces, used to run the
    generator on concrete inputs.  The state of the scripted generator is a
    tape of integers; every elementary draw reads the head of the tape (0
    when the tape is empty).  A seed (an integer of at most 32 bits, as for
    numpy) is read as the tape of its digits in base 4, least significant
    first. *)

Module Scripted.
Definition pop (g : list Z) : Z * list Z :=
  match g with
  | [] => (0%Z, [])
  | z :: g' => (z, g')
  end.

Fixpoint digits (s : positive) : list Z :=
  match s with
  | xH => [1%Z]
  | xO xH => [2%Z]
  | xI xH => [3%Z]
  | xO (xO s') => 0%Z :: digits s'
  | xI (xO s') => 1%Z :: digits s'
  | xO (xI s') => 2%Z :: digits s'
  | xI (xI s') => 3%Z :: digits s'
  end.

Definition seed (s : Z) : result (list Z) :=
  match s with
  | Z0 => Ok []
  | Zpos s' => if (Pos.size_nat s' <=? 32)%nat then Ok (digits s') else Raise ValueError
  | Zneg _ => Raise ValueError
  end.

(** A draw [mu + sigma * (z - 2) / 2] for the tape entry [z]. *)
Definition normal (mu sigma : Q) (g : list Z) : Q * list Z :=
  let '(z, g) := pop g in (mu + sigma * inject_Z (z - 2) / 2, g).

Definition random (g : list Z) : Q * list Z :=
  let '(z, g) := pop g in (inject_Z (z mod 4) / 4, g).

Fixpoint mvn_rows (n : nat) (mean : Q * Q) (g : list Z) : list (Q * Q) * list Z :=
  match n with
  | O => ([], g)
  | S n' =>
      let '(z1, g) := pop g in
      let '(z2, g) := pop g in
      let '(rows, g) := mvn_rows n' mean g in
      ((mean.1 + inject_Z (z1 - 2), mean.2 + inject_Z (z2 - 2)) :: rows, g)
  end.

Definition multivariate_normal (mean : Q * Q) (cov : (Q * Q) * (Q * Q)) (n : Z)
    (g : list Z) : result (list (Q * Q) * list Z) :=
  if (n <? 0)%Z then Raise ValueError else Ok (mvn_rows (Z.to_nat n) mean g).

(** [k] draws without replacement: each takes the element of the remaining
    population at the position the tape gives. *)
Fixpoint pick (k : nat) (a : list nat) (g : list Z) : list nat * list Z :=
  match k with
  | O => ([], g)
  | S k' =>
      let '(z, g) := pop g in
      let i := Z.to_nat (z mod Z.of_nat (length a)) in
      match a !! i with
      | Some x =>
          let '(l, g) := pick k' (delete i a) g in (x :: l, g)
      | None => ([], g)
      end
  end.

Definition choice (a : list nat) (k : nat) (g : list Z) : result (list nat * list Z) :=
  if decide (k ≤ length a)%nat then Ok (pick k a g) else Raise ValueError.

Definition randint (low high : Z) (g : list Z) : result (Z * list Z) :=
  if (high <=? low)%Z then Raise ValueError
  else let '(z, g) := pop g in Ok ((low + z mod (high - low))%Z, g).

Fixpoint rvs_draws (n : nat) (low high : Z) (g : list Z) : list Z * list Z :=
  match n with
  | O => ([], g)
  | S n' =>
      let '(z, g) := pop g in
      let '(l, g) := rvs_draws n' low high g in
      ((low + z mod (high - low))%Z :: l, g)
  end.

Definition rvs (low high n : Z) (g : list Z) : result (list Z * list Z) :=
  if ((n <? 0) || (high <=? low))%Z then Raise ValueError
  else Ok (rvs_draws (Z.to_nat n) low high g).

Definition numpy : NumpyRandom := {|
  rng := list Z;
  random_seed := seed;
  random_multivariate_normal := multivariate_normal;
  random_normal := normal;
  random_random := random;
  random_choice := choice;
  random_randint := randint;
  randint_rvs := rvs
|}.

(** A monotone stand-in for [exp] ([1 / (1 - x)] below zero, [1 + x] from
    zero on) and the power with the exponent ignored. *)
Definition toy_exp (x : Q) : Q := if Qltb x 0 then 1 / (1 - x) else 1 + x.
Definition toy_pow (x s : Q) : Q := x.

Definition libm : Libm := {| math_exp := toy_exp; float_pow := toy_pow |}.

(** Two parameter records for one project over a planning window of 3
    periods: a budget that grows by 10 a period, and one that shrinks by
    10 a period. *)
Definition growing_budget : InstanceParameters (list Z) :=
  mkInstanceParameters 1 3 100 10 0.25 0.75 None None None 0 no_kwargs None.

Definition shrinking_budget : InstanceParameters (list Z) :=
  mkInstanceParameters 1 3 100 (-10) 0.25 0.75 None None None 0 no_kwargs None.
End Scripted.

(** ** Vocabulary of the statements *)

(** [s] is [t] with a residual rounded to the nearest integer: an integer
    within one half of [t], and [t] itself when [t] is an integer. *)
Definition rounded_total (t s : Q) : Prop :=
  (∃ z, s == inject_Z z) ∧ t - (1 # 2) <= s ∧ s <= t + (1 # 2) ∧
  (∀ z, t == inject_Z z → s == t).

Section Vocabulary.
Context {L : Libm} {R : NumpyRandom}.

(** The cost and value profiles of a project, as the generation loop
    leaves them. *)
Definition allocated (kwargs : Kwargs rng) (p : Project) : Prop :=
  (1 ≤ duration p)%Z ∧
  length (cost p) = Z.to_nat (duration p) ∧
  Qsum (cost p) == inject_Z (total_cost p) ∧
  length (value p) = Z.to_nat (duration p) ∧
  ∃ g1 total_value g2,
    random_cost_dur_value (total_cost p) (duration p) kwargs g1 = Ok (total_value, g2) ∧
    rounded_total total_value (Qsum (value p)).

(** A project as [create_random_projects] builds it at position [i]. *)
Definition fresh_project (kwargs : Kwargs rng) (i : nat) (p : Project) : Prop :=
  project_id p = (i + 1)%nat ∧ prerequisite_list p = [] ∧ successor_list p = [] ∧
  exclusion_list p = [] ∧ allocated kwargs p.
End Vocabulary.

(** A synergy whose value goes from 1 (included) to the total value of its
    group (excluded). *)
Definition value_in_range (ps : list Project) (s : Synergy.t) : Prop :=
  ∃ total, total_group_value ps (Synergy.project_ids s) = Ok total ∧
           (1 ≤ Synergy.value s)%Z ∧ inject_Z (Synergy.value s) < total.

(** The loop [for x in l] started in the state [s] with the generator in
    [g] begins the iteration of [x] in the state [s1] with the generator in
    [g1]. *)
Definition reaches {R : NumpyRandom} {S A : Type} (f : S → A → M S) (l : list A)
    (s : S) (g : rng) (x : A) (s1 : S) (g1 : rng) : Prop :=
  ∃ done rest, l = done ++ x :: rest ∧ for_eachM f done s g = Ok (s1, g1).

(** Relation lists, one per position of the array of projects: position
    [a] lists the project of position [b] when its list holds the id
    [b + 1]. *)
Definition related (lists : list (list nat)) (a b : nat) : Prop :=
  ∃ l, lists !! a = Some l ∧ (b + 1)%nat ∈ l.

(** The ordered pairs of members of a group at distinct places [i], [j]
    of [range(size)]. *)
Definition group_pairs (size : Z) (group : list nat) (x y : nat) : Prop :=
  ∃ i j, i ∈ range size ∧ j ∈ range size ∧ i ≠ j ∧
         group !! i = Some x ∧ group !! j = Some y.

(** The links of a prerequisite group: from the first member of the sorted
    group to the members at the places [1 .. size - 1]. *)
Definition group_links (size : Z) (group : list nat) (x y : nat) : Prop :=
  ∃ i, i ∈ range_from 1 size ∧
       merge_sort (≤)%nat group !! 0%nat = Some x ∧
       merge_sort (≤)%nat group !! i = Some y.

(** The common shape of a round of the exclusion and of the prerequisite
    pass, for the body [body] of its loop over the groups. *)
Definition round_of {R : NumpyRandom}
    (body : Z → list Project → list nat → result (list Project))
    (N : nat) (st : list nat * list Project) (directive : Z * Q)
    : M (list nat * list Project) :=
  bind (lift (num_groups_of directive.2 N directive.1)) (λ num_groups,
  bind (choice_groups st.1 num_groups directive.1) (λ groups,
  bind (lift (for_each (body directive.1) groups st.2)) (λ projects,
  ret (setdiff1d st.1 (concat groups), projects)))).

(** [r2] is [r1] whenever [r1] is a value: what more fuel may do to a
    result. *)
Definition extends {A : Type} (r1 r2 : result A) : Prop :=
  ∀ a, r1 = Ok a → r2 = Ok a.

(** What the constraint passes never change in a project. *)
Definition payload (p : Project) : nat * string * list Q * list Q * Z * Z :=
  (project_id p, project_name p, cost p, value p, duration p, total_cost p).

(** ** The rest of the code: weighted selection, serialisation *)

(** [np.random.choice(candidates, p=p)], the one sampling routine that
    [roulette_wheel_select] uses and the generation does not. *)
Class WeightedChoice (R : NumpyRandom) : Type := {
  random_choice_p : ∀ {A : Type}, list A → list Q → rng → result (A * rng)
}.

(** The contract of [np.random.choice] with probabilities: a draw succeeds
    only for one probability per candidate, none negative, that add up to 1,
    and gives a candidate whose probability is positive. *)
Class WeightedChoiceLaws (R : NumpyRandom) (W : WeightedChoice R) : Prop := {
  choice_p_ok : ∀ (A : Type) (a : list A) (p : list Q) (g g' : rng) (x : A),
    random_choice_p a p g = Ok (x, g') →
    length p = length a ∧ Forall (λ q, 0 <= q) p ∧ Qsum p == 1 ∧
    ∃ i q, a !! i = Some x ∧ p !! i = Some q ∧ 0 < q
}.

(** More contracts of numpy and scipy, for the value rule and the sampler:
    [random()] lies in [[0, 1)]; [randint(low, high).rvs(n)] gives [n]
    integers of [[low, high)]; [multivariate_normal(.., n)] gives [n] rows. *)
Class SamplingRanges (R : NumpyRandom) : Prop := {
  random_unit : ∀ g, 0 <= (random_random g).1 ∧ (random_random g).1 < 1;
  rvs_ok : ∀ low high n g l g',
    randint_rvs low high n g = Ok (l, g') →
    length l = Z.to_nat n ∧ Forall (λ x, (low ≤ x < high)%Z) l;
  multivariate_normal_ok : ∀ mean cov n g rows g',
    random_multivariate_normal mean cov n g = Ok (rows, g') →
    (0 ≤ n)%Z ∧ length rows = Z.to_nat n
}.

Section Roulette.
Context {L : Libm} {R : NumpyRandom} {W : WeightedChoice R}.

(** The probabilities [p] of [roulette_wheel_select].  numpy divides arrays
    without raising: for a zero sum it gives [nan] or [inf] where the
    division of [Q] gives 0; in both cases the probabilities do not add up
    to 1. *)
Definition roulette_probabilities (weights : list Q) (alpha : option Q) : list Q :=
  match alpha with
  | None => map (λ w, w / Qsum weights) weights
  | Some a =>
      let weight_scaled := map (λ w, float_pow w a) weights in
      map (λ w, w / Qsum weight_scaled) weight_scaled
  end.

Definition roulette_wheel_select {A : Type} (candidates : list A) (weights : list Q)
    (alpha : option Q) : M A :=
  let p := roulette_probabilities weights alpha in
  random_choice_p candidates p.
End Roulette.

(** JSON-compatible values: what [to_json_dict] builds.  A [dict] is the
    list of its items in insertion order. *)
#[warnings="-register-all"]
Inductive json : Type :=
  | JInt (z : Z)
  | JFloat (q : Q)
  | JStr (s : string)
  | JList (l : list json)
  | JDict (d : list (string * json)).

(** [d[k] = v]: a new key goes to the end, an old key keeps its place. *)
Definition dict_set (d : list (string * json)) (k : string) (v : json)
    : list (string * json) :=
  if decide (k ∈ d.*1)
  then map (λ kv : string * json, if decide (kv.1 = k) then (k, v) else kv) d
  else d ++ [(k, v)].

(** [ndarray.tolist()] of an array of integers and of an array of floats. *)
Definition int_tolist (a : list nat) : json := JList (map (λ x, JInt (Z.of_nat x)) a).
Definition float_tolist (a : list Q) : json := JList (map JFloat a).

(** [Project.to_json_dict] *)
Definition project_to_json_dict (p : Project) : json :=
  let output := [] in
  let output := dict_set output "id" (JInt (Z.of_nat (project_id p))) in
  let output := dict_set output "name" (JStr (project_name p)) in
  let output := dict_set output "duration" (JInt (duration p)) in
  let output := dict_set output "prerequisites" (int_tolist (prerequisite_list p)) in
  let output := dict_set output "successors" (int_tolist (successor_list p)) in
  let output := dict_set output "mutual_exclusions" (int_tolist (exclusion_list p)) in
  let output := dict_set output "cost" (float_tolist (cost p)) in
  let output := dict_set output "value" (float_tolist (value p)) in
  JDict output.

(** [Synergy.to_json_dict] *)
Definition synergy_to_json_dict (s : Synergy.t) : json :=
  let output := [] in
  let output := dict_set output "value" (JInt (Synergy.value s)) in
  let output := dict_set output "project_ids" (int_tolist (Synergy.project_ids s)) in
  JDict output.

(** [ProjectProblemInstance.to_json_dict] *)
Definition instance_to_json_dict {state : Type} (inst : ProjectProblemInstance state) : json :=
  let output := [] in
  let output := dict_set output "problem_name" (JStr (identifier inst)) in
  let output := dict_set output "periods" (JInt (instance_planning_window inst)) in
  let output := dict_set output "budget" (float_tolist (budget inst)) in
  let output := dict_set output "initiation_budget" (float_tolist (initiation_budget inst)) in
  let output := dict_set output "maintenance_budget" (float_tolist (ongoing_budget inst)) in
  let output := dict_set output "synergies"
                  (JList (map synergy_to_json_dict (synergies inst))) in
  let output := dict_set output "projects"
                  (JList (map project_to_json_dict (projects inst))) in
  JDict output.

(** The members a pass needs for its directives: [num_groups * size] for
    each of them. *)
Definition members_needed (num_projects : nat) (group_sizes : directives) : nat :=
  sum_list (map (λ d : Z * Q,
                   (Z.to_nat (Qtrunc (d.2 * inject_Z (Z.of_nat num_projects) / inject_Z d.1))
                    * Z.to_nat d.1)%nat)
                group_sizes).

(** The synergy groups asked for: [num_groups] for each directive. *)
Definition synergies_asked (num_projects : nat) (group_sizes : directives) : nat :=
  sum_list (map (λ d : Z * Q,
                   Z.to_nat (Qtrunc (d.2 * inject_Z (Z.of_nat num_projects) / inject_Z d.1)))
                group_sizes).

(** A scripted weighted choice: the probabilities are checked as numpy
    checks them, and the tape picks among the candidates of positive
    probability. *)
Module ScriptedChoice.
Definition positive_positions (p : list Q) : list nat :=
  List.filter (λ i, match p !! i with Some q => Qltb 0 q | None => false end)
              (seq 0 (length p)).

Definition choice_p {A : Type} (a : list A) (p : list Q) (g : list Z)
    : result (A * list Z) :=
  if negb (length p =? length a)%nat then Raise ValueError
  else if negb (forallb (λ q, Qle_bool 0 q) p) then Raise ValueError
  else if negb (Qeq_bool (Qsum p) 1) then Raise ValueError
  else
    let '(z, g) := Scripted.pop g in
    let pos := positive_positions p in
    match pos !! Z.to_nat (z mod Z.of_nat (length pos)) with
    | Some i =>
        match a !! i with
        | Some x => Ok (x, g)
        | None => Raise ValueError
        end
    | None => Raise ValueError
    end.

Definition weighted : WeightedChoice Scripted.numpy :=
  Build_WeightedChoice Scripted.numpy (λ A a p g, choice_p a p g).
End ScriptedChoice.

(** Every entry of the three relation lists of a project is at least 1,
    the smallest id. *)
Definition ids_from_one (p : Project) : Prop :=
  Forall (λ id, (1 ≤ id)%nat) (prerequisite_list p ++ successor_list p ++ exclusion_list p).

(** The scripted generator with a longer tape: a seed gives its digits four
    times over.  The draws are those of [Scripted]. *)
Module Replayed.
Definition seed (s : Z) : result (list Z) :=
  try t <- Scripted.seed s; Ok (t ++ t ++ t ++ t).

Definition numpy : NumpyRandom := {|
  rng := list Z;
  random_seed := seed;
  random_multivariate_normal := Scripted.multivariate_normal;
  random_normal := Scripted.normal;
  random_random := Scripted.random;
  random_choice := Scripted.choice;
  random_randint := Scripted.randint;
  randint_rvs := Scripted.rvs
|}.
End Replayed.

(** Relation lists that grew: every position [x] of [lists'] is the list
    of [lists] at [x] followed by [add x]. *)
Definition grown (lists lists' : list (list nat)) (add : nat → list nat) : Prop :=
  ∀ x, lists' !! x = (λ l, l ++ add x) <$> lists !! x.

(** The ids of the members of a group other than the one at position [x],
    in the order of the group. *)
Definition other_ids (group : list nat) (x : nat) : list nat :=
  map (λ y, (y + 1)%nat) (filter (λ y, y ≠ x) group).

(** What a group of the exclusion pass appends to the exclusion list of the
    project at position [x]: for a member, the ids of the other members. *)
Definition exclusions_added (group : list nat) (x : nat) : list nat :=
  if decide (x ∈ group) then other_ids group x else [].

(** What a group of the prerequisite pass appends to the successor list and
    to the prerequisite list of the project at position [x]: for the first
    member of the sorted group, the ids of the members after it; for each of
    these, the id of the first. *)
Definition successors_added (group : list nat) (x : nat) : list nat :=
  match merge_sort (≤)%nat group with
  | m :: rest => if decide (x = m) then map (λ y, (y + 1)%nat) rest else []
  | [] => []
  end.

Definition prerequisites_added (group : list nat) (x : nat) : list nat :=
  match merge_sort (≤)%nat group with
  | m :: rest => if decide (x ∈ rest) then [(m + 1)%nat] else []
  | [] => []
  end.

(** One more contract of numpy: [choice(a, size=k, replace=False)] returns
    when the population has at least [k] elements. *)
Class ChoiceReturns (R : NumpyRandom) : Prop := {
  choice_returns : ∀ a k g, (k ≤ length a)%nat →
    ∃ l g', random_choice a k g = Ok (l, g')
}.

(** * Properties *)

(** Rational arithmetic stays folded under [simpl]. *)
#[local] Arguments Qfloor : simpl never.
#[local] Arguments Qceiling : simpl never.
#[local] Arguments Qplus : simpl never.
#[local] Arguments Qminus : simpl never.
#[local] Arguments Qmult : simpl never.
#[local] Arguments Qdiv : simpl never.
#[local] Arguments Qopp : simpl never.
#[local] Arguments inject_Z : simpl never.

(** ** Numbers *)

Lemma Qltb_lt (x y : Q) : Qltb x y = true ↔ x < y.
Proof.
  unfold Qltb. rewrite negb_true_iff, <- not_true_iff_false, Qle_bool_iff.
  split; [apply Qnot_le_lt | apply Qlt_not_le].
Qed.

Lemma Qltb_ge (x y : Q) : Qltb x y = false ↔ y <= x.
Proof.
  unfold Qltb. rewrite negb_false_iff, Qle_bool_iff. reflexivity.
Qed.

Lemma Qltb_spec (x y : Q) : reflect (x < y) (Qltb x y).
Proof.
  destruct (Qltb x y) eqn:E; constructor.
  - by apply Qltb_lt.
  - apply Qltb_ge in E. by apply Qle_not_lt.
Qed.

Lemma pymax_lower (x y : Q) : y <= pymax x y.
Proof.
  unfold pymax. destruct (Qltb_spec x y) as [H|H]; [lra|].
  apply Qnot_lt_le in H. lra.
Qed.

(** [rint] is within one half of its argument. *)
Lemma rint_near (x : Q) : x - (1 # 2) <= inject_Z (rint x) ∧ inject_Z (rint x) <= x + (1 # 2).
Proof.
  unfold rint.
  pose proof (Qfloor_le x) as Hlo. pose proof (Qlt_floor x) as Hhi.
  rewrite inject_Z_plus in Hhi. change (inject_Z 1) with 1 in Hhi.
  destruct (Qltb_spec (x - inject_Z (Qfloor x)) (1 # 2)) as [H1|H1].
  { split; lra. }
  apply Qnot_lt_le in H1.
  destruct (Qltb_spec (1 # 2) (x - inject_Z (Qfloor x))) as [H2|H2].
  { rewrite inject_Z_plus. change (inject_Z 1) with 1. split; lra. }
  apply Qnot_lt_le in H2.
  destruct (Z.even (Qfloor x)).
  - split; lra.
  - rewrite inject_Z_plus. change (inject_Z 1) with 1. split; lra.
Qed.

(** [rint] leaves an integer as it is. *)
Lemma rint_inject_Z (z : Z) : rint (inject_Z z) = z.
Proof.
  unfold rint. rewrite Qfloor_Z.
  destruct (Qltb_spec (inject_Z z - inject_Z z) (1 # 2)) as [H|H]; [done|].
  exfalso. apply H. lra.
Qed.

Lemma rint_comp (x y : Q) : x == y → rint x = rint y.
Proof.
  intros E. unfold rint. rewrite (Qfloor_comp _ _ E).
  assert (Hb : ∀ a b c d, a == b → c == d → Qltb a c = Qltb b d).
  { intros a b c d E1 E2. unfold Qltb. by rewrite E1, E2. }
  rewrite (Hb (x - inject_Z (Qfloor y)) (y - inject_Z (Qfloor y)) (1 # 2) (1 # 2))
    by (rewrite ?E; reflexivity).
  rewrite (Hb (1 # 2) (1 # 2) (x - inject_Z (Qfloor y)) (y - inject_Z (Qfloor y)))
    by (rewrite ?E; reflexivity).
  reflexivity.
Qed.

Lemma Qsum_replicate_0 (n : nat) : Qsum (replicate n 0) == 0.
Proof. induction n as [|n IH]; simpl; [lra|]. rewrite IH. lra. Qed.

(** Overwriting one entry changes the sum by the difference. *)
Lemma Qsum_insert (l : list Q) (i : nat) (old v : Q) :
  l !! i = Some old → Qsum (<[i := v]> l) == Qsum l - old + v.
Proof.
  revert i. induction l as [|x l IH]; intros [|i] H; simpl in *; try done.
  - injection H as ->. lra.
  - rewrite (IH _ H). lra.
Qed.

(** ** Results, the sampling monad and loops *)

Lemma result_bind_Ok {A B : Type} (m : result A) (k : A → result B) (b : B) :
  result_bind m k = Ok b ↔ ∃ a, m = Ok a ∧ k a = Ok b.
Proof.
  destruct m as [a| |]; simpl; split.
  - intros H. by exists a.
  - by intros (a' & [= <-] & H).
  - done.
  - by intros (a' & [=] & _).
  - done.
  - by intros (a' & [=] & _).
Qed.

Section MonadFacts.
Context {R : NumpyRandom}.

Lemma bind_Ok {A B : Type} (m : M A) (k : A → M B) (g g' : rng) (b : B) :
  bind m k g = Ok (b, g') ↔ ∃ a g1, m g = Ok (a, g1) ∧ k a g1 = Ok (b, g').
Proof.
  unfold bind. destruct (m g) as [[a g1]| |]; split.
  - intros H. by exists a, g1.
  - by intros (a' & g1' & [= <- <-] & H).
  - done.
  - by intros (a' & g1' & [=] & _).
  - done.
  - by intros (a' & g1' & [=] & _).
Qed.

Lemma lift_Ok {A : Type} (r : result A) (g g' : rng) (a : A) :
  lift r g = Ok (a, g') ↔ r = Ok a ∧ g' = g.
Proof.
  destruct r; simpl; split; try done.
  - by intros [= <- <-].
  - by intros [[= <-] ->].
  - by intros [[=] _].
  - by intros [[=] _].
Qed.

Lemma ret_Ok {A : Type} (a a' : A) (g g' : rng) :
  ret a g = Ok (a', g') ↔ a' = a ∧ g' = g.
Proof.
  unfold ret. split; [by intros [= <- <-] | by intros [-> ->]].
Qed.

(** The invariant rule of a sampling [for] loop: the invariant speaks of
    the part of the list already processed. *)
Lemma for_eachM_inv {S A : Type} (I : list A → S → Prop) (f : S → A → M S)
    (l : list A) (s0 : S) (g0 : rng) :
  I [] s0 →
  (∀ done x rest s s' g g', l = done ++ x :: rest → I done s →
     f s x g = Ok (s', g') → I (done ++ [x]) s') →
  ∀ s' g', for_eachM f l s0 g0 = Ok (s', g') → I l s'.
Proof.
  intros H0 Hstep.
  assert (G : ∀ rest done s g, l = done ++ rest → I done s →
            ∀ s' g', for_eachM f rest s g = Ok (s', g') → I l s').
  { induction rest as [|x rest IH]; intros done s g El Hs s' g' Hrun.
    - apply ret_Ok in Hrun as [-> _]. rewrite app_nil_r in El. by subst.
    - simpl in Hrun. apply bind_Ok in Hrun as (s1 & g1 & Hf & Hrun).
      eapply (IH (done ++ [x]) s1 g1); [by rewrite <- app_assoc| |exact Hrun].
      eapply Hstep; eauto. }
  intros s' g' Hrun. by eapply (G l [] s0 g0).
Qed.
End MonadFacts.

(** The invariant rule of a [for] loop, for the runs that complete. *)
Lemma for_each_inv {S A : Type} (I : list A → S → Prop) (f : S → A → result S)
    (l : list A) (s0 : S) :
  I [] s0 →
  (∀ done x rest s s', l = done ++ x :: rest → I done s →
     f s x = Ok s' → I (done ++ [x]) s') →
  ∀ s', for_each f l s0 = Ok s' → I l s'.
Proof.
  intros H0 Hstep.
  assert (G : ∀ rest done s, l = done ++ rest → I done s →
            ∀ s', for_each f rest s = Ok s' → I l s').
  { induction rest as [|x rest IH]; intros done s El Hs s' Hrun.
    - injection Hrun as <-. rewrite app_nil_r in El. by subst.
    - simpl in Hrun. apply result_bind_Ok in Hrun as (s1 & Hf & Hrun).
      apply (IH (done ++ [x]) s1); [by rewrite <- app_assoc| |done].
      eapply Hstep; eauto. }
  intros s'. by apply (G l [] s0).
Qed.

(** The same rule when every iteration is shown to succeed: the loop then
    completes. *)
Lemma for_each_total {S A : Type} (I : list A → S → Prop) (f : S → A → result S)
    (l : list A) (s0 : S) :
  I [] s0 →
  (∀ done x rest s, l = done ++ x :: rest → I done s →
     ∃ s', f s x = Ok s' ∧ I (done ++ [x]) s') →
  ∃ s', for_each f l s0 = Ok s' ∧ I l s'.
Proof.
  intros H0 Hstep.
  assert (G : ∀ rest done s, l = done ++ rest → I done s →
            ∃ s', for_each f rest s = Ok s' ∧ I l s').
  { induction rest as [|x rest IH]; intros done s El Hs.
    - exists s. rewrite app_nil_r in El. by subst.
    - destruct (Hstep done x rest s El Hs) as (s1 & Hf & Hs1).
      simpl. rewrite Hf. simpl.
      apply (IH (done ++ [x]) s1); [by rewrite <- app_assoc|done]. }
  by apply (G l [] s0).
Qed.

Lemma setitem_nat {A : Type} (a : list A) (i : nat) (v : A) :
  (i < length a)%nat → setitem a (Z.of_nat i) v = Ok (<[i := v]> a).
Proof.
  intros Hi. unfold setitem.
  replace ((0 <=? Z.of_nat i)%Z && (Z.of_nat i <? Z.of_nat (length a))%Z) with true.
  - by rewrite Nat2Z.id.
  - symmetry. apply andb_true_iff. split; [apply Z.leb_le | apply Z.ltb_lt]; lia.
Qed.

(** An assignment [a[i] = v] that succeeds leaves the length as it is, and
    the array was not empty. *)
Lemma setitem_Ok_length {A : Type} (a a' : list A) (i : Z) (v : A) :
  setitem a i v = Ok a' → length a' = length a ∧ (0 < length a)%nat.
Proof.
  unfold setitem. intros H.
  destruct ((0 <=? i)%Z && (i <? Z.of_nat (length a))%Z) eqn:E1.
  - injection H as <-. rewrite length_insert. split; [done|].
    apply andb_true_iff in E1 as [E1 E2].
    apply Z.leb_le in E1. apply Z.ltb_lt in E2. lia.
  - destruct ((- Z.of_nat (length a) <=? i)%Z && (i <? 0)%Z) eqn:E2; [|done].
    injection H as <-. rewrite length_insert. split; [done|].
    apply andb_true_iff in E2 as [E2 E3].
    apply Z.leb_le in E2. apply Z.ltb_lt in E3. lia.
Qed.

Lemma seq_split_position (n : nat) (done rest : list nat) (x : nat) :
  seq 0 n = done ++ x :: rest → x = length done ∧ (x < n)%nat.
Proof.
  intros E.
  assert (H : seq 0 n !! length done = Some x).
  { rewrite E. by rewrite list_lookup_middle. }
  apply lookup_seq in H. lia.
Qed.

(** ** datagen.py: the temporal allocation *)

Section WeibullEstimate.
Context {L : Libm} {LL : LibmLaws L}.

Lemma Qdiv_le_compat_r (a b c : Q) : 0 < c → a <= b → a / c <= b / c.
Proof.
  intros Hc Hab. unfold Qdiv. apply Qmult_le_compat_r; [done|].
  apply Qlt_le_weak. by apply Qinv_lt_0_compat.
Qed.

Lemma Qdiv_pos (a c : Q) : 0 < c → 0 < a → 0 < a / c.
Proof.
  intros Hc Ha. apply Qlt_shift_div_l; [done|]. lra.
Qed.

(** The exponent of the numerator is positive and grows with the
    completion fraction. *)
Lemma weibull_exponent (f1 f2 shape scale : Q) :
  0 < shape → 0 < scale → 0 < f1 → f1 <= f2 →
  0 < float_pow (f1 / scale) shape ∧
  float_pow (f1 / scale) shape <= float_pow (f2 / scale) shape.
Proof.
  intros Hsh Hsc Hf1 Hf.
  pose proof (Qdiv_pos f1 scale Hsc Hf1) as H1.
  split; [by apply pow_pos|].
  apply pow_mono; [lra| |done]. by apply Qdiv_le_compat_r.
Qed.

Lemma weibull_denominator (shape scale : Q) :
  0 < shape → 0 < scale → 0 < 1 - math_exp (- float_pow (1 / scale) shape).
Proof.
  intros Hsh Hsc.
  destruct (weibull_exponent 1 1 shape scale) as [H _]; [done|done|lra|lra|].
  pose proof (exp_neg (- float_pow (1 / scale) shape)) as E.
  lra.
Qed.

(** Within [(0, 1)] the estimate is the quotient of the source. *)
Lemma weibull_estimate_inside (f shape scale : Q) :
  0 < shape → 0 < scale → 0 < f → f < 1 →
  _weibull_estimate f shape scale =
    Ok ((1 - math_exp (- float_pow (f / scale) shape))
        / (1 - math_exp (- float_pow (1 / scale) shape))).
Proof.
  intros Hsh Hsc Hf0 Hf1. unfold _weibull_estimate.
  destruct (Qltb_spec f 0) as [H|_]; [lra|].
  destruct (Qle_bool 1 f) eqn:E; [apply Qle_bool_iff in E; lra|].
  destruct (Qeq_bool scale 0) eqn:E0; [apply Qeq_bool_iff in E0; lra|].
  pose proof (weibull_denominator shape scale Hsh Hsc) as Hd.
  destruct (Qeq_bool (1 - math_exp (- float_pow (1 / scale) shape)) 0) eqn:E1;
    [apply Qeq_bool_iff in E1; lra|].
  reflexivity.
Qed.

Lemma weibull_estimate_from_one (f shape scale : Q) :
  1 <= f → _weibull_estimate f shape scale = Ok 1.
Proof.
  intros Hf. unfold _weibull_estimate.
  destruct (Qltb_spec f 0) as [H|_]; [lra|].
  apply Qle_bool_iff in Hf. by rewrite Hf.
Qed.

(** For a positive shape and scale the estimate of a positive fraction
    exists and lies in [[0, 1]]. *)
Lemma weibull_estimate_bounds (f shape scale : Q) :
  0 < shape → 0 < scale → 0 < f →
  ∃ v, _weibull_estimate f shape scale = Ok v ∧ 0 <= v ∧ v <= 1.
Proof.
  intros Hsh Hsc Hf.
  destruct (Qlt_le_dec f 1) as [Hf1|Hf1].
  - rewrite weibull_estimate_inside by done. eexists. split; [done|].
    pose proof (weibull_denominator shape scale Hsh Hsc) as Hd.
    destruct (weibull_exponent f 1 shape scale) as [Ha Hab]; [done|done|done|lra|].
    pose proof (exp_neg (- float_pow (f / scale) shape)) as E1.
    pose proof (exp_mono (- float_pow (1 / scale) shape)
                         (- float_pow (f / scale) shape)) as E2.
    split.
    + apply Qle_shift_div_l; [done|]. lra.
    + apply Qle_shift_div_r; [done|]. lra.
  - rewrite weibull_estimate_from_one by done. exists 1. split; [done|]. lra.
Qed.

(** The estimate grows with the completion fraction. *)
Lemma weibull_estimate_mono (f1 f2 shape scale v1 v2 : Q) :
  0 < shape → 0 < scale → 0 < f1 → f1 <= f2 →
  _weibull_estimate f1 shape scale = Ok v1 →
  _weibull_estimate f2 shape scale = Ok v2 →
  v1 <= v2.
Proof.
  intros Hsh Hsc Hf1 Hf E1 E2.
  destruct (Qlt_le_dec f2 1) as [Hf2|Hf2].
  - rewrite weibull_estimate_inside in E1 by (done || lra).
    rewrite weibull_estimate_inside in E2 by (done || lra).
    injection E1 as <-. injection E2 as <-.
    apply Qdiv_le_compat_r; [by apply weibull_denominator|].
    destruct (weibull_exponent f1 f2 shape scale) as [_ Hab]; [done..|].
    pose proof (exp_mono (- float_pow (f2 / scale) shape)
                         (- float_pow (f1 / scale) shape)) as E.
    lra.
  - rewrite weibull_estimate_from_one in E2 by done. injection E2 as <-.
    destruct (weibull_estimate_bounds f1 shape scale) as (v & Ev & _ & Hv); [done..|].
    rewrite E1 in Ev. by injection Ev as ->.
Qed.
End WeibullEstimate.

Section Allocation.
Context {L : Libm} {R : NumpyRandom}.

Lemma bind_run {A B : Type} (m : M A) (k : A → M B) (g g1 : rng) (a : A) :
  m g = Ok (a, g1) → bind m k g = k a g1.
Proof. unfold bind. by intros ->. Qed.

(** The resampling loop ends as soon as a draw reaches 0.01. *)
Lemma redraw_shape_ends (fuel : nat) (shape std_shape x : Q) (g : rng) :
  (0.01 <= x ∨ ∃ n, (n < fuel)%nat ∧ 0.01 <= shape_draw n shape std_shape g) →
  ∃ x' g', redraw_shape fuel shape std_shape x g = Ok (x', g') ∧ 0.01 <= x'.
Proof.
  revert x g. induction fuel as [|fuel IH]; intros x g H.
  - destruct H as [H|(n & Hn & _)]; [|lia].
    exists x, g. simpl. destruct (Qltb_spec x 0.01) as [H'|_]; [lra|done].
  - simpl. destruct (Qltb_spec x 0.01) as [Hx|Hx].
    + destruct H as [H|(n & Hn & Hd)]; [lra|].
      unfold bind, draw.
      destruct (random_normal shape std_shape g) as [x1 g1] eqn:E.
      apply IH. destruct n as [|n]; simpl in Hd; rewrite E in Hd; simpl in Hd.
      * by left.
      * right. exists n. split; [lia|done].
    + exists x, g. split; [done|]. by apply Qnot_lt_le.
Qed.

(** What the period loop keeps, whatever the library functions are: every
    entry is an integer, the periods not yet reached hold zero and the
    periods filled add up to the cumulative cost. *)
Lemma weibull_loop_sum (T : Q) (D : Z) (sh sc : Q) (n m : nat)
    (costs : list Q) (cum : Z) (prev : Q) :
  (n ≤ m)%nat →
  for_each (weibull_period T D sh sc) (seq 0 n) (replicate m 0, 0%Z, 0)
    = Ok (costs, cum, prev) →
  length costs = m ∧ (∀ j, (n ≤ j < m)%nat → costs !! j = Some 0) ∧
  Forall (λ c, ∃ z, c = inject_Z z) costs ∧
  Qsum costs == inject_Z cum.
Proof.
  intros Hnm Hrun.
  pose (I := λ (done : list nat) (st : list Q * Z * Q),
          length st.1.1 = m ∧
          (∀ j, (length done ≤ j < m)%nat → st.1.1 !! j = Some 0) ∧
          Forall (λ c, ∃ z, c = inject_Z z) st.1.1 ∧
          Qsum st.1.1 == inject_Z st.1.2).
  assert (HI : I (seq 0 n) (costs, cum, prev)).
  { eapply for_each_inv; [| |exact Hrun].
    - unfold I; simpl. split; [by rewrite length_replicate|]. split.
      + intros j Hj. apply lookup_replicate. split; [done|lia].
      + split; [|apply Qsum_replicate_0].
        apply Forall_replicate. by exists 0%Z.
    - intros done x rest [[c k] p] [[c' k'] p'] El (Hlen & Hzero & Hint & Hsum) Hstep.
      simpl in *. apply seq_split_position in El as [-> Hx].
      destruct (_weibull_estimate _ sh sc) as [sample| |]; [|done..].
      simpl in Hstep.
      rewrite setitem_nat in Hstep by lia. simpl in Hstep.
      injection Hstep as <- <- <-. unfold I; simpl.
      rewrite length_insert, length_app. simpl.
      split; [done|]. split; [|split].
      + intros j Hj. rewrite list_lookup_insert_ne by lia. apply Hzero. lia.
      + apply Forall_insert; [done|]. by eexists.
      + rewrite (Qsum_insert c (length done) 0) by (apply Hzero; lia).
        rewrite Hsum, inject_Z_plus. lra. }
  destruct HI as (H1 & H2 & H3 & H4). simpl in *.
  rewrite length_seq in H2. done.
Qed.

(** The array a completed call returns: integer shares (with zero in the
    last place) that add up to [cum], and the residual [T - cum] written
    over the last place. *)
Lemma fuzzy_weibull_cost_distribution_shape (fuel : nat) (T : Q) (D : Z)
    (shape scale std_shape std_scale : Q) (g g' : rng) (costs : list Q) :
  fuzzy_weibull_cost_distribution fuel T D shape scale std_shape std_scale g
    = Ok (costs, g') →
  (1 ≤ D)%Z ∧
  ∃ (c : list Q) (cum : Z),
    costs = <[(Z.to_nat D - 1)%nat := T - inject_Z cum]> c ∧
    length c = Z.to_nat D ∧ c !! (Z.to_nat D - 1)%nat = Some 0 ∧
    Forall (λ x, ∃ z, x = inject_Z z) c ∧ Qsum c == inject_Z cum.
Proof.
  unfold fuzzy_weibull_cost_distribution. intros H.
  apply bind_Ok in H as (x0 & g1 & _ & H).
  apply bind_Ok in H as (sh & g2 & _ & H).
  apply bind_Ok in H as (s & g3 & _ & H).
  apply bind_Ok in H as (zeros & g4 & Hz & H).
  apply bind_Ok in H as ([[c cum] prev] & g5 & Hloop & H).
  apply bind_Ok in H as (c' & g6 & Hset & H).
  apply ret_Ok in H as [-> _].
  apply lift_Ok in Hz as [Hz _]. apply lift_Ok in Hloop as [Hloop _].
  apply lift_Ok in Hset as [Hset _].
  unfold np_zeros in Hz. destruct (D <? 0)%Z eqn:ED; [done|].
  apply Z.ltb_ge in ED. injection Hz as <-.
  unfold range in Hloop.
  apply weibull_loop_sum in Hloop as (Hlen & Hzero & Hint & Hsum); [|lia].
  pose proof (setitem_Ok_length _ _ _ _ Hset) as [Hlen' Hpos].
  assert (HD : (1 ≤ D)%Z) by lia.
  split; [done|]. exists c, cum.
  replace (D - 1)%Z with (Z.of_nat (Z.to_nat D - 1)) in Hset by lia.
  rewrite setitem_nat in Hset by lia. injection Hset as <-.
  split; [done|]. split; [done|]. split; [apply Hzero; lia|]. done.
Qed.

(** A completed call returns one entry per period, and the entries add up
    to the total, for any total and any library functions. *)
Lemma fuzzy_weibull_cost_distribution_Ok (fuel : nat) (T : Q) (D : Z)
    (shape scale std_shape std_scale : Q) (g g' : rng) (costs : list Q) :
  fuzzy_weibull_cost_distribution fuel T D shape scale std_shape std_scale g
    = Ok (costs, g') →
  (1 ≤ D)%Z ∧ length costs = Z.to_nat D ∧ Qsum costs == T.
Proof.
  intros H.
  apply fuzzy_weibull_cost_distribution_shape in H
    as (HD & c & cum & -> & Hlen & Hlast & _ & Hsum).
  split; [done|]. rewrite length_insert. split; [done|].
  rewrite (Qsum_insert c _ 0) by done. rewrite Hsum. lra.
Qed.

(** Rounding an array of integers changes nothing in its sum. *)
Lemma Qsum_round_integers (c : list Q) :
  Forall (λ x, ∃ z, x = inject_Z z) c →
  Qsum (map (λ v, inject_Z (rint v)) c) == Qsum c.
Proof.
  induction 1 as [|x c [z ->] _ IH]; simpl; [reflexivity|].
  rewrite rint_inject_Z, IH. reflexivity.
Qed.

(** The rounded array [value.round()] of a completed call: its sum is the
    cumulative integer part plus the rounded residual. *)
Lemma rounded_distribution_sum (fuel : nat) (T : Q) (D : Z)
    (shape scale std_shape std_scale : Q) (g g' : rng) (costs : list Q) :
  fuzzy_weibull_cost_distribution fuel T D shape scale std_shape std_scale g
    = Ok (costs, g') →
  ∃ cum : Z, Qsum (map (λ v, inject_Z (rint v)) costs)
             == inject_Z cum + inject_Z (rint (T - inject_Z cum)).
Proof.
  intros H.
  apply fuzzy_weibull_cost_distribution_shape in H
    as (HD & c & cum & -> & Hlen & Hlast & Hint & Hsum).
  exists cum. rewrite list_fmap_insert.
  rewrite (Qsum_insert _ _ (inject_Z (rint 0))).
  - rewrite Qsum_round_integers by done. rewrite Hsum.
    change (rint 0) with 0%Z. change (inject_Z 0) with 0. lra.
  - rewrite list_lookup_fmap, Hlast. reflexivity.
Qed.
End Allocation.

Section AllocationNonNegative.
Context {L : Libm} {LL : LibmLaws L} {R : NumpyRandom}.

Lemma fraction_pos (t : nat) (D : Z) : (1 ≤ D)%Z → 0 < inject_Z (Z.of_nat t + 1) / inject_Z D.
Proof.
  intros HD. apply Qdiv_pos.
  - change 0 with (inject_Z 0). rewrite <- Zlt_Qlt. lia.
  - change 0 with (inject_Z 0). rewrite <- Zlt_Qlt. lia.
Qed.

Lemma fraction_mono (t t' : nat) (D : Z) :
  (1 ≤ D)%Z → (t ≤ t')%nat →
  inject_Z (Z.of_nat t + 1) / inject_Z D <= inject_Z (Z.of_nat t' + 1) / inject_Z D.
Proof.
  intros HD Ht. apply Qdiv_le_compat_r.
  - change 0 with (inject_Z 0). rewrite <- Zlt_Qlt. lia.
  - rewrite <- Zle_Qle. lia.
Qed.

(** With a monotone [libm] every period of the loop succeeds and gets a
    non-negative share, and the shares handed out never exceed the total. *)
Lemma weibull_loop_nonneg (T : Q) (D : Z) (sh sc : Q) (n m : nat) :
  0 <= T → (1 ≤ D)%Z → 0 < sh → 0 < sc → (n ≤ m)%nat →
  ∃ costs cum prev,
    for_each (weibull_period T D sh sc) (seq 0 n) (replicate m 0, 0%Z, 0)
      = Ok (costs, cum, prev) ∧
    Forall (λ c, 0 <= c) costs ∧ inject_Z cum <= T.
Proof.
  intros HT HD Hsh Hsc Hnm.
  pose (I := λ (done : list nat) (st : list Q * Z * Q),
          length st.1.1 = m ∧ Forall (λ c, 0 <= c) st.1.1 ∧
          inject_Z st.1.2 <= st.2 * T ∧ 0 <= st.2 ∧ st.2 <= 1 ∧
          ∀ t v, (length done ≤ t)%nat →
                 _weibull_estimate (inject_Z (Z.of_nat t + 1) / inject_Z D) sh sc = Ok v →
                 st.2 <= v).
  destruct (for_each_total I (weibull_period T D sh sc) (seq 0 n) (replicate m 0, 0%Z, 0))
    as ([[costs cum] prev] & Hrun & HI).
  - unfold I; simpl. split; [by rewrite length_replicate|].
    split; [apply Forall_replicate; lra|].
    split; [change (inject_Z 0) with 0; lra|]. split; [lra|]. split; [lra|].
    intros t v _ Hv.
    destruct (weibull_estimate_bounds (inject_Z (Z.of_nat t + 1) / inject_Z D) sh sc)
      as (v' & Hv' & Hlo & _); [done|done|by apply fraction_pos|].
    rewrite Hv in Hv'. by injection Hv' as ->.
  - intros done x rest [[c k] p] El (Hlen & Hnn & Hcum & Hp0 & Hp1 & Hnext).
    simpl in *. apply seq_split_position in El as [-> Hx].
    destruct (weibull_estimate_bounds
                (inject_Z (Z.of_nat (length done) + 1) / inject_Z D) sh sc)
      as (sample & Hs & Hs0 & Hs1); [done|done|by apply fraction_pos|].
    pose proof (Hnext _ _ (Nat.le_refl _) Hs) as Hps.
    rewrite Hs. simpl. rewrite setitem_nat by lia. simpl.
    eexists. split; [done|]. unfold I; simpl.
    assert (H0 : 0 <= (sample - p) * T) by (apply Qmult_le_0_compat; lra).
    assert (Hc : (0 ≤ Qfloor ((sample - p) * T))%Z).
    { change 0%Z with (Qfloor 0). by apply Qfloor_resp_le. }
    pose proof (Qfloor_le ((sample - p) * T)) as Hfl.
    rewrite length_insert, length_app. simpl.
    split; [done|]. split.
    { apply Forall_insert; [done|]. change 0 with (inject_Z 0).
      by rewrite <- Zle_Qle. }
    split; [rewrite inject_Z_plus; lra|].
    split; [done|]. split; [done|].
    intros t v Ht Hv.
    eapply (weibull_estimate_mono _ _ sh sc sample v); [done|done| | |exact Hs|exact Hv].
    + by apply fraction_pos.
    + apply fraction_mono; [done|lia].
  - exists costs, cum, prev. split; [done|].
    destruct HI as (_ & Hnn & Hcum & Hp0 & Hp1 & _). simpl in *.
    split; [done|].
    assert (prev * T <= 1 * T) by (apply Qmult_le_compat_r; lra). lra.
Qed.

End AllocationNonNegative.

(** ** The scripted generator and the toy [libm] obey the contracts *)

Lemma toy_libm_laws : LibmLaws Scripted.libm.
Proof.
  split; simpl; unfold Scripted.toy_exp, Scripted.toy_pow.
  - intros x y Hxy.
    destruct (Qltb_spec x 0) as [Hx|Hx]; destruct (Qltb_spec y 0) as [Hy|Hy].
    + apply Qle_shift_div_l; [lra|].
      assert (E : 1 / (1 - x) * (1 - y) == (1 - y) / (1 - x)) by (field; lra).
      rewrite E. apply Qle_shift_div_r; lra.
    + apply Qle_shift_div_r; [lra|]. apply Qnot_lt_le in Hy.
      assert (0 <= y * (1 - x)) by (apply Qmult_le_0_compat; lra). lra.
    + lra.
    + lra.
  - intros x Hx. destruct (Qltb_spec x 0) as [_|H]; [|lra].
    apply Qlt_shift_div_r; lra.
  - intros x y s _ Hxy _. done.
  - intros x s Hx. done.
Qed.

Lemma scripted_pick_spec (k : nat) (a : list nat) (g : list Z) :
  (k ≤ length a)%nat → length (Scripted.pick k a g).1 = k ∧ (Scripted.pick k a g).1 ⊆+ a.
Proof.
  revert a g. induction k as [|k IH]; intros a g Hk; simpl.
  - split; [done|]. apply submseteq_nil_l.
  - destruct (Scripted.pop g) as [z g1].
    assert (Hi : (Z.to_nat (z mod Z.of_nat (length a)) < length a)%nat).
    { pose proof (Z.mod_pos_bound z (Z.of_nat (length a))). lia. }
    destruct (lookup_lt_is_Some_2 a _ Hi) as [x Hx]. rewrite Hx.
    specialize (IH (delete (Z.to_nat (z mod Z.of_nat (length a))) a) g1).
    destruct (Scripted.pick k _ g1) as [l g2]. simpl in *.
    destruct IH as [IH1 IH2].
    { rewrite length_delete by eauto. lia. }
    split; [by rewrite IH1|].
    rewrite (delete_Permutation a _ x Hx). by apply submseteq_skip.
Qed.

Lemma scripted_numpy_laws : NumpyRandomLaws Scripted.numpy.
Proof.
  split; simpl.
  - intros a k g l g'. unfold Scripted.choice.
    destruct (decide (k ≤ length a)%nat) as [Hk|]; [|done].
    intros [= E]. pose proof (scripted_pick_spec k a g Hk) as H.
    by rewrite E in H.
  - intros low high g Hlt. unfold Scripted.randint.
    destruct (high <=? low)%Z eqn:E; [apply Z.leb_le in E; lia|].
    destruct (Scripted.pop g) as [z g1].
    eexists _, _. split; [done|].
    pose proof (Z.mod_pos_bound z (high - low)). lia.
  - intros low high g Hle. unfold Scripted.randint.
    apply Z.leb_le in Hle. by rewrite Hle.
Qed.

(** 10 units over 3 periods, on a tape whose first draws are the means of
    shape and scale. *)
Example fuzzy_weibull_cost_distribution_10_3 :
  @fuzzy_weibull_cost_distribution Scripted.libm Scripted.numpy
    2 10 3 1.589 0.71 2 0.3 [2; 2]%Z = Ok ([5; 2; 3], []).
Proof. vm_compute. reflexivity. Qed.


(** ** project.py: what each pass leaves unchanged *)

Lemma getitem_Ok {A : Type} (a : list A) (i : nat) (x : A) :
  getitem a i = Ok x ↔ a !! i = Some x.
Proof.
  unfold getitem. destruct (a !! i); split; intros H; by inversion H.
Qed.

Lemma for_each_preserves {S A : Type} (P : S → Prop) (f : S → A → result S)
    (l : list A) (s s' : S) :
  P s → (∀ s x s', P s → f s x = Ok s' → P s') → for_each f l s = Ok s' → P s'.
Proof.
  intros Hs Hstep. apply (for_each_inv (λ _, P)); [done|]. intros. by eapply Hstep.
Qed.

Lemma for_eachM_preserves {R : NumpyRandom} {S A : Type} (P : S → Prop)
    (f : S → A → M S) (l : list A) (s s' : S) (g g' : rng) :
  P s → (∀ s x s' g g', P s → f s x g = Ok (s', g') → P s') →
  for_eachM f l s g = Ok (s', g') → P s'.
Proof.
  intros Hs Hstep. apply (for_eachM_inv (λ _, P)); [done|]. intros. by eapply Hstep.
Qed.

Lemma map_insert_same {X : Type} (f : Project → X) (ps : list Project) (i : nat)
    (p q : Project) :
  ps !! i = Some p → f q = f p → map f (<[i := q]> ps) = map f ps.
Proof.
  intros Hp Hf. rewrite list_fmap_insert, Hf. apply list_insert_id.
  by rewrite list_lookup_fmap, Hp.
Qed.

Section Frames.
Context {X : Type} (f : Project → X).

Lemma add_exclusion_frame (ps ps' : list Project) (a b : nat) :
  (∀ p l, f (set_exclusion_list p l) = f p) →
  add_exclusion ps a b = Ok ps' → map f ps' = map f ps.
Proof.
  intros Hf H. unfold add_exclusion in H.
  apply result_bind_Ok in H as (p & Hp & [= <-]). apply getitem_Ok in Hp.
  by apply map_insert_same with p.
Qed.

Lemma exclude_group_frame (size : Z) (ps ps' : list Project) (group : list nat) :
  (∀ p l, f (set_exclusion_list p l) = f p) →
  exclude_group size ps group = Ok ps' → map f ps' = map f ps.
Proof.
  intros Hf. unfold exclude_group.
  apply (for_each_preserves (λ st, map f st = map f ps)); [done|].
  intros st i st' Hst H. apply result_bind_Ok in H as (ind1 & _ & H).
  revert H. apply (for_each_preserves (λ st, map f st = map f ps)); [done|].
  intros st1 j st1' Hst1 H. destruct (decide (i = j)); [by injection H as <-|].
  apply result_bind_Ok in H as (ind2 & _ & H).
  apply add_exclusion_frame in H; [|done]. congruence.
Qed.

Lemma add_successor_frame (ps ps' : list Project) (a b : nat) :
  (∀ p l, f (set_prerequisite_list p l) = f p) →
  (∀ p l, f (set_successor_list p l) = f p) →
  add_successor ps a b = Ok ps' → map f ps' = map f ps.
Proof.
  intros Hf1 Hf2 H. unfold add_successor in H.
  apply result_bind_Ok in H as (p & Hp & H). apply getitem_Ok in Hp.
  apply result_bind_Ok in H as (q & Hq & [= <-]). apply getitem_Ok in Hq.
  rewrite (map_insert_same f _ _ q) by done.
  by apply map_insert_same with p.
Qed.

Lemma link_prerequisite_group_frame (size : Z) (ps ps' : list Project)
    (group : list nat) :
  (∀ p l, f (set_prerequisite_list p l) = f p) →
  (∀ p l, f (set_successor_list p l) = f p) →
  link_prerequisite_group size ps group = Ok ps' → map f ps' = map f ps.
Proof.
  intros Hf1 Hf2 H. unfold link_prerequisite_group in H.
  apply result_bind_Ok in H as (prereq & _ & H). revert H.
  apply (for_each_preserves (λ st, map f st = map f ps)); [done|].
  intros st i st' Hst H. apply result_bind_Ok in H as (succ & _ & H).
  apply add_successor_frame in H; [|done..]. congruence.
Qed.

Context {L : Libm} {R : NumpyRandom}.

Lemma exclusion_pass_frame (t : option directives) (ps ps' : list Project)
    (g g' : rng) :
  (∀ p l, f (set_exclusion_list p l) = f p) →
  exclusion_pass t ps g = Ok (ps', g') → map f ps' = map f ps.
Proof.
  intros Hf. destruct t as [t|]; simpl; [|by intros [= <- <-]].
  unfold _generate_exclusions_post. intros H.
  apply bind_Ok in H as ([ind ps1] & g1 & H & Hret).
  apply ret_Ok in Hret as [-> _]. simpl. revert H.
  apply (for_eachM_preserves (λ st, map f st.2 = map f ps)); [done|].
  intros [ind0 st] [size prop] [ind0' st'] g0 g0' Hst H. simpl in *.
  apply bind_Ok in H as (ng & ? & _ & H).
  apply bind_Ok in H as (groups & ? & _ & H).
  apply bind_Ok in H as (st1 & ? & Hloop & H).
  apply ret_Ok in H as [[= -> ->] _]. apply lift_Ok in Hloop as [Hloop _].
  revert Hloop.
  apply (for_each_preserves (λ st, map f st = map f ps)); [done|].
  intros st2 grp st2' Hst2 H. apply exclude_group_frame in H; [|done]. congruence.
Qed.

Lemma prerequisite_pass_frame (t : option directives) (ps ps' : list Project)
    (g g' : rng) :
  (∀ p l, f (set_prerequisite_list p l) = f p) →
  (∀ p l, f (set_successor_list p l) = f p) →
  prerequisite_pass t ps g = Ok (ps', g') → map f ps' = map f ps.
Proof.
  intros Hf1 Hf2. destruct t as [t|]; simpl; [|by intros [= <- <-]].
  unfold _generate_prerequisites_post. intros H.
  apply bind_Ok in H as ([ind ps1] & g1 & H & Hret).
  apply ret_Ok in Hret as [-> _]. simpl. revert H.
  apply (for_eachM_preserves (λ st, map f st.2 = map f ps)); [done|].
  intros [ind0 st] [size prop] [ind0' st'] g0 g0' Hst H. simpl in *.
  apply bind_Ok in H as (ng & ? & _ & H).
  apply bind_Ok in H as (groups & ? & _ & H).
  apply bind_Ok in H as (st1 & ? & Hloop & H).
  apply ret_Ok in H as [[= -> ->] _]. apply lift_Ok in Hloop as [Hloop _].
  revert Hloop.
  apply (for_each_preserves (λ st, map f st = map f ps)); [done|].
  intros st2 grp st2' Hst2 H.
  apply link_prerequisite_group_frame in H; [|done..]. congruence.
Qed.
End Frames.

(** ** project.py: the generated projects *)

Lemma rounded_total_residual (t s : Q) (cum : Z) :
  s == inject_Z cum + inject_Z (rint (t - inject_Z cum)) → rounded_total t s.
Proof.
  intros E. pose proof (rint_near (t - inject_Z cum)) as [Hlo Hhi].
  split; [|split; [lra|split; [lra|]]].
  - exists (cum + rint (t - inject_Z cum))%Z. by rewrite inject_Z_plus.
  - intros z Hz.
    assert (E' : t - inject_Z cum == inject_Z (z - cum)).
    { rewrite Hz. unfold Z.sub. rewrite inject_Z_plus, inject_Z_opp. lra. }
    rewrite (rint_comp _ _ E'), rint_inject_Z in E.
    rewrite E, Hz. unfold Z.sub. rewrite inject_Z_plus, inject_Z_opp. lra.
Qed.

Section Generation.
Context {L : Libm} {R : NumpyRandom}.

Lemma create_project_fresh (fuel : nat) (kwargs : Kwargs rng) (cost_dur : list (Z * Z))
    (ps ps' : list Project) (i : nat) (g g' : rng) :
  create_project fuel kwargs cost_dur ps i g = Ok (ps', g') →
  ∃ p, ps' = ps ++ [p] ∧ fresh_project kwargs i p.
Proof.
  unfold create_project, cost_distribution. intros H.
  apply bind_Ok in H as ([D C] & g1 & _ & H). simpl in H.
  apply bind_Ok in H as (c & g2 & Hc & H).
  apply bind_Ok in H as (tv & g3 & Htv & H).
  apply bind_Ok in H as (v & g4 & Hv & H).
  apply ret_Ok in H as [-> _].
  eexists. split; [done|].
  apply fuzzy_weibull_cost_distribution_Ok in Hc as (HD & Hlen & Hsum).
  pose proof (rounded_distribution_sum _ _ _ _ _ _ _ _ _ _ Hv) as [cum Hcum].
  apply fuzzy_weibull_cost_distribution_Ok in Hv as (_ & Hlenv & _).
  repeat split; simpl; try done.
  - by rewrite length_map.
  - exists g2, tv, g3. split; [done|]. by apply rounded_total_residual with cum.
Qed.

(** The array before the constraint passes: one fresh project per
    position. *)
Lemma generate_projects_fresh (fuel : nat) (N : Z) (kwargs : Kwargs rng)
    (ps : list Project) (g g' : rng) :
  generate_projects fuel N kwargs g = Ok (ps, g') →
  length ps = Z.to_nat N ∧ ∀ i p, ps !! i = Some p → fresh_project kwargs i p.
Proof.
  unfold generate_projects. destruct (N <? 0)%Z; [done|]. intros H.
  apply bind_Ok in H as (cost_dur & g1 & _ & H).
  pose (I := λ (done : list nat) (st : list Project),
          length st = length done ∧ ∀ i p, st !! i = Some p → fresh_project kwargs i p).
  assert (HI : I (range N) ps).
  { eapply for_eachM_inv; [| |exact H].
    - split; [done|]. intros i p Hp. by rewrite lookup_nil in Hp.
    - intros done x rest st st' g0 g0' El [Hlen Hall] Hstep.
      apply seq_split_position in El as [-> _].
      apply create_project_fresh in Hstep as (p & -> & Hp).
      split; [rewrite !length_app; simpl; lia|].
      intros i q Hq. apply lookup_app_Some in Hq as [Hq|[Hi Hq]]; [by apply Hall|].
      apply list_lookup_singleton_Some in Hq as [Hi' <-].
      replace i with (length done) by lia. done. }
  destruct HI as [Hlen Hall]. split; [|done].
  rewrite Hlen. unfold range. by rewrite length_seq.
Qed.

(** The stages of a completed run of [create_random_projects]. *)
Lemma create_random_projects_stages (fuel : nat) (N : Z)
    (pre excl syn : option directives) (seed : Z) (kwargs : Kwargs rng)
    (g g' : rng) (ps : list Project) (ss : list Synergy.t) :
  create_random_projects fuel N pre excl syn seed kwargs g = Ok (ps, ss, g') →
  ∃ g0 ps0 g1 ps1 g2 g3,
    random_seed seed = Ok g0 ∧
    generate_projects fuel N kwargs g0 = Ok (ps0, g1) ∧
    exclusion_pass excl ps0 g1 = Ok (ps1, g2) ∧
    prerequisite_pass pre ps1 g2 = Ok (ps, g3) ∧
    synergy_pass fuel syn ps g3 = Ok (ss, g').
Proof.
  unfold create_random_projects. intros H.
  apply result_bind_Ok in H as (g0 & Hseed & H).
  apply bind_Ok in H as (ps0 & g1 & H0 & H).
  apply bind_Ok in H as (ps1 & g2 & H1 & H).
  apply bind_Ok in H as (ps2 & g3 & H2 & H).
  apply bind_Ok in H as (ss' & g4 & H3 & H).
  apply ret_Ok in H as [[= -> ->] ->].
  by exists g0, ps0, g1, ps1, g2, g3.
Qed.

(** The constraint passes keep the payload of every project. *)
Lemma create_random_projects_payload (fuel : nat) (N : Z)
    (pre excl syn : option directives) (seed : Z) (kwargs : Kwargs rng)
    (g g' : rng) (ps : list Project) (ss : list Synergy.t) :
  create_random_projects fuel N pre excl syn seed kwargs g = Ok (ps, ss, g') →
  length ps = Z.to_nat N ∧
  ∀ i p, ps !! i = Some p →
    ∃ p0, fresh_project kwargs i p0 ∧ payload p = payload p0.
Proof.
  intros H.
  apply create_random_projects_stages in H
    as (g0 & ps0 & g1 & ps1 & g2 & g3 & _ & H0 & H1 & H2 & _).
  apply generate_projects_fresh in H0 as [Hlen Hfresh].
  apply (exclusion_pass_frame payload) in H1; [|done].
  apply (prerequisite_pass_frame payload) in H2; [|done..].
  rewrite H1 in H2.
  split. { rewrite <- Hlen, <- (length_map payload ps), H2. by rewrite length_map. }
  intros i p Hp.
  assert (Hi : map payload ps0 !! i = Some (payload p)).
  { rewrite <- H2, list_lookup_fmap, Hp. done. }
  rewrite list_lookup_fmap in Hi.
  destruct (ps0 !! i) as [p0|] eqn:E0; [|done].
  exists p0. split; [by apply Hfresh|]. simpl in Hi. congruence.
Qed.

(** Every project of a completed run has the cost and value profiles the
    generation loop gave it. *)
Lemma create_random_projects_allocated (fuel : nat) (N : Z)
    (pre excl syn : option directives) (seed : Z) (kwargs : Kwargs rng)
    (g g' : rng) (ps : list Project) (ss : list Synergy.t) (p : Project) :
  create_random_projects fuel N pre excl syn seed kwargs g = Ok (ps, ss, g') →
  p ∈ ps → allocated kwargs p.
Proof.
  intros H Hp. apply list_elem_of_lookup in Hp as [i Hi].
  apply create_random_projects_payload in H as [_ H].
  destruct (H i p Hi) as (p0 & (_ & _ & _ & _ & Hall) & Hpay).
  injection Hpay as _ _ Ec Ev Ed Et.
  unfold allocated in *. by rewrite Ec, Ev, Ed, Et.
Qed.

End Generation.



(** ** project.py: the synergy pass *)

Lemma Qtrunc_le (x : Q) : 0 <= x → inject_Z (Qtrunc x) <= x.
Proof.
  intros Hx. unfold Qtrunc. apply Qle_bool_iff in Hx. rewrite Hx. apply Qfloor_le.
Qed.

Lemma Qtrunc_small (x : Q) : x <= 1 → (Qtrunc x ≤ 1)%Z.
Proof.
  intros Hx. unfold Qtrunc. destruct (Qle_bool 0 x) eqn:E.
  - change 1%Z with (Qfloor 1). by apply Qfloor_resp_le.
  - assert (H0 : x <= 0).
    { apply Qlt_le_weak, Qnot_le_lt. intros H. apply Qle_bool_iff in H. congruence. }
    change 1%Z with (Qceiling 1). apply Qceiling_resp_le. lra.
Qed.

Section SynergyValues.
Context {L : Libm} {R : NumpyRandom} {RL : NumpyRandomLaws R}.

(** A draw of [randint] that succeeds lies in [[low, high)]. *)
Lemma randint_Ok (low high r : Z) (g g' : rng) :
  random_randint low high g = Ok (r, g') → (low ≤ r < high)%Z.
Proof.
  intros H. destruct (Z.le_gt_cases high low) as [Hle|Hlt].
  - by rewrite (randint_empty low high g Hle) in H.
  - destruct (randint_ok low high g Hlt) as (r' & g'' & E & Hr).
    rewrite E in H. by injection H as <- <-.
Qed.

Lemma synergy_round_range (fuel : nat) (ps : list Project) (ind : list nat) (size : Z)
    (ss ss' : list Synergy.t) (i : nat) (g g' : rng) :
  synergy_round fuel ps ind size ss i g = Ok (ss', g') →
  ∃ s, ss' = ss ++ [s] ∧ value_in_range ps s.
Proof.
  unfold synergy_round. intros H.
  apply bind_Ok in H as (group & g1 & _ & H).
  apply bind_Ok in H as (total & g2 & Ht & H).
  apply bind_Ok in H as (v & g3 & Hv & H).
  apply ret_Ok in H as [-> _]. apply lift_Ok in Ht as [Ht _].
  apply randint_Ok in Hv.
  eexists. split; [done|]. exists total. simpl. split; [done|]. split; [lia|].
  assert (H0 : 0 <= total).
  { destruct (Qlt_le_dec total 0) as [Hneg|]; [|done].
    assert (Qtrunc total ≤ 1)%Z by (apply Qtrunc_small; lra). lia. }
  pose proof (Qtrunc_le total H0) as Hle.
  assert (Hlt : inject_Z v < inject_Z (Qtrunc total)) by (rewrite <- Zlt_Qlt; lia).
  lra.
Qed.

Lemma synergy_pass_range (fuel : nat) (syn : option directives) (ps : list Project)
    (ss : list Synergy.t) (g g' : rng) :
  synergy_pass fuel syn ps g = Ok (ss, g') → Forall (value_in_range ps) ss.
Proof.
  destruct syn as [gs|]; simpl; [|by intros [= <- _]].
  unfold _generate_synergies_post.
  apply (for_eachM_preserves (Forall (value_in_range ps))); [done|].
  intros ss0 [size prop] ss1 g0 g1 Hss0 H. simpl in H.
  apply bind_Ok in H as (n & g2 & _ & H). revert H.
  apply (for_eachM_preserves (Forall (value_in_range ps))); [done|].
  intros ss2 i ss3 g3 g4 Hss2 H.
  apply synergy_round_range in H as (s & -> & Hs).
  apply Forall_app. split; [done|]. by apply Forall_singleton.
Qed.

(** C6, as the code has it.  For every synergy group of a completed run
    the bonus value is an integer [v] with [1 <= v < total], where [total]
    is the sum over the members of the group of their per-period values:
    the lower bound 1 is included, the upper bound is excluded. *)
Theorem synergy_value_bounds (fuel : nat) (N : Z)
    (pre excl syn : option directives) (seed : Z) (kwargs : Kwargs rng)
    (g g' : rng) (ps : list Project) (ss : list Synergy.t) (s : Synergy.t) :
  create_random_projects fuel N pre excl syn seed kwargs g = Ok (ps, ss, g') →
  s ∈ ss →
  ∃ total, total_group_value ps (Synergy.project_ids s) = Ok total ∧
           (1 ≤ Synergy.value s)%Z ∧ inject_Z (Synergy.value s) < total.
Proof.
  intros H Hs.
  apply create_random_projects_stages in H
    as (g0 & ps0 & g1 & ps1 & g2 & g3 & _ & _ & _ & _ & H).
  apply synergy_pass_range in H. rewrite Forall_forall in H. by apply H.
Qed.
End SynergyValues.

(** A run of the bounds theorem: two projects of value 4 each, mutually
    exclusive, and one synergy group of size 2 (seed 174758468). *)
Lemma synergy_value_bounds_witness :
  ∃ ps ss g',
    @create_random_projects Scripted.libm Scripted.numpy
      5 2 None (Some [(2%Z, 1)]) (Some [(2%Z, 1)]) 174758468 no_kwargs [] = Ok (ps, ss, g') ∧
    ∀ s, s ∈ ss →
      ∃ total, total_group_value ps (Synergy.project_ids s) = Ok total ∧
               (1 ≤ Synergy.value s)%Z ∧ inject_Z (Synergy.value s) < total.
Proof.
  eexists _, _, _. split; [vm_compute; reflexivity|].
  intros s Hs.
  eapply (@synergy_value_bounds Scripted.libm Scripted.numpy scripted_numpy_laws
            5 2 None (Some [(2%Z, 1)]) (Some [(2%Z, 1)]) 174758468 no_kwargs []);
    [vm_compute; reflexivity|exact Hs].
Defined.

(** C6 as stated fails at its lower bound: in the run with seed 174758468
    the synergy group of the two projects has total value 8 and gets the
    bonus value 1, which is not strictly above 1. *)
Lemma synergy_value_can_be_one :
  ∃ ps s g',
    @create_random_projects Scripted.libm Scripted.numpy
      5 2 None (Some [(2%Z, 1)]) (Some [(2%Z, 1)]) 174758468 no_kwargs [] = Ok (ps, [s], g') ∧
    total_group_value ps (Synergy.project_ids s) = Ok 8 ∧
    ¬ (1 < Synergy.value s)%Z.
Proof.
  eexists _, _, _. split; [vm_compute; reflexivity|].
  split; [vm_compute; reflexivity|]. simpl. lia.
Qed.

Section DegenerateSynergy.
Context {L : Libm} {R : NumpyRandom} {RL : NumpyRandomLaws R}.

(** An iteration that raises ends the loop with its exception. *)
Lemma reaches_Raise {S A : Type} (f : S → A → M S) (l : list A) (s s1 : S)
    (g g1 : rng) (x : A) (e : exn) :
  reaches f l s g x s1 g1 → f s1 x g1 = Raise e → for_eachM f l s g = Raise e.
Proof.
  intros (done & rest & -> & Hdone) Hx. revert s g Hdone.
  induction done as [|y done IH]; intros s g Hdone; simpl in *.
  - apply ret_Ok in Hdone as [-> ->]. unfold bind. by rewrite Hx.
  - apply bind_Ok in Hdone as (s2 & g2 & Hy & Hdone).
    rewrite (bind_run _ _ _ _ _ Hy). by apply IH.
Qed.

(** The value draw of a group whose total value is at most 1 raises. *)
Lemma synergy_round_degenerate (fuel : nat) (ps : list Project) (ind : list nat)
    (size : Z) (ss : list Synergy.t) (i : nat) (g g1 : rng) (group : list nat)
    (total : Q) :
  draw_synergy_group fuel ps ind size g = Ok (group, g1) →
  total_group_value ps group = Ok total → total <= 1 →
  synergy_round fuel ps ind size ss i g = Raise ValueError.
Proof.
  intros Hg Ht Hle. unfold synergy_round.
  rewrite (bind_run _ _ _ _ _ Hg).
  rewrite (bind_run _ _ g1 g1 total) by (by rewrite Ht).
  unfold bind. rewrite randint_empty; [done|]. by apply Qtrunc_small.
Qed.

(** C7. When the synergy pass reaches a group it accepts and the total of
    the per-period values of the members is at most 1, the draw of the
    synergy value raises [ValueError] and so does the pass: no synergy is
    produced for that group. *)
Theorem degenerate_synergy_value_raises (fuel : nat) (ps : list Project)
    (group_sizes : directives) (size : Z) (prop : Q) (n : Z)
    (ss0 ss : list Synergy.t) (i : nat) (g00 g0 g g1 : rng)
    (group : list nat) (total : Q) :
  let indices := seq 0 (length ps) in
  reaches (synergies_round fuel ps indices) group_sizes [] g00 (size, prop) ss0 g0 →
  num_groups_of prop (length ps) size = Ok n →
  reaches (synergy_round fuel ps indices size) (range n) ss0 g0 i ss g →
  draw_synergy_group fuel ps indices size g = Ok (group, g1) →
  total_group_value ps group = Ok total →
  total <= 1 →
  _generate_synergies_post fuel ps group_sizes g00 = Raise ValueError.
Proof.
  intros indices Hdir Hn Hround Hgroup Htotal Hle.
  unfold _generate_synergies_post. fold indices.
  apply (reaches_Raise _ _ _ _ _ _ _ _ Hdir).
  simpl. rewrite (bind_run _ _ g0 g0 n) by (by rewrite Hn).
  apply (reaches_Raise _ _ _ _ _ _ _ _ Hround).
  by apply synergy_round_degenerate with g1 group total.
Qed.
End DegenerateSynergy.

(** Two projects of duration 1 whose value profiles are zero. *)
Lemma degenerate_synergy_value_raises_witness :
  let ps := [mkProject 1 "Project 1" [7] [0] 1 [] [] [] 7;
             mkProject 2 "Project 2" [7] [0] 1 [] [] [] 7] in
  @_generate_synergies_post Scripted.numpy 5 ps [(2%Z, 1)] [] = Raise ValueError.
Proof.
  intros ps.
  apply (@degenerate_synergy_value_raises Scripted.numpy scripted_numpy_laws
           5 ps [(2%Z, 1)] 2%Z 1 1%Z [] [] 0%nat [] [] [] [] [0; 1]%nat 0).
  - exists [], []. split; reflexivity.
  - reflexivity.
  - exists [], []. split; reflexivity.
  - reflexivity.
  - reflexivity.
  - by vm_compute.
Defined.

(** C2 fails on the code: a run that accepts a synergy group of two
    mutually exclusive projects.  With seed 174758468 projects 1 and 2 exclude each other, the candidate
    group [[0; 1]] passes the exclusion test (the test looks for the
    positions 0 and 1 in lists that hold the ids 1 and 2) and becomes a
    synergy. *)
Lemma synergy_group_of_excluded_projects :
  ∃ p1 p2 s g',
    @create_random_projects Scripted.libm Scripted.numpy
      5 2 None (Some [(2%Z, 1)]) (Some [(2%Z, 1)]) 174758468 no_kwargs []
      = Ok ([p1; p2], [s], g') ∧
    Synergy.project_ids s = [0; 1]%nat ∧
    group_repeat 2 [p1; p2] [0; 1]%nat = Ok false ∧
    project_id p2 ∈ exclusion_list p1 ∧
    project_id p1 ∈ exclusion_list p2.
Proof.
  eexists _, _, _, _. split; [vm_compute; reflexivity|].
  split; [reflexivity|]. split; [reflexivity|].
  split; simpl; constructor.
Qed.

(** ** project.py: the exclusion pass *)

Lemma related_insert_app (lists : list (list nat)) (a b : nat) (l : list nat) :
  lists !! a = Some l →
  ∀ x y, related (<[a := l ++ [(b + 1)%nat]]> lists) x y ↔
         related lists x y ∨ (x = a ∧ y = b).
Proof.
  intros Ha x y. unfold related.
  assert (Hlt : (a < length lists)%nat) by (by eapply lookup_lt_Some).
  destruct (decide (x = a)) as [->|Hne].
  - rewrite list_lookup_insert_eq by done. split.
    + intros (l' & [= <-] & Hin). apply elem_of_app in Hin as [Hin|Hin].
      * left. by exists l.
      * right. apply list_elem_of_singleton in Hin. split; [done|lia].
    + intros [(l' & Hl' & Hin)|[_ ->]].
      * exists (l ++ [(b + 1)%nat]). split; [done|].
        rewrite Ha in Hl'. injection Hl' as <-. apply elem_of_app. by left.
      * exists (l ++ [(b + 1)%nat]). split; [done|].
        apply elem_of_app. right. by apply list_elem_of_singleton.
  - rewrite list_lookup_insert_ne by done. split.
    + intros H. by left.
    + intros [H|[-> _]]; done.
Qed.

Lemma add_exclusion_related (ps ps' : list Project) (a b : nat) :
  add_exclusion ps a b = Ok ps' →
  ∀ x y, related (map exclusion_list ps') x y ↔
         related (map exclusion_list ps) x y ∨ (x = a ∧ y = b).
Proof.
  unfold add_exclusion. intros H.
  apply result_bind_Ok in H as (p & Hp & [= <-]). apply getitem_Ok in Hp.
  rewrite list_fmap_insert. simpl. apply related_insert_app.
  by rewrite list_lookup_fmap, Hp.
Qed.

(** A group adds exactly the pairs of its members at distinct places. *)
Lemma exclude_group_related (size : Z) (ps ps' : list Project) (group : list nat) :
  exclude_group size ps group = Ok ps' →
  ∀ x y, related (map exclusion_list ps') x y ↔
         related (map exclusion_list ps) x y ∨ group_pairs size group x y.
Proof.
  unfold exclude_group. intros H.
  pose (I := λ (done : list nat) (st : list Project),
          ∀ x y, related (map exclusion_list st) x y ↔
                 related (map exclusion_list ps) x y ∨
                 ∃ i j, i ∈ done ∧ j ∈ range size ∧ i ≠ j ∧
                        group !! i = Some x ∧ group !! j = Some y).
  assert (HI : I (range size) ps'); [|exact HI].
  eapply for_each_inv; [| |exact H].
  - intros x y. split; [by left|]. intros [H'|(i & j & Hi & _)]; [done|].
    by apply elem_of_nil in Hi.
  - clear H ps'. intros done i rest st st' El HIst Hbody.
    apply result_bind_Ok in Hbody as (ind1 & Hind1 & Hinner).
    apply getitem_Ok in Hind1.
    pose (J := λ (done' : list nat) (st1 : list Project),
            ∀ x y, related (map exclusion_list st1) x y ↔
                   related (map exclusion_list st) x y ∨
                   (x = ind1 ∧ ∃ j, j ∈ done' ∧ i ≠ j ∧ group !! j = Some y)).
    assert (HJ : J (range size) st').
    { eapply for_each_inv; [| |exact Hinner].
      - intros x y. split; [by left|]. intros [H'|(_ & j & Hj & _)]; [done|].
        by apply elem_of_nil in Hj.
      - intros done' j rest' st1 st1' El' HJst Hstep x y. cbv beta in Hstep.
        destruct (decide (i = j)) as [->|Hij].
        + injection Hstep as <-. rewrite (HJst x y). split.
          * intros [H'|(-> & j' & Hj' & Hne & Hg)]; [by left|].
            right. split; [done|]. exists j'. split; [|done].
            apply elem_of_app. by left.
          * intros [H'|(-> & j' & Hj' & Hne & Hg)]; [by left|].
            right. split; [done|]. exists j'. split; [|done].
            apply elem_of_app in Hj' as [Hj'|Hj']; [done|].
            apply list_elem_of_singleton in Hj'. congruence.
        + apply result_bind_Ok in Hstep as (ind2 & Hind2 & Hadd).
          apply getitem_Ok in Hind2.
          rewrite (add_exclusion_related _ _ _ _ Hadd x y), (HJst x y). split.
          * intros [[H'|(-> & j' & Hj' & Hne & Hg)]|[-> ->]]; [by left| |].
            -- right. split; [done|]. exists j'. split; [|done].
               apply elem_of_app. by left.
            -- right. split; [done|]. exists j. split; [|done].
               apply elem_of_app. right. by apply list_elem_of_singleton.
          * intros [H'|(-> & j' & Hj' & Hne & Hg)]; [by left; left|].
            apply elem_of_app in Hj' as [Hj'|Hj'].
            -- left. right. split; [done|]. by exists j'.
            -- apply list_elem_of_singleton in Hj' as ->. right.
               split; [done|]. congruence. }
    intros x y. rewrite (HJ x y), (HIst x y). split.
    + intros [[H'|(i' & j' & Hi' & Hrest)]|(-> & j & Hj & Hne & Hg)]; [by left| |].
      * right. exists i', j'. split; [|done]. apply elem_of_app. by left.
      * right. exists i, j. split; [|done].
        apply elem_of_app. right. by apply list_elem_of_singleton.
    + intros [H'|(i' & j' & Hi' & Hj' & Hne & Hgi & Hgj)]; [by left; left|].
      apply elem_of_app in Hi' as [Hi'|Hi'].
      * left. right. by exists i', j'.
      * apply list_elem_of_singleton in Hi' as ->. right.
        split; [congruence|]. by exists j'.
Qed.

(** ** Sampling groups without replacement *)

Lemma reshape_concat {A : Type} (rows cols : nat) (l : list A) :
  concat (reshape rows cols l) = take (rows * cols) l.
Proof.
  revert l. induction rows as [|rows IH]; intros l; simpl; [done|].
  by rewrite IH, take_take_drop.
Qed.

Lemma reshape_lengths {A : Type} (rows cols : nat) (l : list A) :
  (rows * cols ≤ length l)%nat → Forall (λ G, length G = cols) (reshape rows cols l).
Proof.
  revert l. induction rows as [|rows IH]; intros l Hl; simpl; constructor.
  - rewrite length_take. lia.
  - apply IH. rewrite length_drop. lia.
Qed.

Lemma elem_of_concat {A : Type} (ls : list (list A)) (x : A) :
  x ∈ concat ls ↔ ∃ l, x ∈ l ∧ l ∈ ls.
Proof.
  induction ls as [|l' ls IH]; simpl.
  - split; [intros H; by apply elem_of_nil in H|].
    intros (l & _ & H). by apply elem_of_nil in H.
  - rewrite elem_of_app, IH. split.
    + intros [H|(l & H1 & H2)].
      * exists l'. split; [done|]. by left.
      * exists l. split; [done|]. by right.
    + intros (l & H1 & H2). apply elem_of_cons in H2 as [->|H2]; [by left|].
      right. by exists l.
Qed.

Lemma NoDup_concat_elem {A : Type} (ls : list (list A)) (l : list A) :
  NoDup (concat ls) → l ∈ ls → NoDup l.
Proof.
  induction ls as [|l' ls IH]; simpl; intros Hnd Hl; [by apply elem_of_nil in Hl|].
  apply NoDup_app in Hnd as (H1 & _ & H2).
  apply elem_of_cons in Hl as [->|Hl]; [done|by apply IH].
Qed.

(** Two groups of a family without repetition that share a member are the
    same group, unless they are empty. *)
Lemma NoDup_concat_disjoint {A : Type} (ls : list (list A)) (i j : nat) (l1 l2 : list A)
    (x : A) :
  NoDup (concat ls) → ls !! i = Some l1 → ls !! j = Some l2 → x ∈ l1 → x ∈ l2 → i = j.
Proof.
  revert i j. induction ls as [|l ls IH]; intros i j Hnd Hi Hj H1 H2; [done|].
  simpl in Hnd. apply NoDup_app in Hnd as (_ & Hdis & Hnd).
  assert (Hin : ∀ k l', ls !! k = Some l' → x ∈ l' → x ∈ concat ls).
  { intros k l' Hk Hx. apply elem_of_concat. exists l'. split; [done|].
    by eapply list_elem_of_lookup_2. }
  destruct i as [|i], j as [|j]; simpl in *; try done.
  - injection Hi as <-. exfalso. eapply Hdis; [exact H1|]. by eapply Hin.
  - injection Hj as <-. exfalso. eapply Hdis; [exact H2|]. by eapply Hin.
  - f_equal. by eapply IH.
Qed.

Lemma submseteq_NoDup {A : Type} (l k : list A) : l ⊆+ k → NoDup k → NoDup l.
Proof.
  intros Hsub Hk. apply submseteq_sublist_l in Hsub as (l2 & Hsl & Hp).
  apply (sublist_NoDup l l2); [|done]. by rewrite Hp.
Qed.

Lemma setdiff1d_elem (a b : list nat) (x : nat) : x ∈ setdiff1d a b ↔ x ∈ a ∧ x ∉ b.
Proof.
  unfold setdiff1d. rewrite merge_sort_Permutation, elem_of_remove_dups.
  apply list_elem_of_difference.
Qed.

Lemma setdiff1d_NoDup (a b : list nat) : NoDup (setdiff1d a b).
Proof.
  unfold setdiff1d. rewrite merge_sort_Permutation. apply NoDup_remove_dups.
Qed.

Section Groups.
Context {R : NumpyRandom} {RL : NumpyRandomLaws R}.

(** The groups of one draw: each of the size asked for, and together a
    rearrangement of part of the pool. *)
Lemma choice_groups_spec (indices : list nat) (n size : Z) (g g' : rng)
    (groups : list (list nat)) :
  choice_groups indices n size g = Ok (groups, g') →
  (0 ≤ size)%Z ∧ Forall (λ G, length G = Z.to_nat size) groups ∧
  concat groups ⊆+ indices.
Proof.
  unfold choice_groups. destruct ((n <? 0)%Z || (size <? 0)%Z) eqn:E; [done|].
  apply orb_false_iff in E as [En Es]. apply Z.ltb_ge in En, Es.
  intros H. apply bind_Ok in H as (flat & g1 & Hflat & H).
  apply ret_Ok in H as [-> _]. apply choice_ok in Hflat as [Hlen Hsub].
  rewrite Z2Nat.inj_mul in Hlen by done.
  split; [done|]. split.
  - apply reshape_lengths. lia.
  - rewrite reshape_concat, take_ge by lia. done.
Qed.

(** The groups of a whole pass never share a member, and come from the
    pool. *)
Lemma drawn_groups_spec (N : nat) (gs : directives) (indices : list nat) (g g' : rng)
    (groups : list (list nat)) :
  NoDup indices →
  drawn_groups N gs indices g = Ok (groups, g') →
  NoDup (concat groups) ∧ ∀ x, x ∈ concat groups → x ∈ indices.
Proof.
  revert indices g groups. induction gs as [|[size prop] gs IH];
    intros indices g groups Hnd H; simpl in H.
  - apply ret_Ok in H as [-> _]. split; [constructor|].
    intros x Hx. by apply elem_of_nil in Hx.
  - apply bind_Ok in H as (n & g1 & _ & H).
    apply bind_Ok in H as (groups1 & g2 & H1 & H).
    apply bind_Ok in H as (later & g3 & H2 & H).
    apply ret_Ok in H as [-> ->].
    apply choice_groups_spec in H1 as (_ & _ & Hsub).
    apply IH in H2 as [Hnd2 Hin2]; [|apply setdiff1d_NoDup].
    rewrite concat_app. split.
    + apply NoDup_app. split; [by eapply submseteq_NoDup|]. split; [|done].
      intros x Hx1 Hx2. apply Hin2, setdiff1d_elem in Hx2 as [_ Hx2]. done.
    + intros x Hx. apply elem_of_app in Hx as [Hx|Hx].
      * by eapply elem_of_submseteq.
      * by apply Hin2, setdiff1d_elem in Hx as [Hx _].
Qed.
End Groups.

(** ** The relations a pass builds *)

(** A loop whose every iteration adds pairs to a relation adds the pairs of
    all its iterations. *)
Lemma for_each_accumulate {A : Type} (rel : list Project → nat → nat → Prop)
    (add : A → nat → nat → Prop) (f : list Project → A → result (list Project))
    (l : list A) (ps ps' : list Project) :
  (∀ st a st', f st a = Ok st' → ∀ x y, rel st' x y ↔ rel st x y ∨ add a x y) →
  for_each f l ps = Ok ps' →
  ∀ x y, rel ps' x y ↔ rel ps x y ∨ ∃ a, a ∈ l ∧ add a x y.
Proof.
  intros Hf. revert ps. induction l as [|a l IH]; intros ps H x y; simpl in H.
  - injection H as <-. split; [by left|]. intros [H|(a & Ha & _)]; [done|].
    by apply elem_of_nil in Ha.
  - apply result_bind_Ok in H as (st & Ha & H).
    rewrite (IH _ H x y), (Hf _ _ _ Ha x y). split.
    + intros [[H'|H']|(b & Hb & H')]; [by left| |].
      * right. exists a. split; [by left|done].
      * right. exists b. split; [by right|done].
    + intros [H'|(b & Hb & H')]; [by left; left|].
      apply elem_of_cons in Hb as [->|Hb]; [by left; right|].
      right. by exists b.
Qed.

Lemma add_successor_related (ps ps' : list Project) (a b : nat) :
  add_successor ps a b = Ok ps' →
  (∀ x y, related (map successor_list ps') x y ↔
          related (map successor_list ps) x y ∨ (x = a ∧ y = b)) ∧
  (∀ x y, related (map prerequisite_list ps') x y ↔
          related (map prerequisite_list ps) x y ∨ (x = b ∧ y = a)).
Proof.
  unfold add_successor. intros H.
  apply result_bind_Ok in H as (p & Hp & H). apply getitem_Ok in Hp.
  apply result_bind_Ok in H as (q & Hq & [= <-]). apply getitem_Ok in Hq.
  split; intros x y.
  - rewrite (map_insert_same successor_list _ _ q) by done.
    rewrite list_fmap_insert. simpl. apply related_insert_app.
    by rewrite list_lookup_fmap, Hp.
  - rewrite list_fmap_insert. simpl.
    rewrite related_insert_app.
    + by rewrite (map_insert_same prerequisite_list _ _ p) by done.
    + by rewrite list_lookup_fmap, Hq.
Qed.

(** A prerequisite group adds its links to the successor relation and their
    inverses to the prerequisite relation. *)
Lemma link_prerequisite_group_related (size : Z) (ps ps' : list Project)
    (group : list nat) :
  link_prerequisite_group size ps group = Ok ps' →
  (∀ x y, related (map successor_list ps') x y ↔
          related (map successor_list ps) x y ∨ group_links size group x y) ∧
  (∀ x y, related (map prerequisite_list ps') x y ↔
          related (map prerequisite_list ps) x y ∨ group_links size group y x).
Proof.
  unfold link_prerequisite_group. intros H.
  apply result_bind_Ok in H as (prereq & Hpre & H). apply getitem_Ok in Hpre.
  split; intros x y.
  - assert (Hstep : ∀ st i st',
              (try successor <- getitem (merge_sort (≤)%nat group) i;
               add_successor st prereq successor) = Ok st' →
              ∀ x y, related (map successor_list st') x y ↔
                     related (map successor_list st) x y ∨
                     (x = prereq ∧ merge_sort (≤)%nat group !! i = Some y)).
    { intros st i st' Hstep x' y'.
      apply result_bind_Ok in Hstep as (s & Hs & Hadd). apply getitem_Ok in Hs.
      apply add_successor_related in Hadd as [Hadd _]. rewrite (Hadd x' y').
      split; (intros [H'|[-> H']]; [by left|right]); split; congruence. }
    rewrite (for_each_accumulate (λ st, related (map successor_list st))
               (λ i x y, x = prereq ∧ merge_sort (≤)%nat group !! i = Some y)
               _ _ _ _ Hstep H x y).
    unfold group_links. split.
    + intros [H'|(i & Hi & -> & Hy)]; [by left|]. right. by exists i.
    + intros [H'|(i & Hi & Hx & Hy)]; [by left|]. right. exists i.
      split; [done|]. split; [congruence|done].
  - assert (Hstep : ∀ st i st',
              (try successor <- getitem (merge_sort (≤)%nat group) i;
               add_successor st prereq successor) = Ok st' →
              ∀ x y, related (map prerequisite_list st') x y ↔
                     related (map prerequisite_list st) x y ∨
                     (y = prereq ∧ merge_sort (≤)%nat group !! i = Some x)).
    { intros st i st' Hstep x' y'.
      apply result_bind_Ok in Hstep as (s & Hs & Hadd). apply getitem_Ok in Hs.
      apply add_successor_related in Hadd as [_ Hadd]. rewrite (Hadd x' y').
      split; (intros [H'|[H1 H2]]; [by left|right]); split; congruence. }
    rewrite (for_each_accumulate (λ st, related (map prerequisite_list st))
               (λ i x y, y = prereq ∧ merge_sort (≤)%nat group !! i = Some x)
               _ _ _ _ Hstep H x y).
    unfold group_links. split.
    + intros [H'|(i & Hi & -> & Hy)]; [by left|]. right. by exists i.
    + intros [H'|(i & Hi & Hx & Hy)]; [by left|]. right. exists i.
      split; [done|]. split; [congruence|done].
Qed.

Section PassRelations.
Context {R : NumpyRandom} {RL : NumpyRandomLaws R}.

Lemma exclusions_round_shape (N : nat) (st : list nat * list Project) (d : Z * Q) :
  exclusions_round N st d = round_of exclude_group N st d.
Proof. by destruct st, d. Qed.

Lemma prerequisites_round_shape (N : nat) (st : list nat * list Project) (d : Z * Q) :
  prerequisites_round N st d = round_of link_prerequisite_group N st d.
Proof. by destruct st, d. Qed.

Lemma for_eachM_ext {S A : Type} (f f' : S → A → M S) (l : list A) (s : S) (g : rng) :
  (∀ s x, f s x = f' s x) → for_eachM f l s g = for_eachM f' l s g.
Proof.
  intros Hf. revert s g. induction l as [|x l IH]; intros s g; simpl; [done|].
  unfold bind. rewrite Hf. destruct (f' s x g) as [[s1 g1]| |]; [apply IH|done..].
Qed.

Variable body : Z → list Project → list nat → result (list Project).
Variable rel : list Project → nat → nat → Prop.
Variable add : Z → list nat → nat → nat → Prop.
Hypothesis body_adds : ∀ size st G st', body size st G = Ok st' →
  ∀ x y, rel st' x y ↔ rel st x y ∨ add size G x y.

(** A pass adds to its relation the pairs of every group it draws. *)
Lemma rounds_related (N : nat) (gs : directives) (indices : list nat)
    (ps : list Project) (g g' : rng) (st' : list nat * list Project) :
  for_eachM (round_of body N) gs (indices, ps) g = Ok (st', g') →
  ∃ groups, drawn_groups N gs indices g = Ok (groups, g') ∧
    ∀ x y, rel st'.2 x y ↔
           rel ps x y ∨ ∃ G, G ∈ groups ∧ add (Z.of_nat (length G)) G x y.
Proof.
  revert indices ps g. induction gs as [|[size prop] gs IH];
    intros indices ps g H; simpl in H.
  - apply ret_Ok in H as [-> ->]. exists []. split; [done|].
    intros x y. simpl. split; [by left|]. intros [H|(G & HG & _)]; [done|].
    by apply elem_of_nil in HG.
  - apply bind_Ok in H as ([ind1 ps1] & g1 & Hround & H).
    unfold round_of in Hround. simpl in Hround.
    apply bind_Ok in Hround as (n & g2 & Hn & Hround).
    apply bind_Ok in Hround as (groups1 & g3 & Hch & Hround).
    apply bind_Ok in Hround as (ps1' & g4 & Hloop & Hround).
    apply ret_Ok in Hround as [[= -> ->] ->].
    apply lift_Ok in Hloop as [Hloop ->].
    apply IH in H as (later & Hlater & Hrel).
    exists (groups1 ++ later). split.
    + simpl. rewrite (bind_run _ _ _ _ _ Hn), (bind_run _ _ _ _ _ Hch).
      by rewrite (bind_run _ _ _ _ _ Hlater).
    + apply choice_groups_spec in Hch as (Hsize & Hlen & _).
      intros x y. rewrite (Hrel x y).
      rewrite (for_each_accumulate rel (add size) _ _ _ _ (body_adds size) Hloop x y).
      split.
      * intros [[H'|(G & HG & H')]|(G & HG & H')]; [by left| |].
        -- right. exists G. split; [apply elem_of_app; by left|].
           rewrite Forall_forall in Hlen. rewrite (Hlen G HG). by rewrite Z2Nat.id.
        -- right. exists G. split; [apply elem_of_app; by right|done].
      * intros [H'|(G & HG & H')]; [by left; left|].
        apply elem_of_app in HG as [HG|HG].
        -- left. right. exists G. split; [done|].
           rewrite Forall_forall in Hlen. rewrite (Hlen G HG) in H'.
           by rewrite Z2Nat.id in H'.
        -- right. by exists G.
Qed.
End PassRelations.

(** ** Groups without repetition *)

Lemma range_elem (i : nat) (n : nat) : i ∈ range (Z.of_nat n) ↔ (i < n)%nat.
Proof.
  unfold range. rewrite Nat2Z.id, elem_of_seq. lia.
Qed.

Lemma range_from_elem (i a : nat) (n : nat) : i ∈ range_from a (Z.of_nat n) ↔ (a ≤ i < n)%nat.
Proof.
  unfold range_from. rewrite Nat2Z.id, elem_of_seq. lia.
Qed.

(** The pairs of a group without repetition are the pairs of distinct
    members. *)
Lemma group_pairs_NoDup (G : list nat) (x y : nat) :
  NoDup G →
  group_pairs (Z.of_nat (length G)) G x y ↔ x ∈ G ∧ y ∈ G ∧ x ≠ y.
Proof.
  intros Hnd. unfold group_pairs. split.
  - intros (i & j & _ & _ & Hij & Hi & Hj).
    split; [by eapply list_elem_of_lookup_2|]. split; [by eapply list_elem_of_lookup_2|].
    intros ->. apply Hij. by eapply NoDup_lookup.
  - intros (Hx & Hy & Hxy).
    apply list_elem_of_lookup in Hx as [i Hi]. apply list_elem_of_lookup in Hy as [j Hj].
    exists i, j. rewrite !range_elem.
    split; [by eapply lookup_lt_Some|]. split; [by eapply lookup_lt_Some|].
    split; [|done]. intros ->. congruence.
Qed.

(** The first member of the sorted group is its smallest member. *)
Lemma merge_sort_head (G : list nat) (h : nat) :
  merge_sort (≤)%nat G !! 0%nat = Some h ↔ h ∈ G ∧ ∀ z, z ∈ G → (h ≤ z)%nat.
Proof.
  pose proof (StronglySorted_merge_sort (≤)%nat G) as Hs.
  pose proof (merge_sort_Permutation (≤)%nat G) as Hp.
  destruct (merge_sort (≤)%nat G) as [|h' l] eqn:E; simpl.
  - split; [done|]. intros [Hh _]. rewrite <- Hp in Hh. by apply elem_of_nil in Hh.
  - apply StronglySorted_inv in Hs as [_ Hall]. rewrite Forall_forall in Hall.
    assert (Hmin : ∀ z, z ∈ G → (h' ≤ z)%nat).
    { intros z Hz. rewrite <- Hp in Hz. apply elem_of_cons in Hz as [->|Hz]; [lia|].
      by apply Hall. }
    split.
    + intros [= <-]. split; [|done]. rewrite <- Hp. by left.
    + intros [Hh Hhmin]. f_equal.
      assert (h' ∈ G) by (rewrite <- Hp; by left).
      apply Nat.le_antisymm; [by apply Hmin|by apply Hhmin].
Qed.

(** The links of a group without repetition go from its smallest member to
    each of its other members. *)
Lemma group_links_NoDup (G : list nat) (x y : nat) :
  NoDup G →
  group_links (Z.of_nat (length G)) G x y ↔
  (x ∈ G ∧ ∀ z, z ∈ G → (x ≤ z)%nat) ∧ y ∈ G ∧ y ≠ x.
Proof.
  intros Hnd. unfold group_links.
  pose proof (merge_sort_Permutation (≤)%nat G) as Hp.
  assert (Hnd' : NoDup (merge_sort (≤)%nat G)) by (by rewrite Hp).
  split.
  - intros (i & Hi & Hx & Hy). apply range_from_elem in Hi.
    split; [by apply merge_sort_head|]. split.
    + rewrite <- Hp. by eapply list_elem_of_lookup_2.
    + intros ->. assert (i = 0)%nat by (by eapply NoDup_lookup). lia.
  - intros (Hx & Hy & Hxy). apply merge_sort_head in Hx.
    rewrite <- Hp in Hy. apply list_elem_of_lookup in Hy as [i Hi].
    exists i. split; [|done]. apply range_from_elem.
    pose proof (lookup_lt_Some _ _ _ Hi) as Hlt. rewrite Hp in Hlt.
    split; [|done]. destruct i; [congruence|lia].
Qed.

Section PassGroups.
Context {L : Libm} {R : NumpyRandom} {RL : NumpyRandomLaws R}.

Lemma pass_groups_spec (t : option directives) (N : nat) (g g' : rng)
    (groups : list (list nat)) :
  pass_groups t N g = Ok (groups, g') →
  NoDup (concat groups) ∧ ∀ G x, G ∈ groups → x ∈ G → (x < N)%nat.
Proof.
  destruct t as [gs|]; simpl.
  - intros H. apply drawn_groups_spec in H as [H1 H2]; [|apply NoDup_seq].
    split; [done|]. intros G x HG Hx.
    assert (Hin : x ∈ seq 0 N) by (apply H2, elem_of_concat; by exists G).
    apply elem_of_seq in Hin. lia.
  - intros [= <- _]. split; [constructor|].
    intros G x HG. by apply elem_of_nil in HG.
Qed.

(** The exclusion pass adds the pairs of distinct members of its groups. *)
Lemma exclusion_pass_related (t : option directives) (ps ps' : list Project)
    (g g' : rng) :
  exclusion_pass t ps g = Ok (ps', g') →
  ∃ groups, pass_groups t (length ps) g = Ok (groups, g') ∧
    ∀ x y, related (map exclusion_list ps') x y ↔
           related (map exclusion_list ps) x y ∨
           ∃ G, G ∈ groups ∧ x ∈ G ∧ y ∈ G ∧ x ≠ y.
Proof.
  destruct t as [gs|]; simpl.
  - unfold _generate_exclusions_post. intros H.
    apply bind_Ok in H as (st & g1 & H & Hret). apply ret_Ok in Hret as [-> ->].
    rewrite (for_eachM_ext _ (round_of exclude_group (length ps))) in H
      by apply exclusions_round_shape.
    apply (rounds_related exclude_group (λ st, related (map exclusion_list st))
             group_pairs
             (λ size st G st' Hb, exclude_group_related size st st' G Hb))
      in H as (groups & Hg & Hrel).
    exists groups. split; [done|].
    pose proof (pass_groups_spec (Some gs) _ _ _ _ Hg) as [Hnd _].
    intros x y. rewrite (Hrel x y).
    split; (intros [H'|(G & HG & H')]; [by left|right; exists G; split; [done|]]).
    + apply group_pairs_NoDup in H'; [done|]. by eapply NoDup_concat_elem.
    + apply group_pairs_NoDup; [|done]. by eapply NoDup_concat_elem.
  - intros [= <- <-]. exists []. split; [done|].
    intros x y. split; [by left|]. intros [H|(G & HG & _)]; [done|].
    by apply elem_of_nil in HG.
Qed.

(** The prerequisite pass links the smallest member of each of its groups
    to the other members. *)
Lemma prerequisite_pass_related (t : option directives) (ps ps' : list Project)
    (g g' : rng) :
  prerequisite_pass t ps g = Ok (ps', g') →
  ∃ groups, pass_groups t (length ps) g = Ok (groups, g') ∧
    (∀ x y, related (map successor_list ps') x y ↔
            related (map successor_list ps) x y ∨
            ∃ G, G ∈ groups ∧ (x ∈ G ∧ ∀ z, z ∈ G → (x ≤ z)%nat) ∧ y ∈ G ∧ y ≠ x) ∧
    (∀ x y, related (map prerequisite_list ps') x y ↔
            related (map prerequisite_list ps) x y ∨
            ∃ G, G ∈ groups ∧ (y ∈ G ∧ ∀ z, z ∈ G → (y ≤ z)%nat) ∧ x ∈ G ∧ x ≠ y).
Proof.
  destruct t as [gs|]; simpl.
  - unfold _generate_prerequisites_post. intros H.
    apply bind_Ok in H as (st & g1 & H & Hret). apply ret_Ok in Hret as [-> ->].
    rewrite (for_eachM_ext _ (round_of link_prerequisite_group (length ps))) in H
      by apply prerequisites_round_shape.
    pose proof H as H2.
    apply (rounds_related link_prerequisite_group
             (λ st, related (map successor_list st)) group_links
             (λ size st G st' Hb, proj1 (link_prerequisite_group_related size st st' G Hb)))
      in H as (groups & Hg & Hrel).
    apply (rounds_related link_prerequisite_group
             (λ st, related (map prerequisite_list st)) (λ size G x y, group_links size G y x)
             (λ size st G st' Hb, proj2 (link_prerequisite_group_related size st st' G Hb)))
      in H2 as (groups' & Hg' & Hrel').
    rewrite Hg in Hg'. injection Hg' as <-.
    exists groups. split; [done|].
    pose proof (pass_groups_spec (Some gs) _ _ _ _ Hg) as [Hnd _].
    split; intros x y; [rewrite (Hrel x y)|rewrite (Hrel' x y)];
      (split; (intros [H'|(G & HG & H')]; [by left|right; exists G; split; [done|]]));
      (apply group_links_NoDup in H' || apply group_links_NoDup);
      try done; by eapply NoDup_concat_elem.
  - intros [= <- <-]. exists []. split; [done|].
    split; intros x y; (split; [by left|]); (intros [H|(G & HG & _)]; [done|]);
      by apply elem_of_nil in HG.
Qed.
End PassGroups.

(** ** The relations of a completed run *)

Lemma related_lookup (f : Project → list nat) (ps : list Project) (i j : nat) (p : Project) :
  ps !! i = Some p → related (map f ps) i j ↔ (j + 1)%nat ∈ f p.
Proof.
  intros Hp. unfold related. rewrite list_lookup_fmap, Hp. simpl. split.
  - by intros (l & [= <-] & H).
  - intros H. by exists (f p).
Qed.

Lemma related_empty (f : Project → list nat) (ps : list Project) (x y : nat) :
  (∀ i p, ps !! i = Some p → f p = []) → ¬ related (map f ps) x y.
Proof.
  intros Hf (l & Hl & Hin). rewrite list_lookup_fmap in Hl.
  destruct (ps !! x) as [p|] eqn:E; [|done]. injection Hl as <-.
  rewrite (Hf x p E) in Hin. by apply elem_of_nil in Hin.
Qed.

Section RunRelations.
Context {L : Libm} {R : NumpyRandom} {RL : NumpyRandomLaws R}.

(** The relation lists of a completed run, in terms of the groups its
    exclusion pass and its prerequisite pass drew. *)
Lemma create_random_projects_relations (fuel : nat) (N : Z)
    (pre excl syn : option directives) (seed : Z) (kwargs : Kwargs rng)
    (g g' : rng) (ps : list Project) (ss : list Synergy.t) :
  create_random_projects fuel N pre excl syn seed kwargs g = Ok (ps, ss, g') →
  ∃ g0 ps0 g1 ps1 g2 g3 groups_e groups_p,
    random_seed seed = Ok g0 ∧
    generate_projects fuel N kwargs g0 = Ok (ps0, g1) ∧
    exclusion_pass excl ps0 g1 = Ok (ps1, g2) ∧
    pass_groups excl (length ps) g1 = Ok (groups_e, g2) ∧
    pass_groups pre (length ps) g2 = Ok (groups_p, g3) ∧
    (NoDup (concat groups_p) ∧ ∀ G x, G ∈ groups_p → x ∈ G → (x < length ps)%nat) ∧
    (∀ i p, ps !! i = Some p → project_id p = (i + 1)%nat) ∧
    (∀ x y, related (map exclusion_list ps) x y ↔
            ∃ G, G ∈ groups_e ∧ x ∈ G ∧ y ∈ G ∧ x ≠ y) ∧
    (∀ x y, related (map successor_list ps) x y ↔
            ∃ G, G ∈ groups_p ∧ (x ∈ G ∧ ∀ z, z ∈ G → (x ≤ z)%nat) ∧ y ∈ G ∧ y ≠ x) ∧
    (∀ x y, related (map prerequisite_list ps) x y ↔
            ∃ G, G ∈ groups_p ∧ (y ∈ G ∧ ∀ z, z ∈ G → (y ≤ z)%nat) ∧ x ∈ G ∧ x ≠ y).
Proof.
  intros H.
  pose proof (create_random_projects_payload _ _ _ _ _ _ _ _ _ _ _ H) as [_ Hpay].
  apply create_random_projects_stages in H
    as (g0 & ps0 & g1 & ps1 & g2 & g3 & Hseed & H0 & H1 & H2 & _).
  pose proof (generate_projects_fresh _ _ _ _ _ _ H0) as [_ Hfresh].
  pose proof (exclusion_pass_frame successor_list _ _ _ _ _ ltac:(done) H1) as Fs.
  pose proof (exclusion_pass_frame prerequisite_list _ _ _ _ _ ltac:(done) H1) as Fp.
  pose proof (prerequisite_pass_frame exclusion_list _ _ _ _ _
                ltac:(done) ltac:(done) H2) as Fe.
  assert (Hlen1 : length ps1 = length ps0).
  { by rewrite <- (length_map successor_list ps1), Fs, length_map. }
  assert (Hlen : length ps = length ps1).
  { by rewrite <- (length_map exclusion_list ps), Fe, length_map. }
  pose proof (exclusion_pass_related _ _ _ _ _ H1) as (groups_e & Hge & Hrel_e).
  pose proof (prerequisite_pass_related _ _ _ _ _ H2) as (groups_p & Hgp & Hrel_s & Hrel_p).
  exists g0, ps0, g1, ps1, g2, g3, groups_e, groups_p.
  rewrite Hlen, Hlen1 at 1. rewrite Hlen.
  split; [done|]. split; [done|]. split; [done|]. split; [done|]. split; [done|].
  split; [by eapply pass_groups_spec|].
  split.
  { intros i p Hp. destruct (Hpay i p Hp) as (p0 & (Hid & _) & E).
    injection E as -> _. done. }
  split; [|split].
  - intros x y. rewrite Fe, (Hrel_e x y). split; [|by right].
    intros [H|H]; [|done]. exfalso. revert H. apply related_empty.
    intros i p Hp. by destruct (Hfresh i p Hp) as (_ & _ & _ & ? & _).
  - intros x y. rewrite (Hrel_s x y), Fs. split; [|by right].
    intros [H|H]; [|done]. exfalso. revert H. apply related_empty.
    intros i p Hp. by destruct (Hfresh i p Hp) as (_ & _ & ? & _).
  - intros x y. rewrite (Hrel_p x y), Fp. split; [|by right].
    intros [H|H]; [|done]. exfalso. revert H. apply related_empty.
    intros i p Hp. by destruct (Hfresh i p Hp) as (_ & ? & _).
Qed.

(** C4. After a completed run the exclusion relation is symmetric, and no
    project lists its own id as a prerequisite, a successor or an
    exclusion. *)
Theorem exclusion_symmetric_and_no_self_reference (fuel : nat) (N : Z)
    (pre excl syn : option directives) (seed : Z) (kwargs : Kwargs rng)
    (g g' : rng) (ps : list Project) (ss : list Synergy.t)
    (i j : nat) (pi pj : Project) :
  create_random_projects fuel N pre excl syn seed kwargs g = Ok (ps, ss, g') →
  ps !! i = Some pi → ps !! j = Some pj →
  (project_id pj ∈ exclusion_list pi ↔ project_id pi ∈ exclusion_list pj) ∧
  (project_id pi ∉ prerequisite_list pi) ∧
  (project_id pi ∉ successor_list pi) ∧
  (project_id pi ∉ exclusion_list pi).
Proof.
  intros H Hi Hj.
  apply create_random_projects_relations in H
    as (g0 & ps0 & g1 & ps1 & g2 & g3 & groups_e & groups_p &
        _ & _ & _ & _ & _ & _ & Hid & He & Hs & Hp).
  rewrite (Hid i pi Hi), (Hid j pj Hj).
  rewrite <- (related_lookup exclusion_list ps i j pi Hi).
  rewrite <- (related_lookup exclusion_list ps j i pj Hj).
  rewrite <- (related_lookup prerequisite_list ps i i pi Hi).
  rewrite <- (related_lookup successor_list ps i i pi Hi).
  rewrite <- (related_lookup exclusion_list ps i i pi Hi).
  rewrite (He i j), (He j i), (He i i), (Hs i i), (Hp i i).
  split; [|split; [|split]].
  - split; intros (G & HG & H1 & H2 & H3); exists G; by repeat split.
  - by intros (G & _ & _ & _ & H).
  - by intros (G & _ & _ & _ & H).
  - by intros (G & _ & _ & _ & H).
Qed.
End RunRelations.

Section PrerequisiteGroups.
Context {L : Libm} {R : NumpyRandom} {RL : NumpyRandomLaws R}.

(** Two groups of a pass that share a member are the same group. *)
Lemma groups_share_member (groups : list (list nat)) (G G' : list nat) (x : nat) :
  NoDup (concat groups) → G ∈ groups → G' ∈ groups → x ∈ G → x ∈ G' → G = G'.
Proof.
  intros Hnd HG HG' Hx Hx'.
  apply list_elem_of_lookup in HG as [a Ha]. apply list_elem_of_lookup in HG' as [b Hb].
  assert (a = b) by (by eapply (NoDup_concat_disjoint groups a b G G' x)).
  congruence.
Qed.

(** C5. After a completed run the successor and prerequisite lists are
    inverse of each other; and in every group the prerequisite pass drew,
    the member [m] with the smallest index is the one prerequisite of every
    other member, and the successors of [m] are the other members. *)
Theorem prerequisite_successor_inverse (fuel : nat) (N : Z)
    (pre excl syn : option directives) (seed : Z) (kwargs : Kwargs rng)
    (g g' : rng) (ps : list Project) (ss : list Synergy.t) :
  create_random_projects fuel N pre excl syn seed kwargs g = Ok (ps, ss, g') →
  (∀ i j pi pj, ps !! i = Some pi → ps !! j = Some pj →
     (project_id pj ∈ successor_list pi ↔ project_id pi ∈ prerequisite_list pj)) ∧
  ∃ g0 ps0 g1 ps1 g2 g3 groups,
    random_seed seed = Ok g0 ∧
    generate_projects fuel N kwargs g0 = Ok (ps0, g1) ∧
    exclusion_pass excl ps0 g1 = Ok (ps1, g2) ∧
    pass_groups pre (length ps) g2 = Ok (groups, g3) ∧
    ∀ G m, G ∈ groups → m ∈ G → (∀ z, z ∈ G → (m ≤ z)%nat) →
      ∃ pm, ps !! m = Some pm ∧
        (∀ j pj, ps !! j = Some pj →
           (project_id pj ∈ successor_list pm ↔ j ∈ G ∧ j ≠ m)) ∧
        ∀ s, s ∈ G → s ≠ m →
          ∃ p_s, ps !! s = Some p_s ∧
            project_id p_s ∈ successor_list pm ∧
            ∀ j pj, ps !! j = Some pj →
              (project_id pj ∈ prerequisite_list p_s ↔ j = m).
Proof.
  intros H.
  apply create_random_projects_relations in H
    as (g0 & ps0 & g1 & ps1 & g2 & g3 & groups_e & groups &
        Hseed & H0 & H1 & _ & Hgp & [Hnd Hbound] & Hid & _ & Hs & Hp).
  split.
  - intros i j pi pj Hi Hj. rewrite (Hid i pi Hi), (Hid j pj Hj).
    rewrite <- (related_lookup successor_list ps i j pi Hi).
    rewrite <- (related_lookup prerequisite_list ps j i pj Hj).
    by rewrite (Hs i j), (Hp j i).
  - exists g0, ps0, g1, ps1, g2, g3, groups.
    split; [done|]. split; [done|]. split; [done|]. split; [done|].
    intros G m HG Hm Hmin.
    destruct (lookup_lt_is_Some_2 ps m (Hbound G m HG Hm)) as [pm Hpm].
    exists pm. split; [done|].
    assert (Hsucc : ∀ j pj, ps !! j = Some pj →
              (project_id pj ∈ successor_list pm ↔ j ∈ G ∧ j ≠ m)).
    { intros j pj Hj. rewrite (Hid j pj Hj).
      rewrite <- (related_lookup successor_list ps m j pm Hpm), (Hs m j). split.
      - intros (G' & HG' & [Hm' _] & Hj' & Hne).
        by rewrite (groups_share_member groups G G' m).
      - intros [Hj' Hne]. exists G. by repeat split. }
    split; [done|].
    intros s HsG Hsm.
    destruct (lookup_lt_is_Some_2 ps s (Hbound G s HG HsG)) as [p_s Hps].
    exists p_s. split; [done|]. split; [by apply (Hsucc s p_s)|].
    intros j pj Hj. rewrite (Hid j pj Hj).
    rewrite <- (related_lookup prerequisite_list ps s j p_s Hps), (Hp s j). split.
    + intros (G' & HG' & [Hj' Hjmin] & Hs' & Hne).
      assert (G = G') as <- by (by apply (groups_share_member groups G G' s)).
      apply Nat.le_antisymm; [by apply Hjmin|by apply Hmin].
    + intros ->. exists G. by repeat split.
Qed.
End PrerequisiteGroups.

(** A run of the symmetry theorem: two projects that exclude each other
    (seed 174758468), read at the positions 0 and 1. *)
Lemma exclusion_symmetric_and_no_self_reference_witness :
  ∃ ps ss g' pi pj,
    @create_random_projects Scripted.libm Scripted.numpy
      5 2 None (Some [(2%Z, 1)]) (Some [(2%Z, 1)]) 174758468 no_kwargs [] = Ok (ps, ss, g') ∧
    ps !! 0%nat = Some pi ∧ ps !! 1%nat = Some pj ∧
    (project_id pj ∈ exclusion_list pi ↔ project_id pi ∈ exclusion_list pj) ∧
    (project_id pi ∉ prerequisite_list pi) ∧
    (project_id pi ∉ successor_list pi) ∧
    (project_id pi ∉ exclusion_list pi).
Proof.
  eexists _, _, _, _, _. split; [vm_compute; reflexivity|].
  split; [reflexivity|]. split; [reflexivity|].
  eapply (@exclusion_symmetric_and_no_self_reference
            Scripted.libm Scripted.numpy scripted_numpy_laws
            5 2 None (Some [(2%Z, 1)]) (Some [(2%Z, 1)]) 174758468 no_kwargs []
            _ _ _ 0%nat 1%nat);
    [vm_compute; reflexivity|reflexivity|reflexivity].
Defined.

(** A run of the prerequisite theorem: two projects in one prerequisite
    group (seed 174758468). *)
Lemma prerequisite_successor_inverse_witness :
  ∃ ps ss g',
    @create_random_projects Scripted.libm Scripted.numpy
      5 2 (Some [(2%Z, 1)]) None None 174758468 no_kwargs [] = Ok (ps, ss, g') ∧
    (∀ i j pi pj, ps !! i = Some pi → ps !! j = Some pj →
       (project_id pj ∈ successor_list pi ↔ project_id pi ∈ prerequisite_list pj)) ∧
    ∃ g0 ps0 g1 ps1 g2 g3 groups,
      Scripted.seed 174758468 = Ok g0 ∧
      @generate_projects Scripted.libm Scripted.numpy 5 2 no_kwargs g0 = Ok (ps0, g1) ∧
      @exclusion_pass Scripted.numpy None ps0 g1 = Ok (ps1, g2) ∧
      @pass_groups Scripted.numpy (Some [(2%Z, 1)]) (length ps) g2 = Ok (groups, g3) ∧
      ∀ G m, G ∈ groups → m ∈ G → (∀ z, z ∈ G → (m ≤ z)%nat) →
        ∃ pm, ps !! m = Some pm ∧
          (∀ j pj, ps !! j = Some pj →
             (project_id pj ∈ successor_list pm ↔ j ∈ G ∧ j ≠ m)) ∧
          ∀ s, s ∈ G → s ≠ m →
            ∃ p_s, ps !! s = Some p_s ∧
              project_id p_s ∈ successor_list pm ∧
              ∀ j pj, ps !! j = Some pj →
                (project_id pj ∈ prerequisite_list p_s ↔ j = m).
Proof.
  eexists _, _, _. split; [vm_compute; reflexivity|].
  eapply (@prerequisite_successor_inverse
            Scripted.libm Scripted.numpy scripted_numpy_laws
            5 2 (Some [(2%Z, 1)]) None None 174758468 no_kwargs []).
  vm_compute; reflexivity.
Defined.

(** ** project_problem_instance.py *)

Lemma max_project_length_from (acc : Z) (ps : list Project) :
  let M := foldl (λ max_length p, if (max_length <? duration p)%Z then duration p
                                  else max_length) acc ps in
  (acc ≤ M)%Z ∧ (∀ p, p ∈ ps → (duration p ≤ M)%Z) ∧
  (M = acc ∨ ∃ p, p ∈ ps ∧ duration p = M).
Proof.
  revert acc. induction ps as [|q ps IH]; intros acc; simpl.
  - split; [lia|]. split; [|by left]. intros p Hp. by apply elem_of_nil in Hp.
  - destruct (acc <? duration q)%Z eqn:E.
    + apply Z.ltb_lt in E. destruct (IH (duration q)) as (H1 & H2 & H3).
      split; [lia|]. split.
      * intros p Hp. apply elem_of_cons in Hp as [->|Hp]; [done|by apply H2].
      * right. destruct H3 as [H3|(p & Hp & H3)].
        -- exists q. split; [by left|done].
        -- exists p. split; [by right|done].
    + apply Z.ltb_ge in E. destruct (IH acc) as (H1 & H2 & H3).
      split; [done|]. split.
      * intros p Hp. apply elem_of_cons in Hp as [->|Hp]; [lia|by apply H2].
      * destruct H3 as [H3|(p & Hp & H3)]; [by left|].
        right. exists p. split; [by right|done].
Qed.

(** The loop over the projects finds the largest duration (0 when no
    duration is positive, in particular when there is no project). *)
Lemma max_project_length_spec (ps : list Project) :
  (∀ p, p ∈ ps → (duration p ≤ max_project_length ps)%Z) ∧
  ((∃ p, p ∈ ps ∧ duration p = max_project_length ps) ∨ max_project_length ps = 0%Z).
Proof.
  destruct (max_project_length_from 0 ps) as (_ & H2 & H3).
  split; [done|]. destruct H3 as [H3|H3]; [by right|by left].
Qed.

Section Budget.
Context {L : Libm} {R : NumpyRandom}.

(** The budget array: one entry per period, each on the line
    [base_budget + y * yearly_budget_increase]. *)
Lemma linear_budget_Ok (param : InstanceParameters rng) (budget_period : Z) (b : list Q) :
  linear_budget param budget_period = Ok b →
  (0 ≤ budget_period)%Z ∧ length b = Z.to_nat budget_period ∧
  ∀ y, (y < Z.to_nat budget_period)%nat →
       b !! y = Some (base_budget param
                      + inject_Z (Z.of_nat y) * yearly_budget_increase param).
Proof.
  unfold linear_budget, np_zeros. destruct (budget_period <? 0)%Z eqn:E; [done|].
  apply Z.ltb_ge in E. simpl. intros H.
  pose (I := λ (done : list nat) (st : list Q),
          length st = Z.to_nat budget_period ∧
          ∀ y, y ∈ done →
               st !! y = Some (base_budget param
                               + inject_Z (Z.of_nat y) * yearly_budget_increase param)).
  assert (HI : I (range budget_period) b).
  { eapply for_each_inv; [| |exact H].
    - split; [by rewrite length_replicate|]. intros y Hy. by apply elem_of_nil in Hy.
    - intros done x rest st st' El [Hlen Hdone] Hstep.
      apply seq_split_position in El as [-> Hx].
      rewrite setitem_nat in Hstep by lia. injection Hstep as <-.
      split; [by rewrite length_insert|].
      intros y Hy. apply elem_of_app in Hy as [Hy|Hy].
      + destruct (decide (y = length done)) as [->|Hne].
        * by rewrite list_lookup_insert_eq by lia.
        * rewrite list_lookup_insert_ne by done. by apply Hdone.
      + apply list_elem_of_singleton in Hy as ->.
        by rewrite list_lookup_insert_eq by lia. }
  destruct HI as [Hlen Hall]. split; [done|]. split; [done|].
  intros y Hy. apply Hall. unfold range. apply elem_of_seq. lia.
Qed.

(** What a completed call of [generate_instance] returns. *)
Lemma generate_instance_Ok (fuel : nat) (param : InstanceParameters rng) (seed : Z)
    (name : string) (g g' : rng) (inst : ProjectProblemInstance rng)
    (param' : InstanceParameters rng) :
  generate_instance fuel param seed name g = Ok (inst, param', g') →
  ∃ ss g1,
    create_random_projects_from_param fuel param seed g = Ok (projects inst, ss, g1) ∧
    param' = set_max_proj_length param (max_project_length (projects inst)) ∧
    parameters inst = param' ∧
    linear_budget param'
      (planning_window param + max_project_length (projects inst)) = Ok (budget inst) ∧
    initiation_budget inst
      = map (λ b, b * initiation_max_proportion param) (budget inst) ∧
    ongoing_budget inst
      = map (λ b, b * ongoing_max_proportion param) (budget inst).
Proof.
  unfold generate_instance. intros H.
  apply bind_Ok in H as ([ps ss] & g1 & Hrun & H).
  apply bind_Ok in H as (b & g2 & Hb & H).
  apply lift_Ok in Hb as [Hb ->].
  apply ret_Ok in H as [[= -> ->] ->]. simpl.
  exists ss, g1. by repeat split.
Qed.

(** C8, as the code has it.  For every instance [generate_instance]
    produces: the budget array has [planning_window + M] entries, where [M]
    is the largest duration of the generated projects; [budget[y] ==
    base_budget + y * yearly_budget_increase] at every index; the array is
    non-decreasing when [yearly_budget_increase >= 0]; and the initiation
    and ongoing budgets are the budget array multiplied entry by entry by
    their proportions. *)
Theorem generate_instance_budget (fuel : nat) (param : InstanceParameters rng) (seed : Z)
    (name : string) (g g' : rng) (inst : ProjectProblemInstance rng)
    (param' : InstanceParameters rng) :
  generate_instance fuel param seed name g = Ok (inst, param', g') →
  ∃ M : Z,
    (∀ p, p ∈ projects inst → (duration p ≤ M)%Z) ∧
    ((∃ p, p ∈ projects inst ∧ duration p = M) ∨ (projects inst = [] ∧ M = 0%Z)) ∧
    (0 ≤ planning_window param + M)%Z ∧
    length (budget inst) = Z.to_nat (planning_window param + M) ∧
    (∀ y b, budget inst !! y = Some b →
            b == base_budget param
                 + inject_Z (Z.of_nat y) * yearly_budget_increase param) ∧
    (0 <= yearly_budget_increase param →
     ∀ y1 y2 b1 b2, (y1 ≤ y2)%nat →
       budget inst !! y1 = Some b1 → budget inst !! y2 = Some b2 → b1 <= b2) ∧
    initiation_budget inst
      = map (λ b, b * initiation_max_proportion param) (budget inst) ∧
    ongoing_budget inst
      = map (λ b, b * ongoing_max_proportion param) (budget inst).
Proof.
  intros H.
  apply generate_instance_Ok in H as (ss & g1 & Hrun & -> & _ & Hb & Hi & Ho).
  apply linear_budget_Ok in Hb as (Hpos & Hlen & Hline). simpl in Hline.
  exists (max_project_length (projects inst)).
  destruct (max_project_length_spec (projects inst)) as [Hmax Hatt].
  split; [done|]. split.
  { destruct Hatt as [Hatt|Hzero]; [by left|].
    destruct (projects inst) as [|p ps] eqn:E; [by right|].
    left. exists p. split; [by left|].
    unfold create_random_projects_from_param in Hrun.
    eapply create_random_projects_allocated with (p := p) in Hrun as [Hd _]; [|by left].
    specialize (Hmax p ltac:(by left)). lia. }
  split; [done|]. split; [done|].
  assert (Hat : ∀ y b, budget inst !! y = Some b →
            b = base_budget param
                + inject_Z (Z.of_nat y) * yearly_budget_increase param).
  { intros y b Hy. pose proof (lookup_lt_Some _ _ _ Hy) as Hlt.
    rewrite Hline in Hy by lia. by injection Hy as <-. }
  split. { intros y b Hy. by rewrite (Hat y b Hy). }
  split; [|done].
  intros Hinc y1 y2 b1 b2 Hy H1 H2.
  rewrite (Hat y1 b1 H1), (Hat y2 b2 H2).
  assert (inject_Z (Z.of_nat y1) <= inject_Z (Z.of_nat y2)) by (rewrite <- Zle_Qle; lia).
  assert (inject_Z (Z.of_nat y1) * yearly_budget_increase param
          <= inject_Z (Z.of_nat y2) * yearly_budget_increase param)
    by (by apply Qmult_le_compat_r).
  lra.
Qed.

(** C10. A completed call [generate_instance(param, seed)] sets
    [param.max_proj_length] to the largest duration of the generated
    projects and leaves every other attribute of [param] as it was; the
    instance holds that same object. *)
Theorem generate_instance_sets_max_proj_length (fuel : nat) (param : InstanceParameters rng)
    (seed : Z) (name : string) (g g' : rng) (inst : ProjectProblemInstance rng)
    (param' : InstanceParameters rng) :
  generate_instance fuel param seed name g = Ok (inst, param', g') →
  (∃ M : Z, max_proj_length param' = Some M ∧
     (∀ p, p ∈ projects inst → (duration p ≤ M)%Z) ∧
     ((∃ p, p ∈ projects inst ∧ duration p = M) ∨ (projects inst = [] ∧ M = 0%Z))) ∧
  num_projects param' = num_projects param ∧
  planning_window param' = planning_window param ∧
  base_budget param' = base_budget param ∧
  yearly_budget_increase param' = yearly_budget_increase param ∧
  initiation_max_proportion param' = initiation_max_proportion param ∧
  ongoing_max_proportion param' = ongoing_max_proportion param ∧
  prerequisite_tuples param' = prerequisite_tuples param ∧
  exclusion_tuples param' = exclusion_tuples param ∧
  synergy_tuples param' = synergy_tuples param ∧
  discount_rate param' = discount_rate param ∧
  kwargs param' = kwargs param ∧
  parameters inst = param'.
Proof.
  intros H.
  apply generate_instance_Ok in H as (ss & g1 & Hrun & -> & Hp & _).
  split; [|by repeat split].
  exists (max_project_length (projects inst)).
  destruct (max_project_length_spec (projects inst)) as [Hmax Hatt].
  split; [done|]. split; [done|].
  destruct Hatt as [Hatt|Hzero]; [by left|].
  destruct (projects inst) as [|p ps] eqn:E; [by right|].
  left. exists p. split; [by left|].
  unfold create_random_projects_from_param in Hrun.
  eapply create_random_projects_allocated with (p := p) in Hrun as [Hd _]; [|by left].
  specialize (Hmax p ltac:(by left)). lia.
Qed.
End Budget.

(** An instance for one project of duration 1 and a planning window of 3
    periods (seed 10660): four budget periods. *)
Lemma generate_instance_budget_witness :
  ∃ inst param' g',
    @generate_instance Scripted.libm Scripted.numpy
      5 Scripted.growing_budget 10660 "Instance 1" [] = Ok (inst, param', g') ∧
    ∃ M : Z,
      (∀ p, p ∈ projects inst → (duration p ≤ M)%Z) ∧
      ((∃ p, p ∈ projects inst ∧ duration p = M) ∨ (projects inst = [] ∧ M = 0%Z)) ∧
      (0 ≤ planning_window Scripted.growing_budget + M)%Z ∧
      length (budget inst) = Z.to_nat (planning_window Scripted.growing_budget + M) ∧
      (∀ y b, budget inst !! y = Some b →
              b == base_budget Scripted.growing_budget
                   + inject_Z (Z.of_nat y)
                     * yearly_budget_increase Scripted.growing_budget) ∧
      (0 <= yearly_budget_increase Scripted.growing_budget →
       ∀ y1 y2 b1 b2, (y1 ≤ y2)%nat →
         budget inst !! y1 = Some b1 → budget inst !! y2 = Some b2 → b1 <= b2) ∧
      initiation_budget inst
        = map (λ b, b * initiation_max_proportion Scripted.growing_budget) (budget inst) ∧
      ongoing_budget inst
        = map (λ b, b * ongoing_max_proportion Scripted.growing_budget) (budget inst).
Proof.
  eexists _, _, _. split; [vm_compute; reflexivity|].
  eapply (@generate_instance_budget Scripted.libm Scripted.numpy
            5 Scripted.growing_budget 10660 "Instance 1" []).
  vm_compute; reflexivity.
Defined.

(** C8 as stated fails for a negative yearly increase: with a base budget
    of 100 and an increase of -10 the budget of period 1 is below the budget
    of period 0. *)
Lemma budget_decreases_for_negative_increase :
  ∃ inst param' g' b0 b1,
    @generate_instance Scripted.libm Scripted.numpy
      5 Scripted.shrinking_budget 10660 "Instance 1" [] = Ok (inst, param', g') ∧
    budget inst !! 0%nat = Some b0 ∧ budget inst !! 1%nat = Some b1 ∧
    b0 == 100 ∧ b1 == 90 ∧ ¬ b0 <= b1.
Proof.
  eexists _, _, _, _, _. split; [vm_compute; reflexivity|].
  split; [reflexivity|]. split; [reflexivity|].
  split; [vm_compute; reflexivity|]. split; [vm_compute; reflexivity|].
  intros H. vm_compute in H. by apply H.
Qed.

(** The same instance, for the assignment to [max_proj_length]. *)
Lemma generate_instance_sets_max_proj_length_witness :
  ∃ inst param' g',
    @generate_instance Scripted.libm Scripted.numpy
      5 Scripted.growing_budget 10660 "Instance 1" [] = Ok (inst, param', g') ∧
    (∃ M : Z, max_proj_length param' = Some M ∧
       (∀ p, p ∈ projects inst → (duration p ≤ M)%Z) ∧
       ((∃ p, p ∈ projects inst ∧ duration p = M) ∨ (projects inst = [] ∧ M = 0%Z))) ∧
    num_projects param' = num_projects Scripted.growing_budget ∧
    planning_window param' = planning_window Scripted.growing_budget ∧
    base_budget param' = base_budget Scripted.growing_budget ∧
    yearly_budget_increase param' = yearly_budget_increase Scripted.growing_budget ∧
    initiation_max_proportion param' = initiation_max_proportion Scripted.growing_budget ∧
    ongoing_max_proportion param' = ongoing_max_proportion Scripted.growing_budget ∧
    prerequisite_tuples param' = prerequisite_tuples Scripted.growing_budget ∧
    exclusion_tuples param' = exclusion_tuples Scripted.growing_budget ∧
    synergy_tuples param' = synergy_tuples Scripted.growing_budget ∧
    discount_rate param' = discount_rate Scripted.growing_budget ∧
    kwargs param' = kwargs Scripted.growing_budget ∧
    parameters inst = param'.
Proof.
  eexists _, _, _. split; [vm_compute; reflexivity|].
  eapply (@generate_instance_sets_max_proj_length Scripted.libm Scripted.numpy
            5 Scripted.growing_budget 10660 "Instance 1" []).
  vm_compute; reflexivity.
Defined.

(** Without the reseeding the state of the generator shows: the projects
    generated from two different states differ. *)
Lemma generate_projects_depends_on_state :
  @generate_projects Scripted.libm Scripted.numpy 5 1 no_kwargs [0; 1; 2; 2; 1; 2; 2]%Z
  ≠ @generate_projects Scripted.libm Scripted.numpy 5 1 no_kwargs [0; 2; 2; 2; 1; 2; 2]%Z.
Proof. vm_compute. discriminate. Qed.

(** ** Fuel and determinism *)

Section Fuel.
Context {L : Libm} {R : NumpyRandom}.

Lemma extends_refl {A : Type} (r : result A) : extends r r.
Proof. by intros a. Qed.

Lemma bind_extends {A B : Type} (m1 m2 : M A) (k1 k2 : A → M B) (g : rng) :
  (∀ g, extends (m1 g) (m2 g)) → (∀ a g, extends (k1 a g) (k2 a g)) →
  extends (bind m1 k1 g) (bind m2 k2 g).
Proof.
  intros Hm Hk [b g'] H. apply bind_Ok in H as (a & g1 & H1 & H2).
  rewrite (bind_run _ _ _ _ _ (Hm _ _ H1)). by apply Hk.
Qed.

Lemma for_eachM_extends {S A : Type} (f1 f2 : S → A → M S) (l : list A) (s : S) (g : rng) :
  (∀ s x g, extends (f1 s x g) (f2 s x g)) →
  extends (for_eachM f1 l s g) (for_eachM f2 l s g).
Proof.
  intros Hf. revert s g. induction l as [|x l IH]; intros s g; simpl.
  - apply extends_refl.
  - apply bind_extends; [intros g0; apply Hf|intros s' g0; apply IH].
Qed.

(** The steps of a proof that more fuel keeps a result: through [bind] and
    the loops, down to the two [while] loops. *)
Ltac more_fuel lemma :=
  repeat first
    [ apply lemma
    | apply extends_refl
    | apply bind_extends; intros
    | apply for_eachM_extends; intros ].

Lemma redraw_shape_fuel (f f' : nat) (shape std_shape x : Q) (g : rng) :
  (f ≤ f')%nat →
  extends (redraw_shape f shape std_shape x g) (redraw_shape f' shape std_shape x g).
Proof.
  revert f' x g. induction f as [|f IH]; intros f' x g Hle; simpl.
  - destruct (Qltb x 0.01) eqn:E; [done|].
    destruct f'; simpl; rewrite E; apply extends_refl.
  - destruct f' as [|f']; [lia|]. simpl.
    destruct (Qltb x 0.01); [|apply extends_refl].
    apply bind_extends; [intros; apply extends_refl|].
    intros x1 g1. apply IH. lia.
Qed.

Lemma fuzzy_weibull_cost_distribution_fuel (f f' : nat) (T : Q) (D : Z)
    (shape scale std_shape std_scale : Q) (g : rng) :
  (f ≤ f')%nat →
  extends (fuzzy_weibull_cost_distribution f T D shape scale std_shape std_scale g)
          (fuzzy_weibull_cost_distribution f' T D shape scale std_shape std_scale g).
Proof.
  intros Hle. unfold fuzzy_weibull_cost_distribution.
  more_fuel (λ x g, redraw_shape_fuel f f' shape std_shape x g Hle).
Qed.

Lemma create_project_fuel (f f' : nat) (kwargs : Kwargs rng) (cost_dur : list (Z * Z))
    (ps : list Project) (i : nat) (g : rng) :
  (f ≤ f')%nat →
  extends (create_project f kwargs cost_dur ps i g)
          (create_project f' kwargs cost_dur ps i g).
Proof.
  intros Hle. unfold create_project, cost_distribution.
  more_fuel (λ T D a b c d g, fuzzy_weibull_cost_distribution_fuel f f' T D a b c d g Hle).
Qed.

Lemma generate_projects_fuel (f f' : nat) (N : Z) (kwargs : Kwargs rng) (g : rng) :
  (f ≤ f')%nat →
  extends (generate_projects f N kwargs g) (generate_projects f' N kwargs g).
Proof.
  intros Hle. unfold generate_projects. destruct (N <? 0)%Z; [apply extends_refl|].
  more_fuel (λ cd ps i g, create_project_fuel f f' kwargs cd ps i g Hle).
Qed.

Lemma draw_synergy_group_fuel (f f' : nat) (ps : list Project) (ind : list nat)
    (size : Z) (g : rng) :
  (f ≤ f')%nat →
  extends (draw_synergy_group f ps ind size g) (draw_synergy_group f' ps ind size g).
Proof.
  revert f' g. induction f as [|f IH]; intros f' g Hle; [done|].
  destruct f' as [|f']; [lia|]. simpl.
  apply bind_extends; [intros; apply extends_refl|]. intros group g1.
  apply bind_extends; [intros; apply extends_refl|]. intros [] g2.
  - apply IH. lia.
  - apply extends_refl.
Qed.

Lemma synergy_pass_fuel (f f' : nat) (syn : option directives) (ps : list Project)
    (g : rng) :
  (f ≤ f')%nat →
  extends (synergy_pass f syn ps g) (synergy_pass f' syn ps g).
Proof.
  intros Hle. destruct syn as [gs|]; simpl; [|apply extends_refl].
  unfold _generate_synergies_post. apply for_eachM_extends.
  intros ss [size prop] g0. simpl. unfold synergy_round.
  more_fuel (λ ind size g, draw_synergy_group_fuel f f' ps ind size g Hle).
Qed.

(** A completed run stays the same when it is given more fuel. *)
Lemma create_random_projects_fuel (f f' : nat) (N : Z)
    (pre excl syn : option directives) (seed : Z) (kwargs : Kwargs rng) (g : rng) :
  (f ≤ f')%nat →
  extends (create_random_projects f N pre excl syn seed kwargs g)
          (create_random_projects f' N pre excl syn seed kwargs g).
Proof.
  intros Hle. unfold create_random_projects.
  destruct (random_seed seed) as [g0| |]; simpl; [|done..].
  apply bind_extends; [intros; by apply generate_projects_fuel|]. intros ps0 g1.
  apply bind_extends; [intros; apply extends_refl|]. intros ps1 g2.
  apply bind_extends; [intros; apply extends_refl|]. intros ps2 g3.
  apply bind_extends; [intros; by apply synergy_pass_fuel|]. intros ss g4.
  apply extends_refl.
Qed.

End Fuel.


(** ** Two more runs *)

(** The exclusion test of a candidate pair [[a; b]] looks for the position
    [b] in the exclusion list of the project at position [a]; the list
    holds ids, and the id of the project at position [b] is [b + 1]. *)
Lemma group_repeat_pair (ps : list Project) (a b : nat) (pa pb : Project) :
  ps !! a = Some pa → ps !! b = Some pb →
  group_repeat 2 ps [a; b] = Ok (bool_decide (b ∈ exclusion_list pa)).
Proof.
  intros Ha Hb. unfold group_repeat, getitem. simpl. rewrite Ha. simpl.
  destruct (bool_decide (b ∈ exclusion_list pa)); simpl; [done|].
  by rewrite Hb.
Qed.

(** The prerequisite group of the run with seed 174758468: project 1 gets
    project 2 as its successor, project 2 gets project 1 as its
    prerequisite. *)
Example prerequisite_group_of_two :
  ∃ p1 p2 g',
    @create_random_projects Scripted.libm Scripted.numpy
      5 2 (Some [(2%Z, 1)]) None None 174758468 no_kwargs [] = Ok ([p1; p2], [], g') ∧
    successor_list p1 = [2%nat] ∧ prerequisite_list p1 = [] ∧
    successor_list p2 = [] ∧ prerequisite_list p2 = [1%nat].
Proof.
  eexists _, _, _. split; [vm_compute; reflexivity|]. by repeat split.
Qed.

(** * Further properties of the code *)

(** ** datagen.py: the estimate and the degenerate durations *)

Section EstimateAndDurations.
Context {L : Libm} {LL : LibmLaws L} {R : NumpyRandom}.


Lemma redraw_shape_result (fuel : nat) (shape std_shape x x' : Q) (g g' : rng) :
  redraw_shape fuel shape std_shape x g = Ok (x', g') → 0.01 <= x'.
Proof.
  revert x g. induction fuel as [|fuel IH]; intros x g; simpl;
    destruct (Qltb_spec x 0.01) as [Hx|Hx].
  - done.
  - intros [= <- <-]. by apply Qnot_lt_le.
  - intros H. apply bind_Ok in H as (x1 & g1 & _ & H). by eapply IH.
  - intros [= <- <-]. by apply Qnot_lt_le.
Qed.

(** A call that completes for a total [T >= 0] has no negative entry,
    whatever the fuel was. *)
Lemma fuzzy_weibull_cost_distribution_Ok_nonneg (fuel : nat) (T : Q) (D : Z)
    (shape scale std_shape std_scale : Q) (g g' : rng) (costs : list Q) :
  0 <= T →
  fuzzy_weibull_cost_distribution fuel T D shape scale std_shape std_scale g
    = Ok (costs, g') →
  Forall (λ c, 0 <= c) costs.
Proof.
  intros HT H.
  pose proof (fuzzy_weibull_cost_distribution_Ok _ _ _ _ _ _ _ _ _ _ H) as (HD & Hlen & _).
  unfold fuzzy_weibull_cost_distribution in H.
  apply bind_Ok in H as (x0 & g1 & _ & H).
  apply bind_Ok in H as (sh & g2 & Hsh & H).
  apply bind_Ok in H as (s & g3 & _ & H).
  apply bind_Ok in H as (zeros & g4 & Hz & H).
  apply bind_Ok in H as ([[c cum] prev] & g5 & Hloop & H).
  apply bind_Ok in H as (c' & g6 & Hset & H).
  apply ret_Ok in H as [-> _].
  apply lift_Ok in Hz as [Hz _]. apply lift_Ok in Hloop as [Hloop _].
  apply lift_Ok in Hset as [Hset _].
  apply redraw_shape_result in Hsh. pose proof (pymax_lower s 0.1) as Hsc.
  unfold np_zeros in Hz. destruct (D <? 0)%Z; [done|]. injection Hz as <-.
  destruct (weibull_loop_nonneg T D sh (pymax s 0.1) (Z.to_nat (D - 1)) (Z.to_nat D))
    as (c1 & cum1 & prev1 & Hloop1 & Hnn & Hcum); [done|done|lra|lra|lia|].
  unfold range in Hloop. rewrite Hloop in Hloop1. injection Hloop1 as <- <- <-.
  unfold setitem in Hset.
  destruct ((0 <=? D - 1)%Z && (D - 1 <? Z.of_nat (length c))%Z).
  - injection Hset as <-. apply Forall_insert; [done|lra].
  - destruct ((- Z.of_nat (length c) <=? D - 1)%Z && (D - 1 <? 0)%Z); [|done].
    injection Hset as <-. apply Forall_insert; [done|lra].
Qed.

(** A call that completes for an integer total has integer entries. *)
Lemma fuzzy_weibull_cost_distribution_Ok_integers (fuel : nat) (T : Q) (D : Z)
    (shape scale std_shape std_scale : Q) (g g' : rng) (costs : list Q) :
  (∃ z, T == inject_Z z) →
  fuzzy_weibull_cost_distribution fuel T D shape scale std_shape std_scale g
    = Ok (costs, g') →
  Forall (λ c, ∃ z, c == inject_Z z) costs.
Proof.
  intros [z Hz] H.
  apply fuzzy_weibull_cost_distribution_shape in H
    as (HD & c & cum & -> & Hlen & Hlast & Hint & Hsum).
  apply Forall_insert.
  - eapply Forall_impl; [exact Hint|]. intros x [y ->]. by exists y.
  - exists (z - cum)%Z. rewrite Hz. unfold Z.sub.
    rewrite inject_Z_plus, inject_Z_opp. lra.
Qed.

(** X2. A duration below 1 never gives an array: the call does not return
    for any fuel, and once the resampling of the shape has ended it raises
    [ValueError] for a negative duration ([np.zeros]) and [IndexError] for
    the duration 0 (the assignment of the last period). *)
Theorem fuzzy_weibull_cost_distribution_no_period (fuel : nat) (T : Q) (D : Z)
    (shape scale std_shape std_scale : Q) (g : rng) :
  (D ≤ 0)%Z →
  (∀ costs g',
     fuzzy_weibull_cost_distribution fuel T D shape scale std_shape std_scale g
       ≠ Ok (costs, g')) ∧
  ((∃ n, (n ≤ fuel)%nat ∧ 0.01 <= shape_draw n shape std_shape g) →
   fuzzy_weibull_cost_distribution fuel T D shape scale std_shape std_scale g
     = Raise (if (D <? 0)%Z then ValueError else IndexError)).
Proof.
  intros HD. split.
  - intros costs g' H. apply fuzzy_weibull_cost_distribution_Ok in H as [H _]. lia.
  - intros (n & Hn & Hdraw). unfold fuzzy_weibull_cost_distribution.
    destruct (random_normal shape std_shape g) as [x0 g1] eqn:E0.
    rewrite (bind_run _ _ g g1 x0) by (unfold draw; by rewrite E0).
    destruct (redraw_shape_ends fuel shape std_shape x0 g1) as (sh & g2 & Hsh & _).
    { destruct n as [|n]; simpl in Hdraw; rewrite E0 in Hdraw; simpl in Hdraw.
      - by left.
      - right. exists n. split; [lia|done]. }
    rewrite (bind_run _ _ g1 g2 sh) by done.
    destruct (random_normal scale std_scale g2) as [s g3] eqn:E1.
    rewrite (bind_run _ _ g2 g3 s) by (unfold draw; by rewrite E1).
    unfold np_zeros. destruct (D <? 0)%Z eqn:ED; [done|].
    apply Z.ltb_ge in ED. assert (D = 0%Z) as -> by lia. reflexivity.
Qed.
End EstimateAndDurations.


(** A project of duration 0 with total cost 7. *)
Lemma fuzzy_weibull_cost_distribution_no_period_witness :
  (∀ costs g',
     @fuzzy_weibull_cost_distribution Scripted.libm Scripted.numpy
       2 7 0 1.589 0.71 2 0.3 [2; 2]%Z ≠ Ok (costs, g')) ∧
  ((∃ n, (n ≤ 2)%nat ∧ 0.01 <= @shape_draw Scripted.numpy n 1.589 2 [2; 2]%Z) →
   @fuzzy_weibull_cost_distribution Scripted.libm Scripted.numpy
     2 7 0 1.589 0.71 2 0.3 [2; 2]%Z = Raise IndexError).
Proof.
  apply (@fuzzy_weibull_cost_distribution_no_period Scripted.libm Scripted.numpy
           2 7 0 1.589 0.71 2 0.3 [2; 2]%Z).
  lia.
Defined.

(** ** project.py: the projects a run creates *)

Lemma rint_nonneg (x : Q) : 0 <= x → (0 ≤ rint x)%Z.
Proof.
  intros Hx. unfold rint.
  assert (H0 : (0 ≤ Qfloor x)%Z) by (change 0%Z with (Qfloor 0); by apply Qfloor_resp_le).
  destruct (Qltb _ (1 # 2)); [done|].
  destruct (Qltb (1 # 2) _); [lia|]. destruct (Z.even _); lia.
Qed.

Lemma Qsum_inject_Z_bounds (lo hi : Z) (l : list Z) :
  Forall (λ x, (lo ≤ x ≤ hi)%Z) l →
  inject_Z (lo * Z.of_nat (length l)) <= Qsum (map inject_Z l) ∧
  Qsum (map inject_Z l) <= inject_Z (hi * Z.of_nat (length l)).
Proof.
  induction 1 as [|x l Hx _ IH]; simpl.
  - rewrite !Z.mul_0_r. split; apply Qle_refl.
  - destruct IH as [IH1 IH2].
    assert (E : ∀ k, inject_Z (k * Z.pos (Pos.of_succ_nat (length l)))
                     == inject_Z k + inject_Z (k * Z.of_nat (length l))).
    { intros k. rewrite <- inject_Z_plus. f_equiv. lia. }
    rewrite !E.
    assert (inject_Z lo <= inject_Z x) by (rewrite <- Zle_Qle; lia).
    assert (inject_Z x <= inject_Z hi) by (rewrite <- Zle_Qle; lia).
    split; lra.
Qed.

Section Created.
Context {L : Libm} {R : NumpyRandom}.

(** What one pass of the generation loop appends. *)
Lemma create_project_result (fuel : nat) (kwargs : Kwargs rng) (cost_dur : list (Z * Z))
    (before : list Project) (i : nat) (g g' : rng) (p : Project) :
  create_project fuel kwargs cost_dur before i g = Ok (before ++ [p], g') →
  ∃ g1 total_value g2 raw,
    cost_dur !! i = Some (duration p, total_cost p) ∧
    project_id p = (i + 1)%nat ∧
    project_name p = "Project " +:+ pretty (i + 1)%nat ∧
    cost_distribution fuel (inject_Z (total_cost p)) (duration p) g = Ok (cost p, g1) ∧
    random_cost_dur_value (total_cost p) (duration p) kwargs g1 = Ok (total_value, g2) ∧
    cost_distribution fuel total_value (duration p) g2 = Ok (raw, g') ∧
    value p = map (λ v, inject_Z (rint v)) raw.
Proof.
  unfold create_project. intros H.
  apply bind_Ok in H as ([D C] & g0 & Hrow & H). simpl in H.
  apply lift_Ok in Hrow as [Hrow ->]. apply getitem_Ok in Hrow.
  apply bind_Ok in H as (c & g1 & Hc & H).
  apply bind_Ok in H as (tv & g2 & Htv & H).
  apply bind_Ok in H as (raw & g3 & Hv & H).
  apply ret_Ok in H as [E ->]. apply app_inv_head in E. injection E as ->.
  simpl. by exists g1, tv, g2, raw.
Qed.

(** Every project of the array before the passes was appended by the pass
    of the loop for its position, from the rows the sampler gave. *)
Lemma generate_projects_created (fuel : nat) (N : Z) (kwargs : Kwargs rng)
    (ps : list Project) (g g' : rng) :
  generate_projects fuel N kwargs g = Ok (ps, g') →
  (0 ≤ N)%Z ∧ length ps = Z.to_nat N ∧
  ∃ cost_dur g1,
    mvlnorm_generate_costdur N 2.191054 0.246245 6.642006 1.555780 0.374572 g
      = Ok (cost_dur, g1) ∧
    ∀ i p, ps !! i = Some p →
      ∃ before ga gb,
        create_project fuel kwargs cost_dur before i ga = Ok (before ++ [p], gb).
Proof.
  intros H. pose proof (generate_projects_fresh _ _ _ _ _ _ H) as [Hlen _].
  unfold generate_projects in H. destruct (N <? 0)%Z eqn:EN; [done|].
  apply Z.ltb_ge in EN. split; [done|]. split; [done|].
  apply bind_Ok in H as (cost_dur & g1 & Hcd & H).
  exists cost_dur, g1. split; [done|].
  pose (I := λ (done : list nat) (st : list Project),
          length st = length done ∧
          ∀ i p, st !! i = Some p →
            ∃ before ga gb,
              create_project fuel kwargs cost_dur before i ga = Ok (before ++ [p], gb)).
  assert (HI : I (range N) ps); [|by destruct HI].
  eapply for_eachM_inv; [| |exact H].
  - split; [done|]. intros i p Hp. by rewrite lookup_nil in Hp.
  - intros done x rest st st' g0 g0' El [Hl Hall] Hstep.
    apply seq_split_position in El as [-> _].
    pose proof (create_project_fresh _ _ _ _ _ _ _ _ Hstep) as (p & -> & _).
    split; [rewrite !length_app; simpl; lia|].
    intros i q Hq. apply lookup_app_Some in Hq as [Hq|[Hi Hq]]; [by apply Hall|].
    apply list_lookup_singleton_Some in Hq as [Hi' <-].
    replace i with (length done) by lia. by exists st, g0, g0'.
Qed.

(** The same for a completed run: the passes keep the payload. *)
Lemma create_random_projects_created (fuel : nat) (N : Z)
    (pre excl syn : option directives) (seed : Z) (kwargs : Kwargs rng)
    (g g' : rng) (ps : list Project) (ss : list Synergy.t) :
  create_random_projects fuel N pre excl syn seed kwargs g = Ok (ps, ss, g') →
  (0 ≤ N)%Z ∧ length ps = Z.to_nat N ∧
  ∃ g0 cost_dur g1,
    random_seed seed = Ok g0 ∧
    mvlnorm_generate_costdur N 2.191054 0.246245 6.642006 1.555780 0.374572 g0
      = Ok (cost_dur, g1) ∧
    ∀ i p, ps !! i = Some p →
      ∃ before ga gb p0,
        create_project fuel kwargs cost_dur before i ga = Ok (before ++ [p0], gb) ∧
        payload p = payload p0.
Proof.
  intros H.
  apply create_random_projects_stages in H
    as (g0 & ps0 & g1 & ps1 & g2 & g3 & Hseed & H0 & H1 & H2 & _).
  apply generate_projects_created in H0 as (HN & Hlen & cost_dur & g1' & Hcd & Hall).
  apply (exclusion_pass_frame payload) in H1; [|done].
  apply (prerequisite_pass_frame payload) in H2; [|done..].
  rewrite H1 in H2.
  split; [done|]. split.
  { rewrite <- Hlen, <- (length_map payload ps), H2. by rewrite length_map. }
  exists g0, cost_dur, g1'. split; [done|]. split; [done|].
  intros i p Hp.
  assert (Hi : map payload ps0 !! i = Some (payload p)).
  { rewrite <- H2, list_lookup_fmap, Hp. done. }
  rewrite list_lookup_fmap in Hi.
  destruct (ps0 !! i) as [p0|] eqn:E0; [|done].
  destruct (Hall i p0 E0) as (before & ga & gb & Hc).
  exists before, ga, gb, p0. split; [done|]. simpl in Hi. congruence.
Qed.

(** X4. A completed run returns exactly [num_projects] projects (so
    [num_projects] is not negative); the project at position [i] has the id
    [i + 1] and the name ["Project "] followed by that id in decimal. *)
Theorem create_random_projects_ids_and_names (fuel : nat) (N : Z)
    (pre excl syn : option directives) (seed : Z) (kwargs : Kwargs rng)
    (g g' : rng) (ps : list Project) (ss : list Synergy.t) :
  create_random_projects fuel N pre excl syn seed kwargs g = Ok (ps, ss, g') →
  (0 ≤ N)%Z ∧ length ps = Z.to_nat N ∧
  ∀ i p, ps !! i = Some p →
    project_id p = (i + 1)%nat ∧ project_name p = "Project " +:+ pretty (i + 1)%nat.
Proof.
  intros H.
  apply create_random_projects_created in H
    as (HN & Hlen & g0 & cost_dur & g1 & _ & _ & Hall).
  split; [done|]. split; [done|].
  intros i p Hp. destruct (Hall i p Hp) as (before & ga & gb & p0 & Hc & Hpay).
  apply create_project_result in Hc as (_ & _ & _ & _ & _ & Hid & Hname & _).
  injection Hpay as -> -> _ _ _ _. done.
Qed.
End Created.

(** The run with seed 174758468 and two projects. *)
Lemma create_random_projects_ids_and_names_witness :
  ∃ ps ss g',
    @create_random_projects Scripted.libm Scripted.numpy
      5 2 None (Some [(2%Z, 1)]) None 174758468 no_kwargs [] = Ok (ps, ss, g') ∧
    (0 ≤ 2)%Z ∧ length ps = Z.to_nat 2 ∧
    ∀ i p, ps !! i = Some p →
      project_id p = (i + 1)%nat ∧ project_name p = "Project " +:+ pretty (i + 1)%nat.
Proof.
  eexists _, _, _. split; [vm_compute; reflexivity|].
  eapply (@create_random_projects_ids_and_names Scripted.libm Scripted.numpy
            5 2 None (Some [(2%Z, 1)]) None 174758468 no_kwargs []).
  vm_compute; reflexivity.
Defined.

(** ** project.py: the value rule and the profiles *)

Lemma scripted_rvs_draws_spec (n : nat) (low high : Z) (g : list Z) :
  (low < high)%Z →
  length (Scripted.rvs_draws n low high g).1 = n ∧
  Forall (λ x, (low ≤ x < high)%Z) (Scripted.rvs_draws n low high g).1.
Proof.
  intros Hlt. revert g. induction n as [|n IH]; intros g; simpl; [by split|].
  destruct (Scripted.pop g) as [z g1]. specialize (IH g1).
  destruct (Scripted.rvs_draws n low high g1) as [l g2]. simpl in *.
  destruct IH as [IH1 IH2]. split; [by rewrite IH1|].
  constructor; [|done]. pose proof (Z.mod_pos_bound z (high - low)). lia.
Qed.

Lemma scripted_mvn_rows_length (n : nat) (mean : Q * Q) (g : list Z) :
  length (Scripted.mvn_rows n mean g).1 = n.
Proof.
  revert g. induction n as [|n IH]; intros g; simpl; [done|].
  destruct (Scripted.pop g) as [z1 g1]. destruct (Scripted.pop g1) as [z2 g2].
  specialize (IH g2). destruct (Scripted.mvn_rows n mean g2) as [rows g3].
  simpl in *. by rewrite IH.
Qed.

Lemma scripted_sampling_ranges : SamplingRanges Scripted.numpy.
Proof.
  split; simpl.
  - intros g. unfold Scripted.random. destruct (Scripted.pop g) as [z g1]. simpl.
    pose proof (Z.mod_pos_bound z 4 ltac:(lia)) as Hz.
    assert (0 <= inject_Z (z mod 4)) by (change 0 with (inject_Z 0); rewrite <- Zle_Qle; lia).
    assert (inject_Z (z mod 4) < 4).
    { change 4 with (inject_Z 4). rewrite <- Zlt_Qlt. lia. }
    split; [apply Qle_shift_div_l; lra|apply Qlt_shift_div_r; lra].
  - intros low high n g l g'. unfold Scripted.rvs.
    destruct ((n <? 0)%Z || (high <=? low)%Z) eqn:E; [done|].
    apply orb_false_iff in E as [E1 E2]. apply Z.ltb_ge in E1. apply Z.leb_gt in E2.
    intros [= E]. pose proof (scripted_rvs_draws_spec (Z.to_nat n) low high g E2) as H.
    by rewrite E in H.
  - intros mean cov n g rows g'. unfold Scripted.multivariate_normal.
    destruct (n <? 0)%Z eqn:E; [done|]. apply Z.ltb_ge in E.
    intros [= E']. pose proof (scripted_mvn_rows_length (Z.to_nat n) mean g) as H.
    by rewrite E' in H.
Qed.

Lemma toy_exp_nonneg (x : Q) : 0 <= Scripted.toy_exp x.
Proof.
  unfold Scripted.toy_exp. destruct (Qltb_spec x 0) as [H|H].
  - apply Qle_shift_div_l; lra.
  - apply Qnot_lt_le in H. lra.
Qed.

Section ValueRule.
Context {L : Libm} {R : NumpyRandom} {SR : SamplingRanges R}.

(** The draws of the default value distribution: [n] integers from 1 to
    4. *)
Lemma default_value_dist_sum (n : Z) (g g' : rng) (draws : list Q) :
  (0 ≤ n)%Z → default_value_dist n g = Ok (draws, g') →
  inject_Z n <= Qsum draws ∧ Qsum draws <= inject_Z (4 * n).
Proof.
  intros Hn H. unfold default_value_dist in H.
  apply bind_Ok in H as (l & g1 & Hl & H). apply ret_Ok in H as [-> _].
  apply rvs_ok in Hl as [Hlen Hall].
  destruct (Qsum_inject_Z_bounds 1 4 l) as [H1 H2].
  { eapply Forall_impl; [exact Hall|]. simpl. lia. }
  rewrite Hlen, Z2Nat.id in H1, H2 by done.
  by rewrite Z.mul_1_l in H1.
Qed.

Lemma unit_share_bounds (u c f : Q) :
  0 <= u → u < 1 → 0 <= c → 0 <= f → 0 <= u * c * f ∧ u * c * f <= c * f.
Proof.
  intros Hu0 Hu1 Hc Hf.
  assert (Hcf : 0 <= c * f) by (by apply Qmult_le_0_compat).
  assert (E : u * c * f == u * (c * f)) by ring. rewrite E. split.
  - by apply Qmult_le_0_compat.
  - assert (H : u * (c * f) <= 1 * (c * f)) by (apply Qmult_le_compat_r; lra). lra.
Qed.

(** X5. With the default value distribution and factor, the value rule
    gives a project of total cost [c >= 0] and duration [d >= 1] a total
    value between [d - 1] and [2 * c + 4 * (d - 1)]. *)
Theorem random_cost_dur_value_default_range (total_cost duration : Z) (g g' : rng)
    (v : Q) :
  (0 ≤ total_cost)%Z → (1 ≤ duration)%Z →
  random_cost_dur_value total_cost duration no_kwargs g = Ok (v, g') →
  inject_Z (duration - 1) <= v ∧ v <= inject_Z (2 * total_cost + 4 * (duration - 1)).
Proof.
  intros Hc Hd H. unfold random_cost_dur_value in H. simpl in H.
  apply bind_Ok in H as (u & g1 & Hu & H). apply bind_Ok in H as (draws & g2 & Hdr & H).
  apply ret_Ok in H as [-> _].
  unfold draw in Hu. injection Hu as Hu.
  pose proof (random_unit g) as [Hu0 Hu1]. rewrite Hu in Hu0, Hu1. simpl in Hu0, Hu1.
  apply default_value_dist_sum in Hdr as [Hlo Hhi]; [|lia].
  assert (Hc' : 0 <= inject_Z total_cost).
  { change 0 with (inject_Z 0). rewrite <- Zle_Qle. lia. }
  destruct (unit_share_bounds u (inject_Z total_cost) 2 Hu0 Hu1 Hc') as [H1 H2]; [lra|].
  rewrite inject_Z_plus, !inject_Z_mult. rewrite inject_Z_mult in Hhi.
  change (inject_Z 2) with 2. change (inject_Z 4) with 4 in *. split; lra.
Qed.
End ValueRule.

(** The value rule for a total cost of 7 and a duration of 3. *)
Lemma random_cost_dur_value_default_range_witness :
  ∃ v g',
    @random_cost_dur_value Scripted.numpy 7 3 no_kwargs [1; 2; 3]%Z = Ok (v, g') ∧
    inject_Z (3 - 1) <= v ∧ v <= inject_Z (2 * 7 + 4 * (3 - 1)).
Proof.
  eexists _, _. split; [vm_compute; reflexivity|].
  eapply (@random_cost_dur_value_default_range Scripted.numpy scripted_sampling_ranges
            7 3 [1; 2; 3]%Z); [lia|lia|vm_compute; reflexivity].
Defined.

Section Profiles.
Context {L : Libm} {LL : LibmLaws L} {R : NumpyRandom} {SR : SamplingRanges R}.
Hypothesis exp_nonneg : ∀ x, 0 <= math_exp x.

(** The sampler gives non-negative integers: the exponential rounded. *)
Lemma mvlnorm_generate_costdur_nonneg (n : Z) (m1 v1 m2 v2 c : Q) (g g' : rng)
    (cost_dur : list (Z * Z)) :
  mvlnorm_generate_costdur n m1 v1 m2 v2 c g = Ok (cost_dur, g') →
  length cost_dur = Z.to_nat n ∧
  Forall (λ row : Z * Z, (0 ≤ row.1)%Z ∧ (0 ≤ row.2)%Z) cost_dur.
Proof.
  unfold mvlnorm_generate_costdur. intros H.
  apply bind_Ok in H as (data & g1 & Hdata & H). apply ret_Ok in H as [-> _].
  apply multivariate_normal_ok in Hdata as [_ Hlen].
  split; [by rewrite length_map|].
  apply Forall_fmap, Forall_forall. intros row _. simpl.
  split; apply rint_nonneg, exp_nonneg.
Qed.

(** With the default value distribution and a factor that is not negative
    the value rule gives a total value that is not negative. *)
Lemma random_cost_dur_value_nonneg (total_cost duration : Z) (kwargs : Kwargs rng)
    (g g' : rng) (v : Q) :
  (0 ≤ total_cost)%Z → (1 ≤ duration)%Z →
  value_dist kwargs = None → 0 <= default 2 (factor kwargs) →
  random_cost_dur_value total_cost duration kwargs g = Ok (v, g') → 0 <= v.
Proof.
  intros Hc Hd Hvd Hf H. unfold random_cost_dur_value in H. rewrite Hvd in H. simpl in H.
  apply bind_Ok in H as (u & g1 & Hu & H). apply bind_Ok in H as (draws & g2 & Hdr & H).
  apply ret_Ok in H as [-> _].
  unfold draw in Hu. injection Hu as Hu.
  pose proof (random_unit g) as [Hu0 Hu1]. rewrite Hu in Hu0, Hu1. simpl in Hu0, Hu1.
  apply default_value_dist_sum in Hdr as [Hlo _]; [|lia].
  assert (Hc' : 0 <= inject_Z total_cost).
  { change 0 with (inject_Z 0). rewrite <- Zle_Qle. lia. }
  destruct (unit_share_bounds u (inject_Z total_cost) _ Hu0 Hu1 Hc' Hf) as [H1 _].
  assert (0 <= inject_Z (duration - 1)).
  { change 0 with (inject_Z 0). rewrite <- Zle_Qle. lia. }
  lra.
Qed.

End Profiles.


(** ** project.py: the structure of the relations *)

Lemma add_exclusion_ids (ps ps' : list Project) (a b : nat) :
  Forall ids_from_one ps → add_exclusion ps a b = Ok ps' → Forall ids_from_one ps'.
Proof.
  unfold add_exclusion. intros Hps H.
  apply result_bind_Ok in H as (p & Hp & [= <-]). apply getitem_Ok in Hp.
  apply Forall_insert; [done|].
  rewrite Forall_forall in Hps. specialize (Hps p (list_elem_of_lookup_2 _ _ _ Hp)).
  unfold ids_from_one in *. simpl. rewrite !Forall_app in *.
  destruct Hps as (H1 & H2 & H3). repeat split; try done.
  apply Forall_singleton. lia.
Qed.

Lemma add_successor_ids (ps ps' : list Project) (a b : nat) :
  Forall ids_from_one ps → add_successor ps a b = Ok ps' → Forall ids_from_one ps'.
Proof.
  unfold add_successor. intros Hps H.
  apply result_bind_Ok in H as (p & Hp & H). apply getitem_Ok in Hp.
  apply result_bind_Ok in H as (q & Hq & [= <-]). apply getitem_Ok in Hq.
  assert (Hps1 : Forall ids_from_one
            (<[a := set_successor_list p (successor_list p ++ [(b + 1)%nat])]> ps)).
  { apply Forall_insert; [done|].
    rewrite Forall_forall in Hps. specialize (Hps p (list_elem_of_lookup_2 _ _ _ Hp)).
    unfold ids_from_one in *. simpl. rewrite !Forall_app in *.
    destruct Hps as (H1 & H2 & H3). repeat split; try done.
    apply Forall_singleton. lia. }
  apply Forall_insert; [done|].
  rewrite Forall_forall in Hps1. specialize (Hps1 q (list_elem_of_lookup_2 _ _ _ Hq)).
  unfold ids_from_one in *. simpl. rewrite !Forall_app in *.
  destruct Hps1 as (H1 & H2 & H3). repeat split; try done.
  apply Forall_singleton. lia.
Qed.

Lemma exclude_group_ids (size : Z) (ps ps' : list Project) (group : list nat) :
  Forall ids_from_one ps → exclude_group size ps group = Ok ps' → Forall ids_from_one ps'.
Proof.
  intros Hps. unfold exclude_group.
  apply (for_each_preserves (Forall ids_from_one)); [done|].
  intros st i st' Hst H. apply result_bind_Ok in H as (ind1 & _ & H).
  revert H. apply (for_each_preserves (Forall ids_from_one)); [done|].
  intros st1 j st1' Hst1 H. destruct (decide (i = j)); [by injection H as <-|].
  apply result_bind_Ok in H as (ind2 & _ & H). by eapply add_exclusion_ids.
Qed.

Lemma link_prerequisite_group_ids (size : Z) (ps ps' : list Project) (group : list nat) :
  Forall ids_from_one ps → link_prerequisite_group size ps group = Ok ps' →
  Forall ids_from_one ps'.
Proof.
  intros Hps H. unfold link_prerequisite_group in H.
  apply result_bind_Ok in H as (prereq & _ & H). revert H.
  apply (for_each_preserves (Forall ids_from_one)); [done|].
  intros st i st' Hst H. apply result_bind_Ok in H as (succ & _ & H).
  by eapply add_successor_ids.
Qed.

Section RunStructure.
Context {L : Libm} {R : NumpyRandom} {RL : NumpyRandomLaws R}.

Lemma exclusion_pass_ids (t : option directives) (ps ps' : list Project) (g g' : rng) :
  Forall ids_from_one ps → exclusion_pass t ps g = Ok (ps', g') → Forall ids_from_one ps'.
Proof.
  intros Hps. destruct t as [t|]; simpl; [|by intros [= <- <-]].
  unfold _generate_exclusions_post. intros H.
  apply bind_Ok in H as ([ind ps1] & g1 & H & Hret).
  apply ret_Ok in Hret as [-> _]. simpl. revert H.
  apply (for_eachM_preserves (λ st, Forall ids_from_one st.2)); [done|].
  intros [ind0 st] [size prop] [ind0' st'] g0 g0' Hst H. simpl in *.
  apply bind_Ok in H as (ng & ? & _ & H).
  apply bind_Ok in H as (groups & ? & _ & H).
  apply bind_Ok in H as (st1 & ? & Hloop & H).
  apply ret_Ok in H as [[= -> ->] _]. apply lift_Ok in Hloop as [Hloop _].
  revert Hloop.
  apply (for_each_preserves (Forall ids_from_one)); [done|].
  intros st2 grp st2' Hst2 H. by eapply exclude_group_ids.
Qed.

Lemma prerequisite_pass_ids (t : option directives) (ps ps' : list Project) (g g' : rng) :
  Forall ids_from_one ps → prerequisite_pass t ps g = Ok (ps', g') → Forall ids_from_one ps'.
Proof.
  intros Hps. destruct t as [t|]; simpl; [|by intros [= <- <-]].
  unfold _generate_prerequisites_post. intros H.
  apply bind_Ok in H as ([ind ps1] & g1 & H & Hret).
  apply ret_Ok in Hret as [-> _]. simpl. revert H.
  apply (for_eachM_preserves (λ st, Forall ids_from_one st.2)); [done|].
  intros [ind0 st] [size prop] [ind0' st'] g0 g0' Hst H. simpl in *.
  apply bind_Ok in H as (ng & ? & _ & H).
  apply bind_Ok in H as (groups & ? & _ & H).
  apply bind_Ok in H as (st1 & ? & Hloop & H).
  apply ret_Ok in H as [[= -> ->] _]. apply lift_Ok in Hloop as [Hloop _].
  revert Hloop.
  apply (for_each_preserves (Forall ids_from_one)); [done|].
  intros st2 grp st2' Hst2 H. by eapply link_prerequisite_group_ids.
Qed.

(** The relation lists of a completed run hold ids from 1 on only. *)
Lemma create_random_projects_ids_from_one (fuel : nat) (N : Z)
    (pre excl syn : option directives) (seed : Z) (kwargs : Kwargs rng)
    (g g' : rng) (ps : list Project) (ss : list Synergy.t) :
  create_random_projects fuel N pre excl syn seed kwargs g = Ok (ps, ss, g') →
  Forall ids_from_one ps.
Proof.
  intros H.
  apply create_random_projects_stages in H
    as (g0 & ps0 & g1 & ps1 & g2 & g3 & _ & H0 & H1 & H2 & _).
  apply generate_projects_fresh in H0 as [_ Hfresh].
  eapply prerequisite_pass_ids; [|exact H2].
  eapply exclusion_pass_ids; [|exact H1].
  apply Forall_forall. intros p Hp. apply list_elem_of_lookup in Hp as [i Hi].
  destruct (Hfresh i p Hi) as (_ & Hp1 & Hp2 & Hp3 & _).
  unfold ids_from_one. rewrite Hp1, Hp2, Hp3. constructor.
Qed.

(** An entry of a relation list of a completed run, as a pair of
    positions. *)
Lemma relation_entry (f : Project → list nat) (ps : list Project) (a : nat) (p : Project)
    (id : nat) :
  (∀ q, ids_from_one q → Forall (λ id, (1 ≤ id)%nat) (f q)) →
  Forall ids_from_one ps → ps !! a = Some p → id ∈ f p →
  ∃ b, id = (b + 1)%nat ∧ related (map f ps) a b.
Proof.
  intros Hf Hps Hp Hid. rewrite Forall_forall in Hps.
  specialize (Hf p (Hps p (list_elem_of_lookup_2 _ _ _ Hp))).
  rewrite Forall_forall in Hf. specialize (Hf id Hid).
  exists (id - 1)%nat. split; [lia|].
  apply (related_lookup f ps a (id - 1) p Hp). by replace (id - 1 + 1)%nat with id by lia.
Qed.

Lemma ids_from_one_lists (q : Project) :
  ids_from_one q →
  Forall (λ id, (1 ≤ id)%nat) (prerequisite_list q) ∧
  Forall (λ id, (1 ≤ id)%nat) (successor_list q) ∧
  Forall (λ id, (1 ≤ id)%nat) (exclusion_list q).
Proof. unfold ids_from_one. by rewrite !Forall_app. Qed.

(** X6. Referential integrity: in a completed run every entry of a
    prerequisite, successor or exclusion list is the id of a project of the
    array, the one at the position [id - 1]. *)
Theorem create_random_projects_ids_resolve (fuel : nat) (N : Z)
    (pre excl syn : option directives) (seed : Z) (kwargs : Kwargs rng)
    (g g' : rng) (ps : list Project) (ss : list Synergy.t) (p : Project) (id : nat) :
  create_random_projects fuel N pre excl syn seed kwargs g = Ok (ps, ss, g') →
  p ∈ ps →
  id ∈ prerequisite_list p ++ successor_list p ++ exclusion_list p →
  (1 ≤ id ≤ length ps)%nat ∧
  ∃ q, ps !! (id - 1)%nat = Some q ∧ project_id q = id ∧ q ≠ p.
Proof.
  intros H Hp Hid. apply list_elem_of_lookup in Hp as [a Ha].
  pose proof (create_random_projects_ids_from_one _ _ _ _ _ _ _ _ _ _ _ H) as Hids.
  apply create_random_projects_relations in H
    as (g0 & ps0 & g1 & ps1 & g2 & g3 & groups_e & groups_p &
        _ & _ & _ & Hge & _ & [_ Hbp] & Hpid & He & Hs & Hpr).
  apply pass_groups_spec in Hge as [_ Hbe].
  assert (Hb : ∃ b, id = (b + 1)%nat ∧ (b < length ps)%nat ∧ b ≠ a).
  { rewrite !elem_of_app in Hid. destruct Hid as [Hid|[Hid|Hid]].
    - eapply (relation_entry prerequisite_list) in Hid as (b & -> & Hrel);
        [|intros q Hq; by apply ids_from_one_lists in Hq as (? & ? & ?)|done|done].
      apply Hpr in Hrel as (G & HG & [Hb _] & _ & Hne). exists b.
      split; [done|]. split; [by eapply Hbp|done].
    - eapply (relation_entry successor_list) in Hid as (b & -> & Hrel);
        [|intros q Hq; by apply ids_from_one_lists in Hq as (? & ? & ?)|done|done].
      apply Hs in Hrel as (G & HG & _ & Hb & Hne). exists b.
      split; [done|]. split; [by eapply Hbp|done].
    - eapply (relation_entry exclusion_list) in Hid as (b & -> & Hrel);
        [|intros q Hq; by apply ids_from_one_lists in Hq as (? & ? & ?)|done|done].
      apply He in Hrel as (G & HG & _ & Hb & Hne). exists b.
      split; [done|]. split; [by eapply Hbe|done]. }
  destruct Hb as (b & -> & Hlt & Hne). split; [lia|].
  destruct (lookup_lt_is_Some_2 ps b Hlt) as [q Hq].
  exists q. replace (b + 1 - 1)%nat with b by lia.
  split; [done|]. split; [by apply Hpid|].
  intros ->. pose proof (Hpid _ _ Hq). pose proof (Hpid _ _ Ha). lia.
Qed.
End RunStructure.

(** The run with seed 174758468: two projects that exclude each other. *)
Lemma create_random_projects_ids_resolve_witness :
  ∃ ps ss g' p,
    @create_random_projects Scripted.libm Scripted.numpy
      5 2 None (Some [(2%Z, 1)]) None 174758468 no_kwargs [] = Ok (ps, ss, g') ∧
    ps !! 0%nat = Some p ∧
    2%nat ∈ prerequisite_list p ++ successor_list p ++ exclusion_list p ∧
    (1 ≤ 2 ≤ length ps)%nat ∧
    ∃ q, ps !! (2 - 1)%nat = Some q ∧ project_id q = 2%nat ∧ q ≠ p.
Proof.
  eexists _, _, _, _. split; [vm_compute; reflexivity|]. split; [reflexivity|].
  split; [simpl; by left|].
  eapply (@create_random_projects_ids_resolve Scripted.libm Scripted.numpy
            scripted_numpy_laws
            5 2 None (Some [(2%Z, 1)]) None 174758468 no_kwargs []);
    [vm_compute; reflexivity|by left|simpl; by left].
Defined.

Section RelationShape.
Context {L : Libm} {R : NumpyRandom} {RL : NumpyRandomLaws R}.

(** X7. In a completed run the exclusion relation is transitive on distinct
    projects: the exclusion groups are disjoint, and every member of a group
    excludes every other member. *)
Theorem exclusion_groups_are_cliques (fuel : nat) (N : Z)
    (pre excl syn : option directives) (seed : Z) (kwargs : Kwargs rng)
    (g g' : rng) (ps : list Project) (ss : list Synergy.t)
    (i j k : nat) (pi pj pk : Project) :
  create_random_projects fuel N pre excl syn seed kwargs g = Ok (ps, ss, g') →
  ps !! i = Some pi → ps !! j = Some pj → ps !! k = Some pk →
  project_id pj ∈ exclusion_list pi → project_id pk ∈ exclusion_list pj → i ≠ k →
  project_id pk ∈ exclusion_list pi.
Proof.
  intros H Hi Hj Hk.
  apply create_random_projects_relations in H
    as (g0 & ps0 & g1 & ps1 & g2 & g3 & groups_e & groups_p &
        _ & _ & _ & Hge & _ & _ & Hid & He & _ & _).
  apply pass_groups_spec in Hge as [Hnd _].
  rewrite (Hid j pj Hj), (Hid k pk Hk).
  rewrite <- (related_lookup exclusion_list ps i j pi Hi).
  rewrite <- (related_lookup exclusion_list ps j k pj Hj).
  rewrite <- (related_lookup exclusion_list ps i k pi Hi).
  rewrite (He i j), (He j k), (He i k).
  intros (G & HG & HiG & HjG & _) (G' & HG' & HjG' & HkG' & _) Hik.
  assert (G = G') as <- by (by apply (groups_share_member groups_e G G' j)).
  exists G. by repeat split.
Qed.

(** X8. In a completed run the prerequisite relation has depth one and
    follows the order of the array: a project with a prerequisite comes
    after it, has no other prerequisite and no successor, and its
    prerequisite has no prerequisite. *)
Theorem prerequisites_have_depth_one (fuel : nat) (N : Z)
    (pre excl syn : option directives) (seed : Z) (kwargs : Kwargs rng)
    (g g' : rng) (ps : list Project) (ss : list Synergy.t)
    (i j : nat) (pi pj : Project) :
  create_random_projects fuel N pre excl syn seed kwargs g = Ok (ps, ss, g') →
  ps !! i = Some pi → ps !! j = Some pj →
  project_id pj ∈ prerequisite_list pi →
  (j < i)%nat ∧
  (∀ id, id ∈ prerequisite_list pi → id = project_id pj) ∧
  successor_list pi = [] ∧
  prerequisite_list pj = [].
Proof.
  intros H Hi Hj.
  pose proof (create_random_projects_ids_from_one _ _ _ _ _ _ _ _ _ _ _ H) as Hids.
  apply create_random_projects_relations in H
    as (g0 & ps0 & g1 & ps1 & g2 & g3 & groups_e & groups_p &
        _ & _ & _ & _ & _ & [Hnd _] & Hid & _ & Hs & Hp).
  rewrite (Hid j pj Hj).
  rewrite <- (related_lookup prerequisite_list ps i j pi Hi), (Hp i j).
  intros (G & HG & [HjG Hmin] & HiG & Hne).
  split; [specialize (Hmin i HiG); lia|]. split; [|split].
  - intros id Hin.
    eapply (relation_entry prerequisite_list) in Hin as (b & -> & Hrel);
      [|intros q Hq; by apply ids_from_one_lists in Hq as (? & ? & ?)|done|done].
    apply Hp in Hrel as (G' & HG' & [HbG' Hmin'] & HiG' & _).
    assert (G = G') as <- by (by apply (groups_share_member groups_p G G' i)).
    specialize (Hmin b HbG'). specialize (Hmin' j HjG). lia.
  - destruct (successor_list pi) as [|id l] eqn:E; [done|]. exfalso.
    assert (Hin : id ∈ successor_list pi) by (rewrite E; by left).
    eapply (relation_entry successor_list) in Hin as (b & -> & Hrel);
      [|intros q Hq; by apply ids_from_one_lists in Hq as (? & ? & ?)|done|done].
    apply Hs in Hrel as (G' & HG' & [HiG' Hmin'] & _ & _).
    assert (G = G') as <- by (by apply (groups_share_member groups_p G G' i)).
    specialize (Hmin i HiG). specialize (Hmin' j HjG). lia.
  - destruct (prerequisite_list pj) as [|id l] eqn:E; [done|]. exfalso.
    assert (Hin : id ∈ prerequisite_list pj) by (rewrite E; by left).
    eapply (relation_entry prerequisite_list) in Hin as (b & -> & Hrel);
      [|intros q Hq; by apply ids_from_one_lists in Hq as (? & ? & ?)|done|done].
    apply Hp in Hrel as (G' & HG' & [HbG' Hmin'] & HjG' & Hne').
    assert (G = G') as <- by (by apply (groups_share_member groups_p G G' j)).
    specialize (Hmin b HbG'). specialize (Hmin' j HjG). lia.
Qed.
End RelationShape.

Lemma replayed_numpy_laws : NumpyRandomLaws Replayed.numpy.
Proof.
  destruct scripted_numpy_laws as [H1 H2 H3]. split; [exact H1|exact H2|exact H3].
Qed.

(** Three projects in one exclusion group (seed 2863311530, a tape of
    twos). *)
Lemma exclusion_groups_are_cliques_witness :
  ∃ ps ss g' pi pj pk,
    @create_random_projects Scripted.libm Replayed.numpy
      5 3 None (Some [(3%Z, 1)]) None 2863311530 no_kwargs [] = Ok (ps, ss, g') ∧
    ps !! 0%nat = Some pi ∧ ps !! 1%nat = Some pj ∧ ps !! 2%nat = Some pk ∧
    project_id pj ∈ exclusion_list pi ∧ project_id pk ∈ exclusion_list pj ∧
    project_id pk ∈ exclusion_list pi.
Proof.
  eexists _, _, _, _, _, _. split; [vm_compute; reflexivity|].
  split; [reflexivity|]. split; [reflexivity|]. split; [reflexivity|].
  assert (H1 : 2%nat ∈ [3; 2]%nat) by (right; by left).
  assert (H2 : 3%nat ∈ [3; 1]%nat) by (by left).
  split; [exact H1|]. split; [exact H2|].
  eapply (@exclusion_groups_are_cliques Scripted.libm Replayed.numpy replayed_numpy_laws
            5 3 None (Some [(3%Z, 1)]) None 2863311530 no_kwargs [] _ _ _
            0%nat 1%nat 2%nat);
    [vm_compute; reflexivity|reflexivity|reflexivity|reflexivity|exact H1|exact H2|done].
Defined.

(** Two projects in one prerequisite group (seed 174758468). *)
Lemma prerequisites_have_depth_one_witness :
  ∃ ps ss g' pi pj,
    @create_random_projects Scripted.libm Scripted.numpy
      5 2 (Some [(2%Z, 1)]) None None 174758468 no_kwargs [] = Ok (ps, ss, g') ∧
    ps !! 1%nat = Some pi ∧ ps !! 0%nat = Some pj ∧
    project_id pj ∈ prerequisite_list pi ∧
    (0 < 1)%nat ∧
    (∀ id, id ∈ prerequisite_list pi → id = project_id pj) ∧
    successor_list pi = [] ∧
    prerequisite_list pj = [].
Proof.
  eexists _, _, _, _, _. split; [vm_compute; reflexivity|].
  split; [reflexivity|]. split; [reflexivity|].
  assert (H1 : 1%nat ∈ [1%nat]) by (by left).
  split; [exact H1|].
  eapply (@prerequisites_have_depth_one Scripted.libm Scripted.numpy scripted_numpy_laws
            5 2 (Some [(2%Z, 1)]) None None 174758468 no_kwargs [] _ _ _ 1%nat 0%nat);
    [vm_compute; reflexivity|reflexivity|reflexivity|exact H1].
Defined.

(** ** project.py: how many projects a pass needs *)

Lemma reshape_length {A : Type} (rows cols : nat) (l : list A) :
  length (reshape rows cols l) = rows.
Proof.
  revert l. induction rows as [|rows IH]; intros l; simpl; [done|]. by rewrite IH.
Qed.

Lemma NoDup_bounded_length (l : list nat) (n : nat) :
  NoDup l → (∀ x, x ∈ l → (x < n)%nat) → (length l ≤ n)%nat.
Proof.
  intros Hnd Hb.
  assert (Hsub : l ⊆+ seq 0 n).
  { apply NoDup_submseteq; [done|]. intros x Hx. apply elem_of_seq. specialize (Hb x Hx). lia. }
  apply submseteq_length in Hsub. by rewrite length_seq in Hsub.
Qed.

Section Capacity.
Context {L : Libm} {R : NumpyRandom} {RL : NumpyRandomLaws R}.

(** One draw of groups: [num_groups] groups, [num_groups * size] members. *)
Lemma choice_groups_count (indices : list nat) (n size : Z) (g g' : rng)
    (groups : list (list nat)) :
  choice_groups indices n size g = Ok (groups, g') →
  (0 ≤ n)%Z ∧ (0 ≤ size)%Z ∧ length groups = Z.to_nat n ∧
  length (concat groups) = (Z.to_nat n * Z.to_nat size)%nat.
Proof.
  unfold choice_groups. destruct ((n <? 0)%Z || (size <? 0)%Z) eqn:E; [done|].
  apply orb_false_iff in E as [En Es]. apply Z.ltb_ge in En, Es.
  intros H. apply bind_Ok in H as (flat & g1 & Hflat & H).
  apply ret_Ok in H as [-> _]. apply choice_ok in Hflat as [Hlen _].
  rewrite Z2Nat.inj_mul in Hlen by done.
  split; [done|]. split; [done|]. split; [apply reshape_length|].
  rewrite reshape_concat, length_take. lia.
Qed.

(** The groups of a whole pass hold as many members as its directives ask
    for, and no directive has a size below 1. *)
Lemma drawn_groups_count (N : nat) (gs : directives) (indices : list nat) (g g' : rng)
    (groups : list (list nat)) :
  drawn_groups N gs indices g = Ok (groups, g') →
  length (concat groups) = members_needed N gs ∧
  Forall (λ d : Z * Q, (1 ≤ d.1)%Z) gs.
Proof.
  revert indices g groups. induction gs as [|[size prop] gs IH];
    intros indices g groups H; simpl in H.
  - apply ret_Ok in H as [-> _]. by split.
  - apply bind_Ok in H as (n & g1 & Hn & H).
    apply bind_Ok in H as (groups1 & g2 & H1 & H).
    apply bind_Ok in H as (later & g3 & H2 & H).
    apply ret_Ok in H as [-> ->].
    apply lift_Ok in Hn as [Hn _]. unfold num_groups_of in Hn.
    destruct (size =? 0)%Z eqn:Es; [done|]. apply Z.eqb_neq in Es. injection Hn as <-.
    apply choice_groups_count in H1 as (_ & Hsize & _ & Hcount).
    apply IH in H2 as [Hlater Hsizes].
    split.
    + rewrite concat_app, length_app, Hcount, Hlater. done.
    + constructor; [simpl; lia|done].
Qed.

Lemma pass_groups_capacity (t : option directives) (N : nat) (g g' : rng)
    (groups : list (list nat)) :
  pass_groups t N g = Ok (groups, g') →
  (members_needed N (default [] t) ≤ N)%nat ∧
  Forall (λ d : Z * Q, (1 ≤ d.1)%Z) (default [] t).
Proof.
  intros H. pose proof (pass_groups_spec _ _ _ _ _ H) as [Hnd Hb].
  destruct t as [gs|]; simpl in *.
  - apply drawn_groups_count in H as [Hcount Hsizes]. split; [|done].
    rewrite <- Hcount. apply NoDup_bounded_length; [done|].
    intros x Hx. apply elem_of_concat in Hx as (G & Hx & HG). by eapply Hb.
  - split; [|done]. unfold members_needed. simpl. lia.
Qed.

End Capacity.


(** ** project.py: the exclusion test and the synergy groups *)

(** The exclusion test of a candidate group of at least [size] valid
    positions returns a boolean: whether the exclusion list of some member
    holds the position of a member after it. *)
Lemma group_repeat_spec (size : Z) (ps : list Project) (group : list nat) :
  (Z.to_nat size ≤ length group)%nat →
  (∀ x, x ∈ group → (x < length ps)%nat) →
  ∃ b, group_repeat size ps group = Ok b ∧
       (b = true ↔
        ∃ i j x y p, (i < j < Z.to_nat size)%nat ∧ group !! i = Some x ∧
                     group !! j = Some y ∧ ps !! x = Some p ∧ y ∈ exclusion_list p).
Proof.
  intros Hsize Hvalid. unfold group_repeat.
  pose (I := λ (done : list nat) (b : bool),
          b = true ↔
          ∃ i j x y p, i ∈ done ∧ (i < j < Z.to_nat size)%nat ∧ group !! i = Some x ∧
                       group !! j = Some y ∧ ps !! x = Some p ∧ y ∈ exclusion_list p).
  match goal with |- ∃ b, for_each ?f ?l ?s = _ ∧ _ =>
    destruct (for_each_total I f l s) as (b & Hb & HI) end.
  - split; [done|]. intros (i & j & x & y & p & Hi & _). by apply elem_of_nil in Hi.
  - intros done index rest repeat El HI.
    apply seq_split_position in El as [-> Hindex].
    destruct repeat.
    + exists true. split; [done|]. split; [|done]. intros _.
      destruct HI as [HI _]. destruct (HI eq_refl) as (i & j & x & y & p & Hi & H).
      exists i, j, x, y, p. split; [|done]. apply elem_of_app. by left.
    + destruct (lookup_lt_is_Some_2 group (length done) Hindex) as [x Hx].
      destruct (lookup_lt_is_Some_2 ps x (Hvalid x (list_elem_of_lookup_2 _ _ _ Hx)))
        as [p Hp].
      unfold getitem at 1. rewrite Hx. simpl. unfold getitem at 1. rewrite Hp. simpl.
      pose (J := λ (done' : list nat) (b : bool),
              b = true ↔ ∃ j y, j ∈ done' ∧ group !! j = Some y ∧ y ∈ exclusion_list p).
      match goal with |- ∃ s', for_each ?f ?l ?s = _ ∧ _ =>
        destruct (for_each_total J f l s) as (b' & Hb' & HJ) end.
      * split; [done|]. intros (j & y & Hj & _). by apply elem_of_nil in Hj.
      * intros done' j rest' repeat' El' HJ.
        assert (Hj : j ∈ range_from (length done + 1) size).
        { rewrite El'. apply elem_of_app. right. by left. }
        unfold range_from in Hj. apply elem_of_seq in Hj.
        destruct repeat'.
        -- exists true. split; [done|]. split; [|done]. intros _.
           destruct HJ as [HJ _]. destruct (HJ eq_refl) as (j' & y & Hj' & H).
           exists j', y. split; [|done]. apply elem_of_app. by left.
        -- destruct (lookup_lt_is_Some_2 group j ltac:(lia)) as [y Hy].
           unfold getitem. rewrite Hy. simpl. eexists. split; [done|].
           unfold J. rewrite bool_decide_eq_true. split.
           ++ intros Hin. exists j, y. split; [|done].
              apply elem_of_app. right. by left.
           ++ intros (j' & y' & Hj' & Hy' & Hin).
              apply elem_of_app in Hj' as [Hj'|Hj'].
              ** destruct HJ as [_ HJ]. exfalso.
                 assert (false = true) by (apply HJ; by exists j', y'). done.
              ** apply list_elem_of_singleton in Hj' as ->. congruence.
      * exists b'. split; [done|]. unfold I. unfold J in HJ. rewrite HJ. split.
        -- intros (j & y & Hj & Hy & Hin). unfold range_from in Hj.
           apply elem_of_seq in Hj.
           exists (length done), j, x, y, p.
           split; [apply elem_of_app; right; by left|]. split; [lia|done].
        -- intros (i & j & x' & y & p' & Hi & Hij & Hx' & Hy & Hp' & Hin).
           apply elem_of_app in Hi as [Hi|Hi].
           ++ destruct HI as [_ HI]. exfalso.
              assert (false = true) by (apply HI; by exists i, j, x', y, p'). done.
           ++ apply list_elem_of_singleton in Hi as ->.
              rewrite Hx in Hx'. injection Hx' as <-.
              rewrite Hp in Hp'. injection Hp' as <-.
              exists j, y. split; [|done]. unfold range_from. apply elem_of_seq. lia.
  - exists b. split; [done|]. unfold I in HI. rewrite HI. split.
    + intros (i & j & x & y & p & _ & H). by exists i, j, x, y, p.
    + intros (i & j & x & y & p & Hij & Hx & H). exists i, j, x, y, p.
      split; [|done]. apply elem_of_seq. apply lookup_lt_Some in Hx. lia.
Qed.

(** X10. The exclusion test of the synergy pass, for a candidate group of
    [size] positions of the array: it ends without an exception, and it asks
    for another candidate exactly when the exclusion list of some member
    holds the position (not the id) of a member that comes after it in the
    group. *)
Theorem group_repeat_decides (size : Z) (ps : list Project) (group : list nat) :
  length group = Z.to_nat size →
  (∀ x, x ∈ group → (x < length ps)%nat) →
  ∃ b, group_repeat size ps group = Ok b ∧
       (b = true ↔
        ∃ i j x y p, (i < j)%nat ∧ group !! i = Some x ∧ group !! j = Some y ∧
                     ps !! x = Some p ∧ y ∈ exclusion_list p).
Proof.
  intros Hlen Hvalid.
  destruct (group_repeat_spec size ps group) as (b & Hb & Hiff); [lia|done|].
  exists b. split; [done|]. rewrite Hiff. split.
  - intros (i & j & x & y & p & Hij & H). exists i, j, x, y, p. split; [lia|done].
  - intros (i & j & x & y & p & Hij & Hx & Hy & H). exists i, j, x, y, p.
    split; [|done]. apply lookup_lt_Some in Hy. lia.
Qed.

(** Two projects that exclude each other, as the candidate group
    [[0; 1]]. *)
Lemma group_repeat_decides_witness :
  let ps := [mkProject 1 "Project 1" [7] [4] 1 [] [] [2]%nat 7;
             mkProject 2 "Project 2" [7] [4] 1 [] [] [1]%nat 7] in
  ∃ b, group_repeat 2 ps [0; 1]%nat = Ok b ∧
       (b = true ↔
        ∃ i j x y p, (i < j)%nat ∧ [0; 1]%nat !! i = Some x ∧ [0; 1]%nat !! j = Some y ∧
                     ps !! x = Some p ∧ y ∈ exclusion_list p).
Proof.
  intros ps. apply (group_repeat_decides 2 ps [0; 1]%nat); [reflexivity|].
  intros x Hx. apply elem_of_cons in Hx as [->|Hx]; [simpl; lia|].
  apply list_elem_of_singleton in Hx as ->. simpl. lia.
Defined.

Lemma sum_list_snoc (l : list nat) (n : nat) : sum_list (l ++ [n]) = (sum_list l + n)%nat.
Proof. induction l as [|m l IH]; simpl; lia. Qed.

Section SynergyGroups.
Context {L : Libm} {R : NumpyRandom} {RL : NumpyRandomLaws R}.

(** The rejection loop returns a candidate that the sampler drew and the
    exclusion test let through. *)
Lemma draw_synergy_group_accepted (fuel : nat) (ps : list Project) (indices : list nat)
    (size : Z) (g g' : rng) (group : list nat) :
  draw_synergy_group fuel ps indices size g = Ok (group, g') →
  ∃ ga, choice_group indices size ga = Ok (group, g') ∧
        group_repeat size ps group = Ok false.
Proof.
  revert g. induction fuel as [|fuel IH]; intros g H; simpl in H; [done|].
  apply bind_Ok in H as (cand & g1 & Hc & H).
  apply bind_Ok in H as (b & g2 & Hb & H). apply lift_Ok in Hb as [Hb ->].
  destruct b; [by eapply IH|].
  apply ret_Ok in H as [-> ->]. by exists g.
Qed.

(** What the pass accepts as a synergy group for the directives [gs]:
    distinct positions of the array, as many as a directive asks for, none
    in the exclusion list of a member before it. *)
Lemma synergy_round_group (fuel : nat) (ps : list Project) (size : Z)
    (ss ss' : list Synergy.t) (i : nat) (g g' : rng) :
  synergy_round fuel ps (seq 0 (length ps)) size ss i g = Ok (ss', g') →
  ∃ s, ss' = ss ++ [s] ∧
    length (Synergy.project_ids s) = Z.to_nat size ∧ (0 ≤ size)%Z ∧
    NoDup (Synergy.project_ids s) ∧
    (∀ x, x ∈ Synergy.project_ids s → (x < length ps)%nat) ∧
    group_repeat size ps (Synergy.project_ids s) = Ok false.
Proof.
  unfold synergy_round. intros H.
  apply bind_Ok in H as (group & g1 & Hg & H).
  apply bind_Ok in H as (total & g2 & _ & H).
  apply bind_Ok in H as (v & g3 & _ & H).
  apply ret_Ok in H as [-> _].
  apply draw_synergy_group_accepted in Hg as (ga & Hc & Hrep).
  unfold choice_group in Hc. destruct (size <? 0)%Z eqn:Es; [done|].
  apply Z.ltb_ge in Es. apply choice_ok in Hc as [Hlen Hsub].
  eexists. split; [done|]. simpl.
  split; [done|]. split; [done|]. split; [|split; [|done]].
  - eapply submseteq_NoDup; [exact Hsub|apply NoDup_seq].
  - intros x Hx. eapply elem_of_submseteq in Hx; [|exact Hsub].
    apply elem_of_seq in Hx. lia.
Qed.

End SynergyGroups.


(** ** project_problem_instance.py: the fields of an instance *)

Section InstanceFields.
Context {L : Libm} {R : NumpyRandom}.

(** X12. What a completed call of [generate_instance] puts in the instance:
    the projects and the synergies of [create_random_projects] for the
    fields of the parameters (the budget draws nothing from the generator);
    [num_projects] and [budget_window] are the lengths of the arrays, the
    three budget arrays have the same length; and a project that starts in
    any period of the planning window ends within the budget window. *)
Theorem generate_instance_fields (fuel : nat) (param : InstanceParameters rng) (seed : Z)
    (name : string) (g g' : rng) (inst : ProjectProblemInstance rng)
    (param' : InstanceParameters rng) :
  generate_instance fuel param seed name g = Ok (inst, param', g') →
  create_random_projects fuel (num_projects param) (prerequisite_tuples param)
    (exclusion_tuples param) (synergy_tuples param) seed (kwargs param) g
    = Ok (projects inst, synergies inst, g') ∧
  instance_num_projects inst = length (projects inst) ∧
  length (projects inst) = Z.to_nat (num_projects param) ∧
  budget_window inst = length (budget inst) ∧
  length (initiation_budget inst) = budget_window inst ∧
  length (ongoing_budget inst) = budget_window inst ∧
  instance_planning_window inst = planning_window param ∧
  instance_discount_rate inst = discount_rate param ∧
  identifier inst = name ∧
  ∀ p, p ∈ projects inst →
    (planning_window param + duration p ≤ Z.of_nat (budget_window inst))%Z.
Proof.
  unfold generate_instance, create_random_projects_from_param. intros H.
  apply bind_Ok in H as ([ps ss] & g1 & Hrun & H).
  apply bind_Ok in H as (b & g2 & Hb & H).
  apply lift_Ok in Hb as [Hb ->].
  apply ret_Ok in H as [[= -> ->] ->]. simpl.
  pose proof (create_random_projects_payload _ _ _ _ _ _ _ _ _ _ _ Hrun) as [Hlen _].
  apply linear_budget_Ok in Hb as (Hpos & Hblen & _). simpl in Hpos, Hblen.
  rewrite !length_map.
  repeat (split; [done|]).
  intros p Hp. destruct (max_project_length_spec ps) as [Hmax _].
  specialize (Hmax p Hp). lia.
Qed.
End InstanceFields.

(** The instance for one project and a planning window of 3 periods (seed
    10660). *)
Lemma generate_instance_fields_witness :
  ∃ inst param' g',
    @generate_instance Scripted.libm Scripted.numpy
      5 Scripted.growing_budget 10660 "Instance 1" [] = Ok (inst, param', g') ∧
    @create_random_projects Scripted.libm Scripted.numpy 5 1 None None None 10660 no_kwargs []
      = Ok (projects inst, synergies inst, g') ∧
    instance_num_projects inst = length (projects inst) ∧
    length (projects inst) = Z.to_nat 1 ∧
    budget_window inst = length (budget inst) ∧
    length (initiation_budget inst) = budget_window inst ∧
    length (ongoing_budget inst) = budget_window inst ∧
    instance_planning_window inst = 3%Z ∧
    instance_discount_rate inst = 0 ∧
    identifier inst = "Instance 1" ∧
    ∀ p, p ∈ projects inst → (3 + duration p ≤ Z.of_nat (budget_window inst))%Z.
Proof.
  eexists _, _, _. split; [vm_compute; reflexivity|].
  eapply (@generate_instance_fields Scripted.libm Scripted.numpy
            5 Scripted.growing_budget 10660 "Instance 1" []).
  vm_compute; reflexivity.
Defined.

(** ** project.py: the roulette wheel *)

Lemma Qsum_scaled (l : list Q) (s : Q) : Qsum (map (λ w, w / s) l) == Qsum l / s.
Proof.
  unfold Qdiv. induction l as [|w l IH]; simpl.
  - unfold Qsum. simpl. ring.
  - change (Qsum (w :: l)) with (w + Qsum l).
    change (Qsum (w * / s :: map (λ w0, w0 * / s) l))
      with (w * / s + Qsum (map (λ w0, w0 * / s) l)).
    rewrite IH. ring.
Qed.

Lemma scripted_choice_laws : WeightedChoiceLaws Scripted.numpy ScriptedChoice.weighted.
Proof.
  split. intros A a p g g' x. simpl. unfold ScriptedChoice.choice_p.
  destruct (length p =? length a)%nat eqn:E1; [|done]. apply Nat.eqb_eq in E1.
  destruct (forallb (λ q, Qle_bool 0 q) p) eqn:E2; [|done].
  destruct (Qeq_bool (Qsum p) 1) eqn:E3; [|done]. simpl.
  destruct (Scripted.pop g) as [z g1].
  destruct (ScriptedChoice.positive_positions p !! _) as [i|] eqn:Ei; [|done].
  destruct (a !! i) as [y|] eqn:Ey; [|done]. intros [= -> ->].
  split; [done|]. split; [|split].
  - apply Forall_forall. intros q Hq.
    rewrite forallb_forall in E2. apply Qle_bool_iff, E2. by apply list_elem_of_In.
  - by apply Qeq_bool_iff.
  - apply list_elem_of_lookup_2 in Ei. unfold ScriptedChoice.positive_positions in Ei.
    apply list_elem_of_In, filter_In in Ei as [_ Ei].
    destruct (p !! i) as [q|] eqn:Eq; [|done].
    exists i, q. split; [done|]. split; [done|]. by apply Qltb_lt.
Qed.

Section RouletteWheel.
Context {L : Libm} {R : NumpyRandom} {W : WeightedChoice R} {WL : WeightedChoiceLaws R W}.

(** X13. The probabilities of the roulette wheel add up to 1 whenever the
    (scaled) weights do not add up to 0.  A selection that completes means:
    one weight per candidate, a sum of the (scaled) weights that is not 0,
    no (scaled) weight of the opposite sign, and a selected candidate whose
    (scaled) weight is not 0. *)
Theorem roulette_wheel_select_result {A : Type} (candidates : list A) (weights : list Q)
    (alpha : option Q) :
  let scaled := match alpha with
                | None => weights
                | Some a => map (λ w, float_pow w a) weights
                end in
  (¬ Qsum scaled == 0 → Qsum (roulette_probabilities weights alpha) == 1) ∧
  ∀ g g' x, roulette_wheel_select candidates weights alpha g = Ok (x, g') →
    length weights = length candidates ∧
    ¬ Qsum scaled == 0 ∧
    Forall (λ w, 0 <= w / Qsum scaled) scaled ∧
    ∃ i w, candidates !! i = Some x ∧ scaled !! i = Some w ∧ 0 < w / Qsum scaled.
Proof.
  intros scaled.
  assert (Ep : roulette_probabilities weights alpha = map (λ w, w / Qsum scaled) scaled).
  { unfold roulette_probabilities, scaled. by destruct alpha. }
  rewrite Ep.
  assert (Hone : ¬ Qsum scaled == 0 → Qsum (map (λ w, w / Qsum scaled) scaled) == 1).
  { intros Hs. rewrite Qsum_scaled. by field. }
  split; [done|].
  intros g g' x H. unfold roulette_wheel_select in H. rewrite Ep in H.
  apply choice_p_ok in H as (Hlen & Hnn & Hsum & i & q & Hx & Hq & Hpos).
  rewrite length_map in Hlen.
  assert (Hlw : length scaled = length weights).
  { unfold scaled. destruct alpha; [by rewrite length_map|done]. }
  split; [lia|]. split; [|split].
  - intros Hz. rewrite Qsum_scaled in Hsum.
    assert (E : Qsum scaled / Qsum scaled == 0).
    { rewrite Hz. unfold Qdiv. ring. }
    rewrite E in Hsum. discriminate.
  - apply Forall_forall. intros w Hw. rewrite Forall_forall in Hnn.
    apply Hnn. by apply (list_elem_of_fmap_2 (λ w, w / Qsum scaled)).
  - rewrite list_lookup_fmap in Hq.
    destruct (scaled !! i) as [w|] eqn:Ew; [|done]. injection Hq as <-.
    by exists i, w.
Qed.
End RouletteWheel.

(** Three candidates with the weights 1, 0 and 3. *)
Lemma roulette_wheel_select_result_witness :
  ∃ x g',
    @roulette_wheel_select Scripted.libm Scripted.numpy ScriptedChoice.weighted nat
      [10; 20; 30]%nat [1; 0; 3] None [1%Z] = Ok (x, g') ∧
    (¬ Qsum [1; 0; 3] == 0 →
     Qsum (@roulette_probabilities Scripted.libm [1; 0; 3] None) == 1) ∧
    ∀ g g' x,
      @roulette_wheel_select Scripted.libm Scripted.numpy ScriptedChoice.weighted nat
        [10; 20; 30]%nat [1; 0; 3] None g = Ok (x, g') →
      length [1; 0; 3] = length [10; 20; 30]%nat ∧
      ¬ Qsum [1; 0; 3] == 0 ∧
      Forall (λ w, 0 <= w / Qsum [1; 0; 3]) [1; 0; 3] ∧
      ∃ i w, [10; 20; 30]%nat !! i = Some x ∧ [1; 0; 3] !! i = Some w ∧
             0 < w / Qsum [1; 0; 3].
Proof.
  eexists _, _. split; [vm_compute; reflexivity|].
  exact (@roulette_wheel_select_result Scripted.libm Scripted.numpy ScriptedChoice.weighted
           scripted_choice_laws nat [10; 20; 30]%nat [1; 0; 3] None).
Defined.

(** ** project.py: the dictionary of a project *)

Lemma int_tolist_inj (a b : list nat) :
  map (λ x, JInt (Z.of_nat x)) a = map (λ x, JInt (Z.of_nat x)) b → a = b.
Proof.
  revert b.
  induction a as [|x a IH]; intros [|y b] H; simpl in H; try done.
  injection H as Hxy H. f_equal; [lia|by apply IH].
Qed.

Lemma float_tolist_inj (a b : list Q) : map JFloat a = map JFloat b → a = b.
Proof.
  revert b.
  induction a as [|x a IH]; intros [|y b] H; simpl in H; try done.
  injection H as Hxy H. f_equal; [done|by apply IH].
Qed.

(** The items of the dictionary of a project, in insertion order: eight
    distinct keys, so no assignment replaces an earlier one. *)
Lemma project_to_json_dict_items (p : Project) :
  project_to_json_dict p =
  JDict [("id", JInt (Z.of_nat (project_id p))); ("name", JStr (project_name p));
         ("duration", JInt (duration p));
         ("prerequisites", int_tolist (prerequisite_list p));
         ("successors", int_tolist (successor_list p));
         ("mutual_exclusions", int_tolist (exclusion_list p));
         ("cost", float_tolist (cost p)); ("value", float_tolist (value p))].
Proof. reflexivity. Qed.

Section Dictionary.
Context {L : Libm} {R : NumpyRandom}.

End Dictionary.


(** ** project.py: what the later passes cannot change *)

Section StageOrder.
Context {L : Libm} {R : NumpyRandom}.

End StageOrder.


(** ** project.py: the relation lists, entry by entry *)

Lemma grown_same (ls : list (list nat)) (add : nat → list nat) :
  (∀ x, add x = []) → grown ls ls add.
Proof.
  intros Hadd x. rewrite Hadd. destruct (ls !! x); simpl; [|done]. by rewrite app_nil_r.
Qed.

Lemma grown_trans (ls1 ls2 ls3 : list (list nat)) (f h k : nat → list nat) :
  grown ls1 ls2 f → grown ls2 ls3 h → (∀ x, k x = f x ++ h x) → grown ls1 ls3 k.
Proof.
  intros H1 H2 Hk x. rewrite (H2 x), (H1 x), Hk.
  destruct (ls1 !! x); simpl; [|done]. by rewrite app_assoc.
Qed.

Lemma grown_insert (ls : list (list nat)) (a : nat) (l v : list nat) :
  ls !! a = Some l →
  grown ls (<[a := l ++ v]> ls) (λ x, if decide (x = a) then v else []).
Proof.
  intros Ha x. destruct (decide (x = a)) as [->|Hne].
  - rewrite list_lookup_insert_eq by (by eapply lookup_lt_Some). by rewrite Ha.
  - rewrite list_lookup_insert_ne by done.
    destruct (ls !! x); simpl; [|done]. by rewrite app_nil_r.
Qed.

Lemma add_exclusion_grown (ps ps' : list Project) (a b : nat) :
  add_exclusion ps a b = Ok ps' →
  grown (map exclusion_list ps) (map exclusion_list ps')
        (λ x, if decide (x = a) then [(b + 1)%nat] else []).
Proof.
  unfold add_exclusion. intros H.
  apply result_bind_Ok in H as (p & Hp & [= <-]). apply getitem_Ok in Hp.
  rewrite list_fmap_insert. simpl. apply grown_insert.
  by rewrite list_lookup_fmap, Hp.
Qed.

Lemma add_successor_grown (ps ps' : list Project) (a b : nat) :
  add_successor ps a b = Ok ps' →
  grown (map successor_list ps) (map successor_list ps')
        (λ x, if decide (x = a) then [(b + 1)%nat] else []) ∧
  grown (map prerequisite_list ps) (map prerequisite_list ps')
        (λ x, if decide (x = b) then [(a + 1)%nat] else []).
Proof.
  unfold add_successor. intros H.
  apply result_bind_Ok in H as (p & Hp & H). apply getitem_Ok in Hp.
  apply result_bind_Ok in H as (q & Hq & [= <-]). apply getitem_Ok in Hq.
  split.
  - rewrite (map_insert_same successor_list _ _ q) by done.
    rewrite list_fmap_insert. simpl. apply grown_insert.
    by rewrite list_lookup_fmap, Hp.
  - rewrite list_fmap_insert. simpl.
    rewrite <- (map_insert_same prerequisite_list ps a p
                  (set_successor_list p (successor_list p ++ [(b + 1)%nat]))) at 1
      by done.
    apply grown_insert. by rewrite list_lookup_fmap, Hq.
Qed.

(** A loop whose every iteration appends to the lists appends what all its
    iterations append, in order. *)
Lemma for_each_grown {A : Type} (f : Project → list nat) (add : A → nat → list nat)
    (body : list Project → A → result (list Project)) (P : A → Prop)
    (l : list A) (ps ps' : list Project) :
  (∀ st a st', P a → body st a = Ok st' → grown (map f st) (map f st') (add a)) →
  Forall P l →
  for_each body l ps = Ok ps' →
  grown (map f ps) (map f ps') (λ x, concat (map (λ a, add a x) l)).
Proof.
  intros Hbody HP. revert ps. induction HP as [|a l Ha HP IH]; intros ps H; simpl in H.
  - injection H as <-. by apply grown_same.
  - apply result_bind_Ok in H as (st & Hst & H).
    eapply grown_trans; [by eapply Hbody|by eapply IH|done].
Qed.

Lemma grown_ext (ls ls' : list (list nat)) (f h : nat → list nat) :
  grown ls ls' f → (∀ x, f x = h x) → grown ls ls' h.
Proof. intros H Hfh x. by rewrite <- Hfh. Qed.

Lemma notin_take (G : list nat) (i y : nat) :
  NoDup G → G !! i = Some y → y ∉ take i G.
Proof.
  intros Hnd Hi Hin. apply elem_of_take in Hin as (i' & Hi' & Hlt).
  assert (i' = i) by (by eapply NoDup_lookup). lia.
Qed.

Lemma other_ids_take_same (G : list nat) (k y : nat) :
  G !! k = Some y →
  map (λ z, (z + 1)%nat) (filter (λ z, z ≠ y) (take (S k) G))
  = map (λ z, (z + 1)%nat) (filter (λ z, z ≠ y) (take k G)).
Proof.
  intros Hk. rewrite (take_S_r _ _ _ Hk), filter_app.
  rewrite filter_cons_False by (intros H; by apply H). by rewrite filter_nil, app_nil_r.
Qed.

Lemma other_ids_take_other (G : list nat) (k y z : nat) :
  G !! k = Some z → z ≠ y →
  map (λ z, (z + 1)%nat) (filter (λ z, z ≠ y) (take (S k) G))
  = map (λ z, (z + 1)%nat) (filter (λ z, z ≠ y) (take k G)) ++ [(z + 1)%nat].
Proof.
  intros Hk Hne. rewrite (take_S_r _ _ _ Hk), filter_app.
  rewrite filter_cons_True by done. by rewrite filter_nil, map_app.
Qed.

(** An exclusion group appends to the exclusion list of each of its members
    the ids of the other members, in the order of the group. *)
Lemma exclude_group_grown (ps ps' : list Project) (G : list nat) :
  NoDup G →
  exclude_group (Z.of_nat (length G)) ps G = Ok ps' →
  grown (map exclusion_list ps) (map exclusion_list ps')
        (exclusions_added G).
Proof.
  intros Hnd H. unfold exclude_group, range in H. rewrite Nat2Z.id in H.
  pose (I := λ (done : list nat) (st : list Project),
          grown (map exclusion_list ps) (map exclusion_list st)
                (λ x, if decide (x ∈ take (length done) G) then other_ids G x else [])).
  assert (HI : I (seq 0 (length G)) ps').
  { eapply for_each_inv; [| |exact H].
    - apply grown_same. intros x. simpl. destruct (decide (x ∈ [])) as [Hx|]; [|done].
      by apply elem_of_nil in Hx.
    - clear H ps'. intros done i rest st st' El HIst Hbody.
      apply seq_split_position in El as [-> Hi].
      apply result_bind_Ok in Hbody as (ind1 & Hind1 & Hinner).
      apply getitem_Ok in Hind1.
      pose (J := λ (done' : list nat) (st1 : list Project),
              grown (map exclusion_list st) (map exclusion_list st1)
                    (λ x, if decide (x = ind1)
                          then map (λ z, (z + 1)%nat)
                                   (filter (λ z, z ≠ ind1) (take (length done') G))
                          else [])).
      assert (HJ : J (seq 0 (length G)) st').
      { eapply for_each_inv; [| |exact Hinner].
        - apply grown_same. intros x. simpl. by destruct (decide (x = ind1)).
        - intros done' j rest' st1 st1' El' HJst Hstep. cbv beta in Hstep.
          apply seq_split_position in El' as [-> Hj].
          unfold J. rewrite length_app. simpl. rewrite Nat.add_1_r.
          destruct (decide (length done = length done')) as [Hij|Hij].
          + injection Hstep as <-. rewrite Hij in Hind1.
            eapply grown_ext; [exact HJst|]. intros x. simpl.
            destruct (decide (x = ind1)); [|done].
            by rewrite (other_ids_take_same G _ ind1).
          + apply result_bind_Ok in Hstep as (ind2 & Hind2 & Hadd).
            apply getitem_Ok in Hind2. apply add_exclusion_grown in Hadd.
            eapply grown_trans; [exact HJst|exact Hadd|]. intros x. simpl.
            destruct (decide (x = ind1)); [|done].
            apply other_ids_take_other; [done|].
            intros ->. apply Hij. by eapply NoDup_lookup. }
      unfold J in HJ. rewrite length_seq, firstn_all in HJ.
      unfold I. rewrite length_app. simpl. rewrite Nat.add_1_r.
      eapply grown_trans; [exact HIst|exact HJ|]. intros x. simpl.
      rewrite (take_S_r _ _ _ Hind1).
      pose proof (notin_take G _ ind1 Hnd Hind1) as Hnot.
      destruct (decide (x = ind1)) as [->|Hne].
      + rewrite (decide_False (P := ind1 ∈ take (length done) G)) by done.
        rewrite decide_True; [done|]. apply elem_of_app. right. by left.
      + rewrite app_nil_r. destruct (decide (x ∈ take (length done) G)) as [Hx|Hx].
        * rewrite decide_True; [done|]. apply elem_of_app. by left.
        * rewrite decide_False; [done|]. intros Hin.
          apply elem_of_app in Hin as [Hin|Hin]; [done|].
          by apply list_elem_of_singleton in Hin. }
  unfold I in HI. by rewrite length_seq, firstn_all in HI.
Qed.

Lemma seq_split_position_from (a n : nat) (done rest : list nat) (x : nat) :
  seq a n = done ++ x :: rest → x = (a + length done)%nat ∧ (x < a + n)%nat.
Proof.
  intros E.
  assert (Hx : seq a n !! length done = Some x).
  { rewrite E. by rewrite list_lookup_middle. }
  apply lookup_seq in Hx. lia.
Qed.

(** A prerequisite group appends the ids of its later members (in
    increasing order of position) to the successor list of its first member,
    and the id of the first member to the prerequisite list of each later
    member. *)
Lemma link_prerequisite_group_grown (ps ps' : list Project) (G : list nat) :
  NoDup G →
  link_prerequisite_group (Z.of_nat (length G)) ps G = Ok ps' →
  grown (map successor_list ps) (map successor_list ps') (successors_added G) ∧
  grown (map prerequisite_list ps) (map prerequisite_list ps') (prerequisites_added G).
Proof.
  intros Hnd H. unfold link_prerequisite_group, range_from in H. rewrite Nat2Z.id in H.
  unfold successors_added, prerequisites_added.
  pose proof (merge_sort_Permutation (≤)%nat G) as Hp.
  assert (Hnd' : NoDup (merge_sort (≤)%nat G)) by (by rewrite Hp).
  assert (Hlen : length (merge_sort (≤)%nat G) = length G) by (by rewrite Hp).
  destruct (merge_sort (≤)%nat G) as [|m rest] eqn:E; [done|]. simpl in H, Hlen.
  apply NoDup_cons in Hnd' as [_ Hndr].
  pose (I := λ (done : list nat) (st : list Project),
          grown (map successor_list ps) (map successor_list st)
                (λ x, if decide (x = m)
                      then map (λ y, (y + 1)%nat) (take (length done) rest) else []) ∧
          grown (map prerequisite_list ps) (map prerequisite_list st)
                (λ x, if decide (x ∈ take (length done) rest) then [(m + 1)%nat] else [])).
  assert (HI : I (seq 1 (length G - 1)) ps').
  { eapply for_each_inv; [| |exact H].
    - split; apply grown_same; intros x; simpl.
      + by destruct (decide (x = m)).
      + destruct (decide (x ∈ [])) as [Hx|]; [|done]. by apply elem_of_nil in Hx.
    - clear H ps'. intros done i rest' st st' El [HS HP] Hbody.
      apply seq_split_position_from in El as [-> Hi].
      apply result_bind_Ok in Hbody as (s & Hs & Hadd). apply getitem_Ok in Hs.
      simpl in Hs. apply add_successor_grown in Hadd as [HaS HaP].
      unfold I. rewrite length_app. simpl. rewrite Nat.add_1_r.
      rewrite (take_S_r _ _ _ Hs). split.
      + eapply grown_trans; [exact HS|exact HaS|]. intros x. simpl.
        destruct (decide (x = m)); [|done]. by rewrite map_app.
      + eapply grown_trans; [exact HP|exact HaP|]. intros x. simpl.
        pose proof (notin_take rest _ s Hndr Hs) as Hnot.
        destruct (decide (x = s)) as [->|Hne].
        * rewrite (decide_False (P := s ∈ take (length done) rest)) by done.
          rewrite decide_True; [done|]. apply elem_of_app. right. by left.
        * rewrite app_nil_r. destruct (decide (x ∈ take (length done) rest)) as [Hx|Hx].
          -- rewrite decide_True; [done|]. apply elem_of_app. by left.
          -- rewrite decide_False; [done|]. intros Hin.
             apply elem_of_app in Hin as [Hin|Hin]; [done|].
             by apply list_elem_of_singleton in Hin. }
  unfold I in HI. rewrite length_seq in HI.
  replace (length G - 1)%nat with (length rest) in HI by lia.
  by rewrite firstn_all in HI.
Qed.

Section PassLists.
Context {R : NumpyRandom} {RL : NumpyRandomLaws R}.
Variable body : Z → list Project → list nat → result (list Project).
Variable f : Project → list nat.
Variable add : list nat → nat → list nat.
Hypothesis body_grows : ∀ G st st', NoDup G →
  body (Z.of_nat (length G)) st G = Ok st' → grown (map f st) (map f st') (add G).

(** A pass appends to its lists what every group it draws appends, in the
    order of the draws. *)
Lemma rounds_grown (N : nat) (gs : directives) (indices : list nat)
    (ps : list Project) (g g' : rng) (st' : list nat * list Project) :
  NoDup indices →
  for_eachM (round_of body N) gs (indices, ps) g = Ok (st', g') →
  ∃ groups, drawn_groups N gs indices g = Ok (groups, g') ∧
    grown (map f ps) (map f st'.2) (λ x, concat (map (λ G, add G x) groups)).
Proof.
  revert indices ps g. induction gs as [|[size prop] gs IH];
    intros indices ps g Hnd H; simpl in H.
  - apply ret_Ok in H as [-> ->]. exists []. split; [done|]. by apply grown_same.
  - apply bind_Ok in H as ([ind1 ps1] & g1 & Hround & H).
    unfold round_of in Hround. simpl in Hround.
    apply bind_Ok in Hround as (n & g2 & Hn & Hround).
    apply bind_Ok in Hround as (groups1 & g3 & Hch & Hround).
    apply bind_Ok in Hround as (ps1' & g4 & Hloop & Hround).
    apply ret_Ok in Hround as [[= -> ->] ->].
    apply lift_Ok in Hloop as [Hloop ->].
    apply IH in H as (later & Hlater & Hrel); [|apply setdiff1d_NoDup].
    exists (groups1 ++ later). split.
    + simpl. rewrite (bind_run _ _ _ _ _ Hn), (bind_run _ _ _ _ _ Hch).
      by rewrite (bind_run _ _ _ _ _ Hlater).
    + apply choice_groups_spec in Hch as (Hsize & Hlen & Hsub).
      assert (Hnd1 : NoDup (concat groups1)) by (by eapply submseteq_NoDup).
      eapply grown_trans; [|exact Hrel|].
      * apply (for_each_grown f add (body size)
                 (λ G, NoDup G ∧ length G = Z.to_nat size)); [| |exact Hloop].
        -- intros st G st1 [HG HlG] Hb. apply body_grows; [done|].
           by rewrite HlG, Z2Nat.id.
        -- apply Forall_forall. intros G HG. split; [by eapply NoDup_concat_elem|].
           rewrite Forall_forall in Hlen. by apply Hlen.
      * intros x. simpl. by rewrite map_app, concat_app.
Qed.
End PassLists.

(** Among groups that share no member, only the group of [x] appends to
    the list of [x]. *)
Lemma concat_added (add : list nat → nat → list nat) (groups : list (list nat)) (x : nat) :
  (∀ G, x ∉ G → add G x = []) → NoDup (concat groups) →
  ((∀ G, G ∈ groups → x ∉ G) → concat (map (λ G, add G x) groups) = []) ∧
  (∀ G, G ∈ groups → x ∈ G → concat (map (λ G, add G x) groups) = add G x).
Proof.
  intros Hadd. induction groups as [|G' groups IH]; simpl; intros Hnd.
  - split; [done|]. intros G HG. by apply elem_of_nil in HG.
  - apply NoDup_app in Hnd as (_ & Hdis & Hnd). destruct (IH Hnd) as [IH1 IH2].
    split.
    + intros Hno. rewrite Hadd by (apply Hno; by left). simpl.
      apply IH1. intros G HG. apply Hno. by right.
    + intros G HG Hx. apply elem_of_cons in HG as [->|HG].
      * rewrite IH1; [by rewrite app_nil_r|].
        intros G HG HxG. apply (Hdis x Hx). apply elem_of_concat. by exists G.
      * rewrite Hadd; [by apply IH2|].
        intros HxG'. apply (Hdis x HxG'). apply elem_of_concat. by exists G.
Qed.

Lemma filter_other_absent (G : list nat) (x : nat) :
  x ∉ G → filter (λ y, y ≠ x) G = G.
Proof.
  induction G as [|y G IH]; intros Hx; [done|].
  apply not_elem_of_cons in Hx as [Hne Hx].
  rewrite filter_cons_True by done. by rewrite IH.
Qed.

Lemma filter_other_length (G : list nat) (x : nat) :
  NoDup G → x ∈ G → length (filter (λ y, y ≠ x) G) = (length G - 1)%nat.
Proof.
  induction G as [|y G IH]; intros Hnd Hx; [by apply elem_of_nil in Hx|].
  apply NoDup_cons in Hnd as [Hy Hnd].
  destruct (decide (y = x)) as [->|Hne].
  - rewrite filter_cons_False by (intros H; by apply H). simpl. rewrite Nat.sub_0_r.
    by rewrite filter_other_absent.
  - rewrite filter_cons_True by done. simpl.
    apply elem_of_cons in Hx as [->|Hx]; [done|].
    rewrite IH by done. destruct G; [by apply elem_of_nil in Hx|]. simpl. lia.
Qed.

Lemma other_ids_NoDup (G : list nat) (x : nat) : NoDup G → NoDup (other_ids G x).
Proof.
  intros Hnd. unfold other_ids. apply NoDup_fmap_2; [intros a b; lia|].
  by apply NoDup_filter.
Qed.

Section RunLists.
Context {L : Libm} {R : NumpyRandom} {RL : NumpyRandomLaws R}.

Lemma exclusion_pass_grown (t : option directives) (ps ps' : list Project) (g g' : rng) :
  exclusion_pass t ps g = Ok (ps', g') →
  ∃ groups, pass_groups t (length ps) g = Ok (groups, g') ∧
    grown (map exclusion_list ps) (map exclusion_list ps')
          (λ x, concat (map (λ G, exclusions_added G x) groups)).
Proof.
  destruct t as [gs|]; simpl.
  - unfold _generate_exclusions_post. intros H.
    apply bind_Ok in H as (st & g1 & H & Hret). apply ret_Ok in Hret as [-> ->].
    rewrite (for_eachM_ext _ (round_of exclude_group (length ps))) in H
      by apply exclusions_round_shape.
    apply (rounds_grown exclude_group exclusion_list exclusions_added
             (λ G st st' Hnd Hb, exclude_group_grown st st' G Hnd Hb)) in H;
      [done|apply NoDup_seq].
  - intros [= <- <-]. exists []. split; [done|]. by apply grown_same.
Qed.

Lemma prerequisite_pass_grown (t : option directives) (ps ps' : list Project) (g g' : rng) :
  prerequisite_pass t ps g = Ok (ps', g') →
  ∃ groups, pass_groups t (length ps) g = Ok (groups, g') ∧
    grown (map successor_list ps) (map successor_list ps')
          (λ x, concat (map (λ G, successors_added G x) groups)) ∧
    grown (map prerequisite_list ps) (map prerequisite_list ps')
          (λ x, concat (map (λ G, prerequisites_added G x) groups)).
Proof.
  destruct t as [gs|]; simpl.
  - unfold _generate_prerequisites_post. intros H.
    apply bind_Ok in H as (st & g1 & H & Hret). apply ret_Ok in Hret as [-> ->].
    rewrite (for_eachM_ext _ (round_of link_prerequisite_group (length ps))) in H
      by apply prerequisites_round_shape.
    pose proof H as H2.
    apply (rounds_grown link_prerequisite_group successor_list successors_added
             (λ G st st' Hnd Hb, proj1 (link_prerequisite_group_grown st st' G Hnd Hb)))
      in H as (groups & Hg & Hrel); [|apply NoDup_seq].
    apply (rounds_grown link_prerequisite_group prerequisite_list prerequisites_added
             (λ G st st' Hnd Hb, proj2 (link_prerequisite_group_grown st st' G Hnd Hb)))
      in H2 as (groups' & Hg' & Hrel'); [|apply NoDup_seq].
    rewrite Hg in Hg'. injection Hg' as <-. by exists groups.
  - intros [= <- <-]. exists []. split; [done|]. split; by apply grown_same.
Qed.

(** The three relation lists of every project of a completed run, from the
    groups its two passes drew. *)
Lemma create_random_projects_lists (fuel : nat) (N : Z)
    (pre excl syn : option directives) (seed : Z) (kwargs : Kwargs rng)
    (g g' : rng) (ps : list Project) (ss : list Synergy.t) :
  create_random_projects fuel N pre excl syn seed kwargs g = Ok (ps, ss, g') →
  ∃ g0 ps0 g1 ps1 g2 g3 groups_e groups_p,
    random_seed seed = Ok g0 ∧
    generate_projects fuel N kwargs g0 = Ok (ps0, g1) ∧
    exclusion_pass excl ps0 g1 = Ok (ps1, g2) ∧
    pass_groups excl (length ps) g1 = Ok (groups_e, g2) ∧
    pass_groups pre (length ps) g2 = Ok (groups_p, g3) ∧
    ∀ x p, ps !! x = Some p →
      exclusion_list p = concat (map (λ G, exclusions_added G x) groups_e) ∧
      successor_list p = concat (map (λ G, successors_added G x) groups_p) ∧
      prerequisite_list p = concat (map (λ G, prerequisites_added G x) groups_p).
Proof.
  intros H.
  apply create_random_projects_stages in H
    as (g0 & ps0 & g1 & ps1 & g2 & g3 & Hseed & H0 & H1 & H2 & _).
  pose proof (generate_projects_fresh _ _ _ _ _ _ H0) as [_ Hfresh].
  pose proof (exclusion_pass_frame successor_list _ _ _ _ _ ltac:(done) H1) as Fs.
  pose proof (exclusion_pass_frame prerequisite_list _ _ _ _ _ ltac:(done) H1) as Fp.
  pose proof (prerequisite_pass_frame exclusion_list _ _ _ _ _
                ltac:(done) ltac:(done) H2) as Fe.
  assert (Hlen1 : length ps1 = length ps0).
  { by rewrite <- (length_map successor_list ps1), Fs, length_map. }
  assert (Hlen : length ps = length ps1).
  { by rewrite <- (length_map exclusion_list ps), Fe, length_map. }
  pose proof (exclusion_pass_grown _ _ _ _ _ H1) as (groups_e & Hge & He).
  apply prerequisite_pass_grown in H2 as (groups_p & Hgp & Hs & Hp).
  exists g0, ps0, g1, ps1, g2, g3, groups_e, groups_p.
  rewrite Hlen, Hlen1 at 1. rewrite Hlen.
  split; [done|]. split; [done|]. split; [done|]. split; [done|]. split; [done|].
  intros x p Hx.
  assert (Hx0 : ∃ p0, ps0 !! x = Some p0) by
    (apply lookup_lt_is_Some_2; apply lookup_lt_Some in Hx; lia).
  destruct Hx0 as [p0 Hx0]. destruct (Hfresh x p0 Hx0) as (_ & Hp0 & Hs0 & He0 & _).
  split; [|split].
  - specialize (He x). rewrite <- Fe, !list_lookup_fmap, Hx, Hx0 in He. simpl in He.
    rewrite He0 in He. by injection He.
  - specialize (Hs x). rewrite Fs, !list_lookup_fmap, Hx, Hx0 in Hs. simpl in Hs.
    rewrite Hs0 in Hs. by injection Hs.
  - specialize (Hp x). rewrite Fp, !list_lookup_fmap, Hx, Hx0 in Hp. simpl in Hp.
    rewrite Hp0 in Hp. by injection Hp.
Qed.

(** X16. The exclusion list of every project of a completed run, from the
    groups the exclusion pass drew: a project outside every group has none;
    a member of a group lists the ids of the other members once each, in the
    order of the group, so one less than the group has members. *)
Theorem exclusion_lists_exact (fuel : nat) (N : Z)
    (pre excl syn : option directives) (seed : Z) (kwargs : Kwargs rng)
    (g g' : rng) (ps : list Project) (ss : list Synergy.t) :
  create_random_projects fuel N pre excl syn seed kwargs g = Ok (ps, ss, g') →
  ∃ g0 ps0 g1 g2 groups,
    random_seed seed = Ok g0 ∧
    generate_projects fuel N kwargs g0 = Ok (ps0, g1) ∧
    pass_groups excl (length ps) g1 = Ok (groups, g2) ∧
    ∀ x p, ps !! x = Some p →
      NoDup (exclusion_list p) ∧
      ((∀ G, G ∈ groups → x ∉ G) → exclusion_list p = []) ∧
      (∀ G, G ∈ groups → x ∈ G →
         exclusion_list p = other_ids G x ∧
         length (exclusion_list p) = (length G - 1)%nat).
Proof.
  intros H.
  apply create_random_projects_lists in H
    as (g0 & ps0 & g1 & ps1 & g2 & g3 & groups & groups_p &
        Hseed & H0 & _ & Hge & _ & Hall).
  exists g0, ps0, g1, g2, groups. split; [done|]. split; [done|]. split; [done|].
  pose proof (pass_groups_spec _ _ _ _ _ Hge) as [Hnd _].
  intros x p Hx. destruct (Hall x p Hx) as (-> & _).
  destruct (concat_added exclusions_added groups x) as [Hnone Hone]; [|done|].
  { intros G HG. unfold exclusions_added. by rewrite decide_False. }
  assert (Hmem : ∀ G, G ∈ groups → x ∈ G →
            concat (map (λ G, exclusions_added G x) groups) = other_ids G x).
  { intros G HG HxG. rewrite (Hone G HG HxG). unfold exclusions_added.
    by rewrite decide_True. }
  split; [|split; [done|]].
  - destruct (decide (x ∈ concat groups)) as [Hin|Hout].
    + apply elem_of_concat in Hin as (G & HxG & HG). rewrite (Hmem G HG HxG).
      apply other_ids_NoDup. by eapply NoDup_concat_elem.
    + rewrite Hnone; [constructor|]. intros G HG HxG. apply Hout.
      apply elem_of_concat. by exists G.
  - intros G HG HxG. rewrite (Hmem G HG HxG). split; [done|].
    unfold other_ids. rewrite length_map. apply filter_other_length; [|done].
    by eapply NoDup_concat_elem.
Qed.

(** X17. The successor and prerequisite lists of every project of a
    completed run, from the groups the prerequisite pass drew: a project
    outside every group has neither; the member of a group with the smallest
    position lists the ids of the other members as successors, in increasing
    order of position, and has no prerequisite; every other member has no
    successor and exactly one prerequisite, that member. *)
Theorem prerequisite_lists_exact (fuel : nat) (N : Z)
    (pre excl syn : option directives) (seed : Z) (kwargs : Kwargs rng)
    (g g' : rng) (ps : list Project) (ss : list Synergy.t) :
  create_random_projects fuel N pre excl syn seed kwargs g = Ok (ps, ss, g') →
  ∃ g0 ps0 g1 ps1 g2 g3 groups,
    random_seed seed = Ok g0 ∧
    generate_projects fuel N kwargs g0 = Ok (ps0, g1) ∧
    exclusion_pass excl ps0 g1 = Ok (ps1, g2) ∧
    pass_groups pre (length ps) g2 = Ok (groups, g3) ∧
    ∀ x p, ps !! x = Some p →
      ((∀ G, G ∈ groups → x ∉ G) → successor_list p = [] ∧ prerequisite_list p = []) ∧
      (∀ G m rest, G ∈ groups → x ∈ G → merge_sort (≤)%nat G = m :: rest →
         (x = m → successor_list p = map (λ y, (y + 1)%nat) rest ∧
                  prerequisite_list p = []) ∧
         (x ≠ m → successor_list p = [] ∧ prerequisite_list p = [(m + 1)%nat])).
Proof.
  intros H.
  apply create_random_projects_lists in H
    as (g0 & ps0 & g1 & ps1 & g2 & g3 & groups_e & groups &
        Hseed & H0 & H1 & _ & Hgp & Hall).
  exists g0, ps0, g1, ps1, g2, g3, groups.
  split; [done|]. split; [done|]. split; [done|]. split; [done|].
  pose proof (pass_groups_spec _ _ _ _ _ Hgp) as [Hnd _].
  intros x p Hx. destruct (Hall x p Hx) as (_ & -> & ->).
  assert (HaddS : ∀ G, x ∉ G → successors_added G x = []).
  { intros G HG. unfold successors_added.
    pose proof (merge_sort_Permutation (≤)%nat G) as Hp.
    destruct (merge_sort (≤)%nat G) as [|m rest]; [done|].
    rewrite decide_False; [done|]. intros ->. apply HG. rewrite <- Hp. by left. }
  assert (HaddP : ∀ G, x ∉ G → prerequisites_added G x = []).
  { intros G HG. unfold prerequisites_added.
    pose proof (merge_sort_Permutation (≤)%nat G) as Hp.
    destruct (merge_sort (≤)%nat G) as [|m rest]; [done|].
    rewrite decide_False; [done|]. intros Hin. apply HG. rewrite <- Hp. by right. }
  destruct (concat_added successors_added groups x HaddS Hnd) as [HnoneS HoneS].
  destruct (concat_added prerequisites_added groups x HaddP Hnd) as [HnoneP HoneP].
  split.
  - intros Hno. by rewrite HnoneS, HnoneP.
  - intros G m rest HG HxG E. rewrite (HoneS G HG HxG), (HoneP G HG HxG).
    unfold successors_added, prerequisites_added. rewrite E.
    pose proof (merge_sort_Permutation (≤)%nat G) as Hp. rewrite E in Hp.
    assert (Hnd' : NoDup (m :: rest)).
    { rewrite Hp. by eapply NoDup_concat_elem. }
    apply NoDup_cons in Hnd' as [Hm _].
    split.
    + intros ->. rewrite decide_True by done. by rewrite decide_False.
    + intros Hne. rewrite decide_False by done. rewrite decide_True; [done|].
      rewrite <- Hp in HxG. apply elem_of_cons in HxG as [->|HxG]; done.
Qed.
End RunLists.

(** Three projects in one exclusion group (seed 2863311530). *)
Lemma exclusion_lists_exact_witness :
  ∃ ps ss g',
    @create_random_projects Scripted.libm Replayed.numpy
      5 3 None (Some [(3%Z, 1)]) None 2863311530 no_kwargs [] = Ok (ps, ss, g') ∧
    ∃ g0 ps0 g1 g2 groups,
      Replayed.seed 2863311530 = Ok g0 ∧
      @generate_projects Scripted.libm Replayed.numpy 5 3 no_kwargs g0 = Ok (ps0, g1) ∧
      @pass_groups Replayed.numpy (Some [(3%Z, 1)]) (length ps) g1 = Ok (groups, g2) ∧
      ∀ x p, ps !! x = Some p →
        NoDup (exclusion_list p) ∧
        ((∀ G, G ∈ groups → x ∉ G) → exclusion_list p = []) ∧
        (∀ G, G ∈ groups → x ∈ G →
           exclusion_list p = other_ids G x ∧
           length (exclusion_list p) = (length G - 1)%nat).
Proof.
  eexists _, _, _. split; [vm_compute; reflexivity|].
  eapply (@exclusion_lists_exact Scripted.libm Replayed.numpy replayed_numpy_laws
            5 3 None (Some [(3%Z, 1)]) None 2863311530 no_kwargs []).
  vm_compute; reflexivity.
Defined.

(** Three projects in one prerequisite group (seed 2863311530). *)
Lemma prerequisite_lists_exact_witness :
  ∃ ps ss g',
    @create_random_projects Scripted.libm Replayed.numpy
      5 3 (Some [(3%Z, 1)]) None None 2863311530 no_kwargs [] = Ok (ps, ss, g') ∧
    ∃ g0 ps0 g1 ps1 g2 g3 groups,
      Replayed.seed 2863311530 = Ok g0 ∧
      @generate_projects Scripted.libm Replayed.numpy 5 3 no_kwargs g0 = Ok (ps0, g1) ∧
      @exclusion_pass Replayed.numpy None ps0 g1 = Ok (ps1, g2) ∧
      @pass_groups Replayed.numpy (Some [(3%Z, 1)]) (length ps) g2 = Ok (groups, g3) ∧
      ∀ x p, ps !! x = Some p →
        ((∀ G, G ∈ groups → x ∉ G) → successor_list p = [] ∧ prerequisite_list p = []) ∧
        (∀ G m rest, G ∈ groups → x ∈ G → merge_sort (≤)%nat G = m :: rest →
           (x = m → successor_list p = map (λ y, (y + 1)%nat) rest ∧
                    prerequisite_list p = []) ∧
           (x ≠ m → successor_list p = [] ∧ prerequisite_list p = [(m + 1)%nat])).
Proof.
  eexists _, _, _. split; [vm_compute; reflexivity|].
  eapply (@prerequisite_lists_exact Scripted.libm Replayed.numpy replayed_numpy_laws
            5 3 (Some [(3%Z, 1)]) None None 2863311530 no_kwargs []).
  vm_compute; reflexivity.
Defined.

(** ** project_problem_instance.py: when an instance is returned *)

Section InstanceReturns.
Context {L : Libm} {R : NumpyRandom}.

(** The budget loop never leaves the array: the budget is built whenever
    the number of periods is not negative. *)
Lemma linear_budget_total (param : InstanceParameters rng) (budget_period : Z) :
  (0 ≤ budget_period)%Z → ∃ b, linear_budget param budget_period = Ok b.
Proof.
  intros Hpos. unfold linear_budget, np_zeros.
  destruct (budget_period <? 0)%Z eqn:E; [apply Z.ltb_lt in E; lia|]. simpl.
  match goal with |- ∃ b, for_each ?f ?l ?s = _ =>
    destruct (for_each_total (λ _ st, length st = Z.to_nat budget_period) f l s)
      as (b & Hb & _) end.
  - by rewrite length_replicate.
  - intros done y rest st El Hlen. apply seq_split_position in El as [-> Hy].
    rewrite setitem_nat by lia. eexists. split; [done|]. by rewrite length_insert.
  - by exists b.
Qed.

(** X18. [generate_instance] after the generation of the projects: for the
    largest duration [M] of the projects it returns an instance (holding
    these projects and synergies) whenever [planning_window + M] is not
    negative, and raises [ValueError] ([np.zeros]) when it is; the loop that
    fills the budget never raises. *)
Theorem generate_instance_returns (fuel : nat) (param : InstanceParameters rng) (seed : Z)
    (name : string) (g g1 : rng) (ps : list Project) (ss : list Synergy.t) :
  create_random_projects_from_param fuel param seed g = Ok (ps, ss, g1) →
  ((0 ≤ planning_window param + max_project_length ps)%Z →
   ∃ inst param', generate_instance fuel param seed name g = Ok (inst, param', g1) ∧
                  projects inst = ps ∧ synergies inst = ss) ∧
  ((planning_window param + max_project_length ps < 0)%Z →
   generate_instance fuel param seed name g = Raise ValueError).
Proof.
  intros Hrun. unfold generate_instance.
  rewrite (bind_run _ _ _ _ _ Hrun). split.
  - intros Hpos.
    destruct (linear_budget_total
                (set_max_proj_length param (max_project_length ps))
                (planning_window param + max_project_length ps) Hpos) as [b Hb].
    simpl. unfold bind, lift. simpl in Hb. rewrite Hb. unfold ret.
    eexists _, _. split; [reflexivity|]. by split.
  - intros Hneg. simpl. unfold bind, lift, linear_budget, np_zeros. simpl.
    apply Z.ltb_lt in Hneg. by rewrite Hneg.
Qed.
End InstanceReturns.

(** One project of duration 1 and a planning window of 3 periods (seed
    10660). *)
Lemma generate_instance_returns_witness :
  ∃ ps ss g1,
    @create_random_projects_from_param Scripted.libm Scripted.numpy
      5 Scripted.growing_budget 10660 [] = Ok (ps, ss, g1) ∧
    ((0 ≤ 3 + max_project_length ps)%Z →
     ∃ inst param',
       @generate_instance Scripted.libm Scripted.numpy
         5 Scripted.growing_budget 10660 "Instance 1" [] = Ok (inst, param', g1) ∧
       projects inst = ps ∧ synergies inst = ss) ∧
    ((3 + max_project_length ps < 0)%Z →
     @generate_instance Scripted.libm Scripted.numpy
       5 Scripted.growing_budget 10660 "Instance 1" [] = Raise ValueError).
Proof.
  eexists _, _, _. split; [vm_compute; reflexivity|].
  eapply (@generate_instance_returns Scripted.libm Scripted.numpy
            5 Scripted.growing_budget 10660 "Instance 1" []).
  vm_compute; reflexivity.
Defined.

(** ** project.py: when the constraint passes return *)

Lemma scripted_choice_returns : ChoiceReturns Scripted.numpy.
Proof.
  split. intros a k g Hk. simpl. unfold Scripted.choice.
  rewrite decide_True by done. destruct (Scripted.pick k a g) as [l g']. by exists l, g'.
Qed.

Lemma list_difference_length (a b : list nat) :
  NoDup a → b ⊆+ a → length (list_difference a b) = (length a - length b)%nat.
Proof.
  intros Ha Hb.
  assert (Hp : list_difference a b ++ b ≡ₚ a).
  { apply NoDup_Permutation; [|done|].
    - apply NoDup_app. split; [by apply NoDup_list_difference|].
      split; [|by eapply submseteq_NoDup].
      intros x Hx. by apply list_elem_of_difference in Hx as [_ Hx].
    - intros x. rewrite elem_of_app, list_elem_of_difference. split.
      + intros [[Hx _]|Hx]; [done|]. by eapply elem_of_submseteq.
      + intros Hx. destruct (decide (x ∈ b)); [by right|by left]. }
  apply Permutation_length in Hp. rewrite length_app in Hp. lia.
Qed.

Lemma setdiff1d_length (a b : list nat) :
  NoDup a → b ⊆+ a → length (setdiff1d a b) = (length a - length b)%nat.
Proof.
  intros Ha Hb. unfold setdiff1d. rewrite merge_sort_Permutation.
  rewrite <- (list_difference_length a b Ha Hb).
  apply Permutation_length. apply NoDup_Permutation.
  - apply NoDup_remove_dups.
  - by apply NoDup_list_difference.
  - intros x. apply elem_of_remove_dups.
Qed.

Lemma Qtrunc_nonneg (x : Q) : 0 <= x → (0 ≤ Qtrunc x)%Z.
Proof.
  intros Hx. unfold Qtrunc. apply Qle_bool_iff in Hx as Hb. rewrite Hb.
  change 0%Z with (Qfloor 0). by apply Qfloor_resp_le.
Qed.

(** An exclusion group of valid positions is processed without an
    exception, and the array keeps its length. *)
Lemma exclude_group_total (size : Z) (ps : list Project) (G : list nat) :
  length G = Z.to_nat size → (∀ x, x ∈ G → (x < length ps)%nat) →
  ∃ ps', exclude_group size ps G = Ok ps' ∧ length ps' = length ps.
Proof.
  intros Hlen Hvalid. unfold exclude_group, range.
  apply (for_each_total (λ _ st, length st = length ps)); [done|].
  intros done i rest st El Hst. apply seq_split_position in El as [-> Hi].
  destruct (lookup_lt_is_Some_2 G (length done) ltac:(lia)) as [ind1 Hind1].
  unfold getitem at 1. rewrite Hind1. simpl.
  apply (for_each_total (λ _ st1, length st1 = length ps)); [done|].
  intros done' j rest' st1 El' Hst1. apply seq_split_position in El' as [-> Hj].
  destruct (decide (length done = length done')); [by exists st1|].
  destruct (lookup_lt_is_Some_2 G (length done') ltac:(lia)) as [ind2 Hind2].
  unfold getitem at 1. rewrite Hind2. simpl. unfold add_exclusion.
  destruct (lookup_lt_is_Some_2 st1 ind1) as [p Hp].
  { rewrite Hst1. apply Hvalid. by eapply list_elem_of_lookup_2. }
  unfold getitem. rewrite Hp. simpl. eexists. split; [done|]. by rewrite length_insert.
Qed.

(** The same for a prerequisite group that is not empty. *)
Lemma link_prerequisite_group_total (size : Z) (ps : list Project) (G : list nat) :
  (1 ≤ size)%Z → length G = Z.to_nat size → (∀ x, x ∈ G → (x < length ps)%nat) →
  ∃ ps', link_prerequisite_group size ps G = Ok ps' ∧ length ps' = length ps.
Proof.
  intros Hsize Hlen Hvalid. unfold link_prerequisite_group, range_from.
  pose proof (merge_sort_Permutation (≤)%nat G) as Hp.
  assert (Hlen' : length (merge_sort (≤)%nat G) = Z.to_nat size) by (by rewrite Hp).
  assert (Hvalid' : ∀ i x, merge_sort (≤)%nat G !! i = Some x → (x < length ps)%nat).
  { intros i x Hx. apply Hvalid. rewrite <- Hp. by eapply list_elem_of_lookup_2. }
  destruct (lookup_lt_is_Some_2 (merge_sort (≤)%nat G) 0 ltac:(lia)) as [m Hm].
  unfold getitem at 1. rewrite Hm. simpl.
  apply (for_each_total (λ _ st, length st = length ps)); [done|].
  intros done i rest st El Hst. apply seq_split_position_from in El as [-> Hi].
  destruct (lookup_lt_is_Some_2 (merge_sort (≤)%nat G) (1 + length done) ltac:(lia))
    as [s Hs].
  unfold getitem at 1. rewrite Hs. simpl. unfold add_successor.
  destruct (lookup_lt_is_Some_2 st m) as [p Hp'].
  { rewrite Hst. by eapply Hvalid'. }
  unfold getitem at 1. rewrite Hp'. simpl.
  match goal with |- ∃ s', (try _ <- getitem ?l s; _) = _ ∧ _ =>
    destruct (lookup_lt_is_Some_2 l s) as [q Hq] end.
  { rewrite length_insert, Hst. by eapply Hvalid'. }
  unfold getitem. rewrite Hq. simpl. eexists. split; [done|].
  by rewrite !length_insert.
Qed.

Section PassesComplete.
Context {R : NumpyRandom} {RL : NumpyRandomLaws R} {CR : ChoiceReturns R}.
Variable body : Z → list Project → list nat → result (list Project).
Hypothesis body_total : ∀ size st G,
  (1 ≤ size)%Z → length G = Z.to_nat size → (∀ x, x ∈ G → (x < length st)%nat) →
  ∃ st', body size st G = Ok st' ∧ length st' = length st.

Lemma groups_total (size : Z) (groups : list (list nat)) (ps : list Project) :
  (1 ≤ size)%Z → Forall (λ G, length G = Z.to_nat size) groups →
  (∀ x, x ∈ concat groups → (x < length ps)%nat) →
  ∃ ps', for_each (body size) groups ps = Ok ps' ∧ length ps' = length ps.
Proof.
  intros Hsize Hlen. revert ps. induction Hlen as [|G groups HG _ IH]; intros ps Hvalid.
  - by exists ps.
  - simpl in *. destruct (body_total size ps G Hsize HG) as (st & Hst & Hl).
    { intros x Hx. apply Hvalid, elem_of_app. by left. }
    rewrite Hst. simpl. destruct (IH st) as (ps' & Hps' & Hl').
    { intros x Hx. rewrite Hl. apply Hvalid, elem_of_app. by right. }
    exists ps'. split; [done|]. congruence.
Qed.

(** The rounds of a pass complete when its directives have sizes from 1 on
    and proportions that are not negative, and ask for no more members than
    the pool holds. *)
Lemma rounds_complete (N : nat) (gs : directives) (indices : list nat)
    (ps : list Project) (g : rng) :
  NoDup indices → (∀ x, x ∈ indices → (x < N)%nat) → length ps = N →
  Forall (λ d : Z * Q, (1 ≤ d.1)%Z ∧ 0 <= d.2) gs →
  (members_needed N gs ≤ length indices)%nat →
  ∃ st' g', for_eachM (round_of body N) gs (indices, ps) g = Ok (st', g').
Proof.
  intros Hnd Hb Hl Hgs. revert indices ps g Hnd Hb Hl.
  induction Hgs as [|[size prop] gs [Hsize Hprop] _ IH];
    intros indices ps g Hnd Hb Hl Hneed; simpl in *.
  - by exists (indices, ps), g.
  - unfold members_needed in Hneed. simpl in Hneed.
    fold (members_needed N gs) in Hneed.
    set (n := Qtrunc (prop * inject_Z (Z.of_nat N) / inject_Z size)) in *.
    assert (Hn : (0 ≤ n)%Z).
    { apply Qtrunc_nonneg. apply Qle_shift_div_l.
      - change 0 with (inject_Z 0). rewrite <- Zlt_Qlt. lia.
      - assert (0 <= inject_Z (Z.of_nat N)).
        { change 0 with (inject_Z 0). rewrite <- Zle_Qle. lia. }
        assert (0 <= prop * inject_Z (Z.of_nat N)) by (by apply Qmult_le_0_compat).
        lra. }
    assert (Hng : num_groups_of prop N size = Ok n).
    { unfold num_groups_of.
      destruct (size =? 0)%Z eqn:Es; [apply Z.eqb_eq in Es; lia|done]. }
    destruct (choice_returns indices (Z.to_nat (n * size)) g) as (flat & g1 & Hflat).
    { rewrite Z2Nat.inj_mul by lia. lia. }
    pose proof (choice_ok _ _ _ _ _ Hflat) as [Hflen Hsub].
    rewrite Z2Nat.inj_mul in Hflen by lia.
    set (groups := reshape (Z.to_nat n) (Z.to_nat size) flat).
    assert (Hch : choice_groups indices n size g = Ok (groups, g1)).
    { unfold choice_groups.
      replace ((n <? 0)%Z || (size <? 0)%Z) with false
        by (symmetry; apply orb_false_iff; split; apply Z.ltb_ge; lia).
      by rewrite (bind_run _ _ _ _ _ Hflat). }
    assert (Hcat : concat groups = flat).
    { unfold groups. rewrite reshape_concat, take_ge by lia. done. }
    destruct (groups_total size groups ps Hsize) as (ps1 & Hps1 & Hl1).
    { apply reshape_lengths. lia. }
    { intros x Hx. rewrite Hcat in Hx. rewrite Hl. apply Hb.
      by eapply elem_of_submseteq. }
    assert (Hround : round_of body N (indices, ps) (size, prop) g
                     = Ok ((setdiff1d indices (concat groups), ps1), g1)).
    { unfold round_of. simpl.
      rewrite (bind_run _ _ g g n) by (by rewrite Hng).
      rewrite (bind_run _ _ _ _ _ Hch).
      by rewrite (bind_run _ _ g1 g1 ps1) by (by rewrite Hps1). }
    destruct (IH (setdiff1d indices (concat groups)) ps1 g1) as (st' & g' & Hrest).
    + apply setdiff1d_NoDup.
    + intros x Hx. apply setdiff1d_elem in Hx as [Hx _]. by apply Hb.
    + congruence.
    + rewrite setdiff1d_length; [|done|by rewrite Hcat]. rewrite Hcat, Hflen. lia.
    + exists st', g'. by rewrite (bind_run _ _ _ _ _ Hround).
Qed.
End PassesComplete.

Section PassesReturn.
Context {L : Libm} {R : NumpyRandom} {RL : NumpyRandomLaws R} {CR : ChoiceReturns R}.

End PassesReturn.

